(** * Asset server: the asynchronous processing pipeline

    A shallow embedding of the worker of the asset server
    (src/worker.ts and its combined variant src/index.ts), of the three
    transform executors (imageProcessor.ts, videoProcessor.ts,
    pdfProcessor.ts), of the type classifier, the existence prober, the
    signed-URL fetcher, the request logger (logService.ts) and of the
    intake controller (assetController.ts).

    The code is asynchronous but strictly sequential: every call is
    awaited.  It is embedded in a small monad that threads the log store,
    records the outward actions of the program in order and propagates
    exceptions.  Everything the program asks of its collaborators (the JSON
    parser, the network, the file system, sharp, ffmpeg, ffprobe,
    Ghostscript, MongoDB, RabbitMQ, the clock) is answered by a [World]. *)

From Stdlib Require Import String Ascii ZArith QArith List Bool Lia.
From Stdlib Require Import Strings.Byte DecimalString.
From stdpp Require Import base option list gmap strings.

Local Open Scope string_scope.
Local Open Scope Z_scope.
Local Open Scope list_scope.
Local Open Scope stdpp_scope.

(** ** Values *)

(** A JavaScript [Error]: its message and its stack. *)
Record Error := { err_message : string; err_stack : string }.

(** The outcome of an awaited call: a value, or a thrown error. *)
Inductive result (A : Type) : Type :=
| Ok (a : A)
| Throw (e : Error).
Arguments Ok {A} a.
Arguments Throw {A} e.

Definition Buffer := list byte.
Definition buffer_length (b : Buffer) : Z := Z.of_nat (length b).

(** Template literals print integers in decimal. *)
Definition show_Z (z : Z) : string := NilZero.string_of_int (Z.to_int z).

(** JavaScript truthiness of an optional boolean and of an optional string. *)
Definition truthy_bool (b : option bool) : bool :=
  match b with Some true => true | _ => false end.

Definition truthy_string (s : option string) : bool :=
  match s with
  | Some EmptyString => false
  | Some _ => true
  | None => false
  end.

(** [String(v)] for a possibly undefined string. *)
Definition js_string (s : option string) : string := default "undefined" s.

(** ** Processing options (src/config/processingConfig.ts) *)

(** Pixels are modelled as integers, seconds as rationals. *)
Record CropParams := {
  crop_x : Z;
  crop_y : Z;
  crop_width : Z;
  crop_height : Z
}.

Record TrimParams := {
  trim_start : Q;
  trim_end : Q
}.

Record ImageProps := {
  img_compress : option bool;
  img_cropParams : option CropParams
}.

Record VideoProps := {
  vid_cropParams : option CropParams;
  vid_trimParams : option TrimParams;
  vid_compression : option bool
}.

Record PdfProps := {
  pdf_compress : option bool
}.

(** The options bag.  For each key, [None] says the object has no such own
    property, [Some None] that the property is there with a nullish value. *)
Record AssetConfig := {
  imageProps : option (option ImageProps);
  videoProps : option (option VideoProps);
  pdfProps : option (option PdfProps)
}.

Definition hasOwnProperty {A : Type} (p : option (option A)) : bool :=
  match p with Some _ => true | None => false end.

(** [o?.f] on an own property that may be absent or nullish. *)
Definition opt_chain {A B : Type} (p : option (option A)) (f : A -> option B)
  : option B :=
  match p with
  | Some (Some a) => f a
  | _ => None
  end.

(** The queue message (and the intake body), seen through the fields the
    program reads; [None] is an absent or nullish field. *)
Record Msg := {
  msg_requestId : option string;
  msg_source : option string;
  msg_originalUrl : option string;
  msg_overwriteUrl : option string;
  msg_assetConfig : option AssetConfig
}.

(** What [JSON.parse] makes of a message body: a syntax error, the value
    [null], or a value whose properties can be read.  The last is an object,
    or a number, a string or a boolean: of these the program reads every
    field as undefined, which is [None] in all the fields of the [Msg]. *)
Inductive ParseResult :=
| PSyntaxError (e : Error)
| PNull
| PValue (m : Msg).

(** ** Asset kinds (src/utils/getAssetType.ts) *)

Inductive AssetKind := image | video | pdf | unknown.

Definition kind_name (k : AssetKind) : string :=
  match k with
  | image => "image"
  | video => "video"
  | pdf => "pdf"
  | unknown => "unknown"
  end.

(** ** The request log (src/models/Log.ts, src/utils/logService.ts) *)

Inductive LogStatus :=
| pending | processing | completed | failed | error | warning.

Definition status_name (s : LogStatus) : string :=
  match s with
  | pending => "pending"
  | processing => "processing"
  | completed => "completed"
  | failed => "failed"
  | error => "error"
  | warning => "warning"
  end.

(** An event as the worker hands it to the logger; [createdAt] is stamped
    by the store and is not modelled. *)
Record LogEvent := {
  ev_status : LogStatus;
  ev_message : string;
  ev_error : option string
}.

Record RequestLog := {
  rl_requestId : string;
  rl_source : string;
  rl_processingConfig : option AssetConfig;
  rl_events : list LogEvent
}.

(** One document per [originalUrl] (a unique index): a finite map from the
    URL to the document's ordered list of request entries. *)
Abbreviation LogStore := (gmap string (list RequestLog)).

(** ** What the collaborators see *)

Record HeadResponse := {
  head_ok : bool;
  head_content_type : option string
}.

Record GetResponse := {
  get_ok : bool;
  get_body : Buffer
}.

Record SharpMetadata := {
  md_width : option Z;
  md_height : option Z
}.

Record VideoStream := {
  vs_width : option Z;
  vs_height : option Z
}.

(** [streams_video] is the first stream whose codec type is video. *)
Record FfprobeData := {
  streams_video : option VideoStream;
  format_duration : option Q
}.

(** The sharp pipeline at the moment [toFile] runs. *)
Record SharpJob := {
  sharp_input : string;
  sharp_extract : option CropParams;
  sharp_webp_quality : Z;
  sharp_output : string
}.

(** The ffmpeg command at the moment [save] runs. *)
Record FfmpegCommand := {
  ff_input : string;
  ff_videoCodec : string;
  ff_startTime : option Q;
  ff_duration : option Q;
  ff_videoFilters : list string;
  ff_size : option string;
  ff_outputOptions : list string
}.

Inductive Level := lv_info | lv_warn | lv_error | lv_console_log | lv_console_error.

(** The outward actions of the program, in the order it performs them. *)
Inductive Action :=
| ALogEvent (ev : LogEvent)
| ALogger (lv : Level) (text : string)
| AHead (u : string)
| AGet (u : string)
| APut (u : string) (body : Buffer) (contentType : string)
| AMkdir (p : string)
| AWriteFile (p : string) (b : Buffer)
| AReadFile (p : string)
| AStat (p : string)
| AExists (p : string)
| AUnlink (p : string)
| ASharpMetadata (p : string)
| ASharpToFile (j : SharpJob)
| AFfprobe (p : string)
| AFfmpegSave (c : FfmpegCommand) (out : string)
| AExec (command : string)
| ASendToQueue (b : Buffer)
| AAck
| ANack (allUpTo requeue : bool).

(** ** The world *)

Record World := {
  (* JSON and identifiers *)
  json_parse : Buffer -> ParseResult;
  json_stringify : Msg -> Buffer;
  uuidv4 : string;
  show_number : Q -> string;
  (* process and clock *)
  cwd : string;
  tmpdir : string;
  date_now_input : Z;
  date_now_pdf : Z;
  (* network *)
  fetch_head_type : string -> result HeadResponse;
  fetch_head_exists : string -> result HeadResponse;
  fetch_get : string -> result GetResponse;
  fetch_put : string -> Buffer -> string -> result bool;
  (* file system *)
  fs_mkdir : string -> option Error;
  fs_writeFile : string -> Buffer -> option Error;
  fs_readFile : string -> result Buffer;
  fs_stat : string -> result Z;
  fs_existsSync : string -> bool;
  fs_unlink : string -> option Error;
  (* codecs *)
  sharp_metadata : string -> result SharpMetadata;
  sharp_extract_region : CropParams -> option Error;
  sharp_toFile : SharpJob -> option Error;
  ffprobe : string -> result FfprobeData;
  ffmpeg_save : FfmpegCommand -> string -> option Error;
  exec_gs : string -> result string;
  (* store and queue *)
  db_findOne : string -> option Error;
  db_create : string -> option Error;
  db_save : string -> option Error;
  db_updateOne : string -> string -> LogEvent -> option Error;
  connectRabbitMQ : option Error
}.

(** ** The monad *)

Definition M (A : Type) : Type :=
  LogStore -> result A * LogStore * list Action.

Definition ret {A : Type} (a : A) : M A := fun s => (Ok a, s, []).

Definition throw {A : Type} (e : Error) : M A := fun s => (Throw e, s, []).

Definition bind {A B : Type} (m : M A) (f : A -> M B) : M B :=
  fun s =>
    match m s with
    | (Ok a, s1, t1) =>
        match f a s1 with
        | (r, s2, t2) => (r, s2, t1 ++ t2)
        end
    | (Throw e, s1, t1) => (Throw e, s1, t1)
    end.

(** [try { m } catch (e) { h e }] *)
Definition try_catch {A : Type} (m : M A) (h : Error -> M A) : M A :=
  fun s =>
    match m s with
    | (Ok a, s1, t1) => (Ok a, s1, t1)
    | (Throw e, s1, t1) =>
        match h e s1 with
        | (r, s2, t2) => (r, s2, t1 ++ t2)
        end
    end.

Definition emit (a : Action) : M unit := fun s => (Ok tt, s, [a]).

Definition get_store : M LogStore := fun s => (Ok s, s, []).

Definition put_store (s' : LogStore) : M unit := fun _ => (Ok tt, s', []).

Definition lift {A : Type} (r : result A) : M A :=
  match r with
  | Ok a => ret a
  | Throw e => throw e
  end.

Definition lift_err (o : option Error) : M unit :=
  match o with
  | None => ret tt
  | Some e => throw e
  end.

Notation "'let!' x ':=' m 'in' k" := (bind m (fun x => k))
  (at level 10, x name, m at level 100, k at level 200).
Notation "'do!' m 'in' k" := (bind m (fun _ => k))
  (at level 10, m at level 100, k at level 200).

Definition res {A : Type} (o : result A * LogStore * list Action) : result A :=
  fst (fst o).
Definition store_of {A : Type} (o : result A * LogStore * list Action)
  : LogStore := snd (fst o).
Definition acts {A : Type} (o : result A * LogStore * list Action)
  : list Action := snd o.

Definition logger (lv : Level) (text : string) : M unit :=
  emit (ALogger lv text).

Definition new_Error (text : string) : Error :=
  {| err_message := text; err_stack := "Error: " +:+ text |}.

Definition TypeError (text : string) : Error :=
  {| err_message := text; err_stack := "TypeError: " +:+ text |}.

(** ** Paths (node:path, POSIX flavour, on the paths the worker builds) *)

Definition path_join (a b : string) : string := a +:+ "/" +:+ b.

Fixpoint last_segment (cur s : string) : string :=
  match s with
  | EmptyString => cur
  | String c r =>
      if Ascii.eqb c "/" then last_segment "" r
      else last_segment (cur +:+ String c "") r
  end.

(** The extension of a file name: from its last dot on, a leading dot apart. *)
Fixpoint last_dot (cur : option string) (s : string) : option string :=
  match s with
  | EmptyString => cur
  | String c r =>
      if Ascii.eqb c "." then last_dot (Some (String c "")) r
      else last_dot (option_map (fun e => e +:+ String c "") cur) r
  end.

Definition extname (p : string) : string :=
  match last_segment "" p with
  | EmptyString => ""
  | String _ r => default "" (last_dot None r)
  end.

Definition strip_suffix (ext s : string) : string :=
  let n := (String.length s - String.length ext)%nat in
  if (0 <? Z.of_nat (String.length ext))
     && (Z.of_nat (String.length ext) <? Z.of_nat (String.length s))
     && String.eqb (String.substring n (String.length ext) s) ext
  then String.substring 0 n s
  else s.

Definition basename (p ext : string) : string :=
  strip_suffix ext (last_segment "" p).

(** ** The request logger (src/utils/logService.ts) *)

Record LogHandle := {
  h_originalUrl : string;
  h_requestId : string;
  h_source : string
}.

Definition is_request (requestId : string) (req : RequestLog) : bool :=
  String.eqb (rl_requestId req) requestId.

(** [$push] on [requests.$.events]: the first matching entry gets the event. *)
Fixpoint push_event (requestId : string) (ev : LogEvent)
  (requests : list RequestLog) : list RequestLog :=
  match requests with
  | [] => []
  | req :: rest =>
      if is_request requestId req
      then {| rl_requestId := rl_requestId req;
              rl_source := rl_source req;
              rl_processingConfig := rl_processingConfig req;
              rl_events := rl_events req ++ [ev] |} :: rest
      else req :: push_event requestId ev rest
  end.

Definition updateOne (originalUrl requestId : string) (ev : LogEvent)
  (st : LogStore) : LogStore :=
  match st !! originalUrl with
  | Some requests =>
      if existsb (is_request requestId) requests
      then <[originalUrl := push_event requestId ev requests]> st
      else st
  | None => st
  end.

Definition createLogger (w : World) (requestId source originalUrl : string)
  (processingConfig : option AssetConfig) : M LogHandle :=
  (* Look for an existing log document for the asset. *)
  do! lift_err (db_findOne w originalUrl) in
  let! st := get_store in
  let! requests :=
    match st !! originalUrl with
    | Some requests => ret requests
    | None =>
        do! lift_err (db_create w originalUrl) in
        do! put_store (<[originalUrl := []]> st) in
        ret []
    end in
  (* Check if this request is already recorded. *)
  do! match List.find (is_request requestId) requests with
      | Some _ => ret tt
      | None =>
          do! lift_err (db_save w originalUrl) in
          let! st1 := get_store in
          put_store
            (<[originalUrl :=
                 requests ++ [ {| rl_requestId := requestId;
                                  rl_source := source;
                                  rl_processingConfig := processingConfig;
                                  rl_events := [] |} ] ]> st1)
      end in
  ret {| h_originalUrl := originalUrl;
         h_requestId := requestId;
         h_source := source |}.

(** The curried appender.  [ALogEvent ev] records that the appender was
    handed [ev]; whether the store took it shows in the store.  The emoji and
    the terminal colours of the operational line are left out. *)
Definition logEventCurried (w : World) (h : LogHandle) (ev : LogEvent)
  : M unit :=
  do! emit (ALogEvent ev) in
  try_catch
    (let event :=
       {| ev_status := ev_status ev;
          ev_message := ev_message ev;
          ev_error := match ev_error ev with
                      | Some EmptyString => None
                      | e => e
                      end |} in
     do! lift_err (db_updateOne w (h_originalUrl h) (h_requestId h) event) in
     let! st := get_store in
     do! put_store (updateOne (h_originalUrl h) (h_requestId h) event st) in
     logger lv_info
       ("Log saved | " +:+ ev_message ev +:+ " | RequestID: " +:+ h_requestId h
        +:+ " | Source: " +:+ h_source h
        +:+ " | OriginalURL: " +:+ h_originalUrl h
        +:+ " | Status: " +:+ status_name (ev_status ev)))
    (fun err =>
       logger lv_error ("Failed to update log | RequestID: " +:+ h_requestId h)).

(** [if (options?.logEventFn) await options.logEventFn(ev)] *)
Definition log_with (logEventFn : option (LogEvent -> M unit)) (ev : LogEvent)
  : M unit :=
  match logEventFn with
  | Some f => f ev
  | None => ret tt
  end.

Definition event (st : LogStatus) (text : string) : LogEvent :=
  {| ev_status := st; ev_message := text; ev_error := None |}.

Definition event_err (st : LogStatus) (text : string) (e : Error) : LogEvent :=
  {| ev_status := st; ev_message := text; ev_error := Some (err_stack e) |}.

(** ** Type classifier and existence prober *)

Definition getAssetType (w : World) (url : string) : M AssetKind :=
  try_catch
    (do! emit (AHead url) in
     let! response := lift (fetch_head_type w url) in
     let contentType := default "" (head_content_type response) in
     if String.prefix "image/" contentType then ret image
     else if String.prefix "video/" contentType then ret video
     else if String.eqb contentType "application/pdf" then ret pdf
     else ret unknown)
    (fun e =>
       do! logger lv_console_error
             ("Error fetching asset type: " +:+ err_message e) in
       ret unknown).

Definition publicAssetExists (w : World) (url : string) : M bool :=
  try_catch
    (do! emit (AHead url) in
     let! resp := lift (fetch_head_exists w url) in
     ret (head_ok resp))
    (fun _ => ret false).

(** ** Signed-URL fetcher (src/utils/doFetcher.ts) *)

Definition downloadFile (w : World) (signedUrl : string) : M Buffer :=
  do! emit (AGet signedUrl) in
  let! response := lift (fetch_get w signedUrl) in
  if negb (get_ok response)
  then throw (new_Error "Failed to download file from signed URL")
  else ret (get_body response).

Definition uploadFile (w : World) (signedUrl : string) (body : Buffer)
  (contentType : string) : M unit :=
  do! emit (APut signedUrl body contentType) in
  let! ok := lift (fetch_put w signedUrl body contentType) in
  if negb ok
  then throw (new_Error "Failed to upload file to signed URL")
  else ret tt.

(** ** Image executor (src/utils/imageProcessor.ts) *)

Definition show_crop (c : CropParams) : string :=
  "(" +:+ show_Z (crop_x c) +:+ ", " +:+ show_Z (crop_y c) +:+ ", "
  +:+ show_Z (crop_width c) +:+ ", " +:+ show_Z (crop_height c) +:+ ")".

(** The test both executors make: the rectangle leaves the frame. *)
Definition crop_exceeds (c : CropParams) (frameWidth frameHeight : Z) : bool :=
  (crop_x c <? 0) || (crop_y c <? 0)
  || (crop_x c + crop_width c >? frameWidth)
  || (crop_y c + crop_height c >? frameHeight).

(** The warning both executors log for a rejected rectangle; [what] is
    [image] or [video]. *)
Definition crop_warning (what : string) (c : CropParams)
  (frameWidth frameHeight : Z) : string :=
  "Crop parameters " +:+ show_crop c +:+ " exceed " +:+ what
  +:+ " dimensions (" +:+ show_Z frameWidth +:+ " x " +:+ show_Z frameHeight
  +:+ "). Proceeding without cropping (using full " +:+ what +:+ ").".

Definition IMAGE_MIN_SIZE : Z := 500 * 1024.

(** The block that validates the crop rectangle (the [if (cropParams)] of
    [processImage]).  It hands the rectangle, or the full frame in its
    place, to [image.extract], which checks its argument as the call is made
    and throws for a region sharp does not take; the block yields the region
    the pipeline then carries. *)
Definition image_crop (w : World) (inputPath : string)
  (cropParams : option CropParams)
  (logEventFn : option (LogEvent -> M unit)) : M (option CropParams) :=
  match cropParams with
  | Some cropParams =>
      do! emit (ASharpMetadata inputPath) in
      let! metadata := lift (sharp_metadata w inputPath) in
      let imgWidth := default 0 (md_width metadata) in
      let imgHeight := default 0 (md_height metadata) in
      (* Check if the crop rectangle exceeds the actual dimensions. *)
      let! cropParams :=
        if crop_exceeds cropParams imgWidth imgHeight
        then
          let text := crop_warning "image" cropParams imgWidth imgHeight in
          do! logger lv_console_error text in
          do! log_with logEventFn (event warning text) in
          (* Set cropParams to full image dimensions (i.e., no cropping) *)
          ret {| crop_x := 0; crop_y := 0;
                 crop_width := imgWidth; crop_height := imgHeight |}
        else ret cropParams in
      (* Apply the (validated or overridden) cropping. *)
      do! lift_err (sharp_extract_region w cropParams) in
      ret (Some cropParams)
  | None => ret None
  end.

Definition image_quality (compress : option bool) (size : Z) : Z :=
  if truthy_bool compress && (size >? IMAGE_MIN_SIZE) then 60 else 100.

Definition image_outputPath (w : World) (inputPath : string) : string :=
  let outputFolder := path_join (cwd w) "processed" in
  let baseName := basename inputPath (extname inputPath) in
  path_join outputFolder ("processed-" +:+ baseName +:+ ".webp").

Definition processImage (w : World) (inputPath : string)
  (compress : option bool) (cropParams : option CropParams)
  (logEventFn : option (LogEvent -> M unit)) : M string :=
  (* Hard-coded output folder for processed images *)
  let outputFolder := path_join (cwd w) "processed" in
  do! emit (AMkdir outputFolder) in
  do! lift_err (fs_mkdir w outputFolder) in
  let outputPath := image_outputPath w inputPath in
  (* Validate cropping parameters if provided. *)
  let! extract := image_crop w inputPath cropParams logEventFn in
  (* Determine quality based on compression flag and file size. *)
  do! emit (AStat inputPath) in
  let! size := lift (fs_stat w inputPath) in
  let quality := image_quality compress size in
  (* Convert the image to WebP format with the determined quality. *)
  let job := {| sharp_input := inputPath;
                sharp_extract := extract;
                sharp_webp_quality := quality;
                sharp_output := outputPath |} in
  do! emit (ASharpToFile job) in
  do! lift_err (sharp_toFile w job) in
  ret outputPath.

(** ** Video executor (src/utils/videoProcessor.ts) *)

Definition nonzero (z : option Z) : option Z :=
  match z with
  | Some 0 => None
  | z => z
  end.

Definition getVideoDimensions (w : World) (inputPath : string) : M (Z * Z) :=
  do! emit (AFfprobe inputPath) in
  let! metadata := lift (ffprobe w inputPath) in
  match streams_video metadata with
  | Some videoStream =>
      match nonzero (vs_width videoStream), nonzero (vs_height videoStream) with
      | Some width, Some height => ret (width, height)
      | _, _ => throw (new_Error "Could not determine video dimensions")
      end
  | None => throw (new_Error "Could not determine video dimensions")
  end.

Definition getVideoDuration (w : World) (inputPath : string) : M Q :=
  do! emit (AFfprobe inputPath) in
  let! metadata := lift (ffprobe w inputPath) in
  match format_duration metadata with
  | Some duration => ret duration
  | None => throw (new_Error "Could not determine video duration")
  end.

Definition Qlt_bool (a b : Q) : bool := negb (Qle_bool b a).

(** The test the video executor makes on a trim window. *)
Definition trim_invalid (t : TrimParams) (videoDuration : Q) : bool :=
  Qlt_bool (trim_start t) 0
  || Qlt_bool videoDuration (trim_end t)
  || Qle_bool (trim_end t) (trim_start t).

Definition trim_warning (w : World) (t : TrimParams) (videoDuration : Q)
  : string :=
  "Trim parameters (start: " +:+ show_number w (trim_start t) +:+ ", end: "
  +:+ show_number w (trim_end t) +:+ ") are invalid. Video duration is "
  +:+ show_number w videoDuration +:+ " seconds. Proceeding without trimming.".

Definition VIDEO_MIN_SIZE : Z := 1572864.

Definition crop_filter (c : CropParams) : string :=
  "crop=" +:+ show_Z (crop_width c) +:+ ":" +:+ show_Z (crop_height c)
  +:+ ":" +:+ show_Z (crop_x c) +:+ ":" +:+ show_Z (crop_y c).

(** Validate cropping parameters against video dimensions. *)
Definition video_validCrop (w : World) (inputPath : string)
  (cropParams : option CropParams)
  (logEventFn : option (LogEvent -> M unit)) : M bool :=
  match cropParams with
  | Some cropParams =>
      try_catch
        (let! dims := getVideoDimensions w inputPath in
         let vidWidth := fst dims in
         let vidHeight := snd dims in
         if crop_exceeds cropParams vidWidth vidHeight
         then
           let text := crop_warning "video" cropParams vidWidth vidHeight in
           do! logger lv_console_error text in
           do! log_with logEventFn (event warning text) in
           ret false
         else ret true)
        (fun e =>
           do! logger lv_console_error
                 ("Error retrieving video dimensions: " +:+ err_message e) in
           do! log_with logEventFn
                 (event_err warning
                    ("Error retrieving video dimensions: " +:+ err_message e)
                    e) in
           (* In case of error, skip cropping. *)
           ret false)
  | None => ret false
  end.

(** Validate trimming parameters. *)
Definition video_validTrim (w : World) (inputPath : string)
  (trimParams : option TrimParams)
  (logEventFn : option (LogEvent -> M unit)) : M bool :=
  match trimParams with
  | Some trimParams =>
      try_catch
        (let! videoDuration := getVideoDuration w inputPath in
         if trim_invalid trimParams videoDuration
         then
           let text := trim_warning w trimParams videoDuration in
           do! logger lv_console_error text in
           do! log_with logEventFn (event warning text) in
           ret false
         else ret true)
        (fun e =>
           do! logger lv_console_error
                 ("Error retrieving video duration: " +:+ err_message e) in
           do! log_with logEventFn
                 (event_err warning
                    ("Error retrieving video duration: " +:+ err_message e)
                    e) in
           (* In case of error, skip trimming. *)
           ret false)
  | None => ret false
  end.

(** Apply trimming if valid trimming parameters are provided: the start
    time and the duration set on the command. *)
Definition video_applyTrim (trimParams : option TrimParams) (validTrim : bool)
  (logEventFn : option (LogEvent -> M unit)) : M (option Q * option Q) :=
  match trimParams with
  | Some trimParams =>
      if validTrim
      then ret (Some (trim_start trimParams),
                Some (trim_end trimParams - trim_start trimParams)%Q)
      else
        do! logger lv_console_error
              "Trimming skipped due to invalid trim parameters." in
        do! log_with logEventFn
              (event warning
                 "Trimming skipped due to invalid trim parameters.") in
        ret (None, None)
  | None => ret (None, None)
  end.

(** Apply cropping if valid cropping parameters are provided: the video
    filters set on the command. *)
Definition video_applyCrop (cropParams : option CropParams) (validCrop : bool)
  (logEventFn : option (LogEvent -> M unit)) : M (list string) :=
  match cropParams with
  | Some cropParams =>
      if validCrop
      then ret [crop_filter cropParams]
      else
        do! logger lv_console_error
              "Cropping skipped due to invalid crop parameters." in
        do! log_with logEventFn
              (event warning
                 "Cropping skipped due to invalid crop parameters.") in
        ret []
  | None => ret []
  end.

(** Check file size and conditionally apply compression: the output
    options set on the command. *)
Definition video_compression (w : World) (inputPath : string)
  (compression : option bool)
  (logEventFn : option (LogEvent -> M unit)) : M (list string) :=
  try_catch
    (do! emit (AStat inputPath) in
     let! size := lift (fs_stat w inputPath) in
     if truthy_bool compression && (size >? VIDEO_MIN_SIZE)
     then ret ["-crf 32"]
     else
       do! logger lv_console_log
             "Skipping compression due to file size threshold." in
       do! log_with logEventFn
             (event processing
                "Skipping compression due to file size threshold.") in
       ret [])
    (fun e =>
       do! logger lv_console_error
             "Error retrieving file size, proceeding without compression" in
       do! log_with logEventFn
             (event_err warning
                "Error retrieving file size, proceeding without compression"
                e) in
       ret []).

Definition video_outputPath (w : World) (inputPath : string) : string :=
  let outputFolder := path_join (cwd w) "processed" in
  let baseName := basename inputPath (extname inputPath) in
  path_join outputFolder ("compressed-" +:+ baseName +:+ ".mp4").

Definition processVideo (w : World) (inputPath : string)
  (cropParams : option CropParams) (trimParams : option TrimParams)
  (compression : option bool)
  (logEventFn : option (LogEvent -> M unit)) : M string :=
  (* Hard-coded output folder for videos. *)
  let outputFolder := path_join (cwd w) "processed" in
  do! emit (AMkdir outputFolder) in
  do! lift_err (fs_mkdir w outputFolder) in
  let outputPath := video_outputPath w inputPath in
  let! validCrop := video_validCrop w inputPath cropParams logEventFn in
  let! validTrim := video_validTrim w inputPath trimParams logEventFn in
  let! trim := video_applyTrim trimParams validTrim logEventFn in
  let! filters := video_applyCrop cropParams validCrop logEventFn in
  let! outputOptions :=
    video_compression w inputPath compression logEventFn in
  (* libx264, scaled to 640 pixels wide (maintaining aspect ratio). *)
  let command := {| ff_input := inputPath;
                    ff_videoCodec := "libx264";
                    ff_startTime := fst trim;
                    ff_duration := snd trim;
                    ff_videoFilters := filters;
                    ff_size := Some "640x?";
                    ff_outputOptions := outputOptions |} in
  do! emit (AFfmpegSave command outputPath) in
  do! lift_err (ffmpeg_save w command outputPath) in
  ret outputPath.

(** ** PDF executor (src/utils/pdfProcessor.ts) *)

Definition PDF_MIN_SIZE : Z := 50 * 1024.

Definition dquote : string := String (ascii_of_nat 34) EmptyString.

Definition gs_command (outputPath inputPath : string) : string :=
  "gs -sDEVICE=pdfwrite -dCompatibilityLevel=1.4 -dPDFSETTINGS=/screen "
  +:+ "-dNOPAUSE -dQUIET -dBATCH -sOutputFile=" +:+ dquote +:+ outputPath
  +:+ dquote +:+ " " +:+ dquote +:+ inputPath +:+ dquote.

(** The Ghostscript pass (the [try] of [processPDF]). *)
Definition pdf_compress_pass (w : World) (inputPath : string)
  (fileBuffer : Buffer)
  (logEventFn : option (LogEvent -> M unit)) : M Buffer :=
  let outputFileName := "compressed-" +:+ basename inputPath "" in
  let outputPath := path_join (tmpdir w) outputFileName in
  let command := gs_command outputPath inputPath in
  try_catch
    (do! emit (AExec command) in
     let! stderr := lift (exec_gs w command) in
     do! match stderr with
         | EmptyString => ret tt
         | _ =>
             do! logger lv_console_error
                   ("Ghostscript reported: " +:+ stderr) in
             log_with logEventFn
               (event warning ("Ghostscript reported: " +:+ stderr))
         end in
     do! emit (AReadFile outputPath) in
     let! compressedBuffer := lift (fs_readFile w outputPath) in
     do! emit (AUnlink outputPath) in
     do! lift_err (fs_unlink w outputPath) in
     ret compressedBuffer)
    (fun e =>
       do! logger lv_console_error
             ("Error during PDF compression: " +:+ err_message e) in
       do! log_with logEventFn
             (event_err warning
                ("Error during PDF compression: " +:+ err_message e) e) in
       ret fileBuffer).

Definition processPDF (w : World) (inputPath : string)
  (compress : option bool)
  (logEventFn : option (LogEvent -> M unit)) : M Buffer :=
  do! emit (AReadFile inputPath) in
  let! fileBuffer := lift (fs_readFile w inputPath) in
  if truthy_bool compress && (buffer_length fileBuffer >? PDF_MIN_SIZE)
  then
    do! logger lv_console_log "Compressing PDF using Ghostscript..." in
    do! log_with logEventFn
          (event processing "Compressing PDF using Ghostscript...") in
    pdf_compress_pass w inputPath fileBuffer logEventFn
  else
    do! logger lv_console_log "Skipping PDF compression." in
    do! log_with logEventFn (event warning "Skipping PDF compression.") in
    ret fileBuffer.

(** ** The worker (src/worker.ts; src/index.ts has the same functions) *)

Definition getContentType (assetType : AssetKind) : string :=
  match assetType with
  | image => "image/jpeg"
  | video => "video/mp4"
  | pdf => "application/pdf"
  | unknown => "application/octet-stream"
  end.

Definition kind_eqb (a b : AssetKind) : bool :=
  match a, b with
  | image, image | video, video | pdf, pdf | unknown, unknown => true
  | _, _ => false
  end.

(** [assetType === k && assetConfig.hasOwnProperty(key)]: the right operand
    is only evaluated when the left one holds, and reading a property of an
    undefined bag throws. *)
Definition kind_and_own {A : Type} (assetType k : AssetKind)
  (assetConfig : option AssetConfig)
  (key : AssetConfig -> option (option A)) : M bool :=
  if kind_eqb assetType k
  then
    match assetConfig with
    | Some c => ret (hasOwnProperty (key c))
    | None =>
        throw (TypeError
          "Cannot read properties of undefined (reading 'hasOwnProperty')")
    end
  else ret false.

Definition config_prop {A : Type} (assetConfig : option AssetConfig)
  (key : AssetConfig -> option (option A)) : option (option A) :=
  match assetConfig with
  | Some c => key c
  | None => None
  end.

Definition processAsset (w : World) (assetType : AssetKind)
  (inputPath : string) (assetConfig : option AssetConfig)
  (logEventFn : option (LogEvent -> M unit)) : M string :=
  let! isImage := kind_and_own assetType image assetConfig imageProps in
  if isImage
  then
    let imageProps := config_prop assetConfig imageProps in
    processImage w inputPath
      (opt_chain imageProps img_compress)
      (opt_chain imageProps img_cropParams)
      logEventFn
  else
    let! isVideo := kind_and_own assetType video assetConfig videoProps in
    if isVideo
    then
      let videoProps := config_prop assetConfig videoProps in
      processVideo w inputPath
        (opt_chain videoProps vid_cropParams)
        (opt_chain videoProps vid_trimParams)
        (opt_chain videoProps vid_compression)
        logEventFn
    else
      let! isPdf := kind_and_own assetType pdf assetConfig pdfProps in
      if isPdf
      then
        let pdfProps := config_prop assetConfig pdfProps in
        let! buffer :=
          processPDF w inputPath (opt_chain pdfProps pdf_compress)
            logEventFn in
        let tempDir := path_join (tmpdir w) "asset-worker" in
        let outPath :=
          path_join tempDir
            ("processed-pdf-" +:+ show_Z (date_now_pdf w) +:+ ".pdf") in
        do! emit (AWriteFile outPath buffer) in
        do! lift_err (fs_writeFile w outPath buffer) in
        ret outPath
      else
        throw (new_Error ("Unsupported asset type: " +:+ kind_name assetType)).

(** Step 5 of [processMessage]: remove one temporary file if it is there. *)
Definition cleanup_file (w : World) (p found missing : string) : M unit :=
  do! emit (AExists p) in
  if fs_existsSync w p
  then
    do! emit (AUnlink p) in
    do! lift_err (fs_unlink w p) in
    logger lv_info found
  else logger lv_warn missing.

(** The first [try] of [processMessage]: parse and check the message;
    [None] when the [catch] logged the failure and returned. *)
Definition parse_message (w : World) (msgContent : Buffer) : M (option Msg) :=
  try_catch
    (match json_parse w msgContent with
     | PSyntaxError e => throw e
     | PNull =>
         throw (TypeError "Cannot read properties of null (reading 'source')")
     | PValue msg =>
         if negb (truthy_string (msg_source msg))
            || negb (truthy_string (msg_originalUrl msg))
            || negb (truthy_string (msg_requestId msg))
         then
           throw (new_Error
             "Missing required fields: source, originalUrl, or requestId")
         else ret (Some msg)
     end)
    (fun e =>
       do! logger lv_error "Message parsing failed" in
       ret None).

(** Step 1: Download the asset. *)
Definition step1_download (w : World) (logEvent : LogEvent -> M unit)
  (originalUrl inputPath requestId : string) : M unit :=
  try_catch
    (let! fileBuffer := downloadFile w originalUrl in
     do! emit (AWriteFile inputPath fileBuffer) in
     do! lift_err (fs_writeFile w inputPath fileBuffer) in
     do! logEvent (event processing "File downloaded") in
     logger lv_info
       ("File downloaded to " +:+ inputPath +:+ " | Request ID: "
        +:+ requestId))
    (fun e =>
       do! logEvent (event failed ("Download failed: " +:+ err_message e)) in
       throw e).

(** Step 2: Process the asset. *)
Definition step2_process (w : World) (logEvent : LogEvent -> M unit)
  (assetType : AssetKind) (inputPath : string)
  (assetConfig : option AssetConfig) (requestId : string) : M string :=
  try_catch
    (let! processedPath :=
       processAsset w assetType inputPath assetConfig (Some logEvent) in
     do! logEvent
           (event processing "Processing complete, uploading to DO Spaces") in
     do! logger lv_info
           ("Processing complete | Request ID: " +:+ requestId) in
     ret processedPath)
    (fun e =>
       do! logEvent
             (event failed ("Processing failed: " +:+ err_message e)) in
       throw e).

(** Step 3: Read processed file into a Buffer. *)
Definition step3_read (w : World) (processedPath : string) : M Buffer :=
  try_catch
    (do! emit (AReadFile processedPath) in
     lift (fs_readFile w processedPath))
    (fun e =>
       do! logger lv_error "Failed to read processed file" in
       throw e).

(** Step 4: Before uploading, check if the original asset still exists
    publicly.  The block yields [true] where the code returns from
    [processMessage] inside it. *)
Definition step4_upload (w : World) (logEvent : LogEvent -> M unit)
  (assetType : AssetKind) (originalUrl overwriteUrl : string)
  (processedBuffer : Buffer) (requestId : string) : M bool :=
  try_catch
    (let! found := publicAssetExists w originalUrl in
     if negb found
     then
       do! logEvent
             (event completed
                "Original asset deleted by user. Skipping final upload.") in
       do! logger lv_info
             ("Skipping upload; asset deleted at " +:+ originalUrl) in
       ret true
     else
       let contentType := getContentType assetType in
       do! uploadFile w overwriteUrl processedBuffer contentType in
       do! logEvent (event completed "Upload successful") in
       do! logger lv_info
             ("Uploaded file to " +:+ overwriteUrl
              +:+ " | Request ID: " +:+ requestId) in
       ret false)
    (fun e =>
       do! logEvent (event failed ("Upload failed: " +:+ err_message e)) in
       throw e).

(** Step 5: Cleanup temporary files. *)
Definition step5_cleanup (w : World) (inputPath processedPath requestId : string)
  : M unit :=
  try_catch
    (do! cleanup_file w inputPath
           ("Deleted temp input file | Request ID: " +:+ requestId)
           ("Temp input file not found for cleanup | Request ID: "
            +:+ requestId) in
     cleanup_file w processedPath
       ("Deleted processed file | Request ID: " +:+ requestId)
       ("Processed file not found for cleanup | Request ID: "
        +:+ requestId))
    (fun e =>
       logger lv_error ("Error during cleanup | Request ID: " +:+ requestId)).

Definition worker_tempDir (w : World) : string :=
  path_join (tmpdir w) "asset-worker".

Definition worker_inputPath (w : World) : string :=
  path_join (worker_tempDir w) ("input-" +:+ show_Z (date_now_input w)).

(** The job proper: what [processMessage] does with a message that parsed
    and whose kind is known. *)
Definition run_job (w : World) (msg : Msg) (assetType : AssetKind) : M unit :=
  let requestId := js_string (msg_requestId msg) in
  let source := js_string (msg_source msg) in
  let originalUrl := js_string (msg_originalUrl msg) in
  let overwriteUrl := js_string (msg_overwriteUrl msg) in
  let assetConfig := msg_assetConfig msg in
  (* Create a log entry (or update existing) for this asset. *)
  let! handle := createLogger w requestId source originalUrl assetConfig in
  let logEvent := logEventCurried w handle in
  do! logEvent (event pending "Processing started") in
  do! emit (AMkdir (worker_tempDir w)) in
  do! lift_err (fs_mkdir w (worker_tempDir w)) in
  let inputPath := worker_inputPath w in
  do! step1_download w logEvent originalUrl inputPath requestId in
  let! processedPath :=
    step2_process w logEvent assetType inputPath assetConfig requestId in
  let! processedBuffer := step3_read w processedPath in
  let! returned :=
    step4_upload w logEvent assetType originalUrl overwriteUrl
      processedBuffer requestId in
  if returned
  then ret tt
  else step5_cleanup w inputPath processedPath requestId.

Definition processMessage (w : World) (msgContent : Buffer) : M unit :=
  let! parsed := parse_message w msgContent in
  match parsed with
  | None => ret tt
  | Some msg =>
      let originalUrl := js_string (msg_originalUrl msg) in
      let! assetType := getAssetType w originalUrl in
      if kind_eqb assetType unknown
      then
        logger lv_error
          ("Could not determine asset type for URL: " +:+ originalUrl)
      else run_job w msg assetType
  end.

(** [JSON.parse(msg.content.toString()).requestId] inside a template. *)
Definition parsed_requestId (w : World) (content : Buffer) : M string :=
  match json_parse w content with
  | PSyntaxError e => throw e
  | PNull =>
      throw (TypeError "Cannot read properties of null (reading 'requestId')")
  | PValue msg => ret (js_string (msg_requestId msg))
  end.

(** The callback [startWorker] hands to [channel.consume]. *)
Definition consume (w : World) (msg : option Buffer) : M unit :=
  match msg with
  | Some content =>
      try_catch
        (do! processMessage w content in
         do! emit AAck in
         let! requestId := parsed_requestId w content in
         logger lv_info ("Job acknowledged | Request ID: " +:+ requestId))
        (fun e =>
           let! requestId := parsed_requestId w content in
           do! logger lv_error
                 ("Error processing message | Request ID: " +:+ requestId) in
           emit (ANack false false))
  | None => ret tt
  end.

(** Deliveries are handled one after the other; an error that escapes the
    callback is an unhandled rejection, which the process only logs. *)
Fixpoint deliver (w : World) (deliveries : list (option Buffer)) : M unit :=
  match deliveries with
  | [] => ret tt
  | msg :: rest =>
      do! try_catch (consume w msg)
            (fun e => logger lv_error "Unhandled Rejection:") in
      deliver w rest
  end.

Definition startWorker (w : World) (deliveries : list (option Buffer))
  : M unit :=
  do! lift_err (connectRabbitMQ w) in
  do! logger lv_info "Worker is waiting for messages..." in
  deliver w deliveries.

(** ** Intake (src/controllers/assetController.ts) *)

Inductive HttpResponse :=
| Res200 (requestId : string)
| Res400
| Res500.

Definition createAssetJob (w : World) (body : Msg) : M HttpResponse :=
  try_catch
    (if negb (truthy_string (msg_source body))
        || negb (truthy_string (msg_originalUrl body))
        || negb (truthy_string (msg_overwriteUrl body))
     then
       do! logger lv_error "Missing required fields" in
       do! logger lv_console_log "{ source, originalUrl, overwriteUrl }" in
       ret Res400
     else
       let requestId := uuidv4 w in
       (* the rest of the body is spread last, over the fresh requestId *)
       let config :=
         {| msg_requestId :=
              match msg_requestId body with
              | Some r => Some r
              | None => Some requestId
              end;
            msg_source := msg_source body;
            msg_originalUrl := msg_originalUrl body;
            msg_overwriteUrl := msg_overwriteUrl body;
            msg_assetConfig := msg_assetConfig body |} in
       do! lift_err (connectRabbitMQ w) in
       do! emit (ASendToQueue (json_stringify w config)) in
       do! logger lv_info
             ("Asset job published to RabbitMQ | Request ID: " +:+ requestId)
           in
       ret (Res200 requestId))
    (fun e =>
       do! logger lv_error "Error in createAssetJob:" in
       ret Res500).

(** ** Scenarios: concrete worlds *)

Module Scenario.

Definition show_Q (q : Q) : string :=
  show_Z (Qnum q) +:+ "/" +:+ show_Z (Z.pos (Qden q)).

(** What sharp answers when [extract] is called: it takes a region whose
    [left], [top], [width] and [height] are integers that are not negative,
    and for any other throws, naming the first offending field. *)
Definition invalid_parameter (name : string) (actual : Z) : Error :=
  new_Error ("Expected integer for " +:+ name +:+ " but received "
             +:+ show_Z actual +:+ " of type number").

Definition extract_region (c : CropParams) : option Error :=
  if crop_x c <? 0 then Some (invalid_parameter "left" (crop_x c))
  else if crop_y c <? 0 then Some (invalid_parameter "top" (crop_y c))
  else if crop_width c <? 0
       then Some (invalid_parameter "width" (crop_width c))
  else if crop_height c <? 0
       then Some (invalid_parameter "height" (crop_height c))
  else None.

(** A world in which every collaborator answers; the answers that the
    scenarios vary are its parameters. *)
Definition world (parsed : ParseResult) (contentType : option string)
  (stillThere : bool) (metadata : result SharpMetadata)
  (probe : result FfprobeData) (file : Buffer) (size : Z)
  (gs : result string) (encode : option Error) (unlink : option Error)
  : World :=
  {| json_parse := fun _ => parsed;
     json_stringify := fun _ => [];
     uuidv4 := "1b9d6bcd-bbfd-4b2d-9b5d-ab8dfbbd4bed";
     show_number := show_Q;
     cwd := "/app";
     tmpdir := "/tmp";
     date_now_input := 1700000000000;
     date_now_pdf := 1700000000500;
     fetch_head_type := fun _ =>
       Ok {| head_ok := true; head_content_type := contentType |};
     fetch_head_exists := fun _ =>
       Ok {| head_ok := stillThere; head_content_type := contentType |};
     fetch_get := fun _ => Ok {| get_ok := true; get_body := file |};
     fetch_put := fun _ _ _ => Ok true;
     fs_mkdir := fun _ => None;
     fs_writeFile := fun _ _ => None;
     fs_readFile := fun _ => Ok file;
     fs_stat := fun _ => Ok size;
     fs_existsSync := fun _ => true;
     fs_unlink := fun _ => unlink;
     sharp_metadata := fun _ => metadata;
     sharp_extract_region := extract_region;
     sharp_toFile := fun _ => encode;
     ffprobe := fun _ => probe;
     ffmpeg_save := fun _ _ => encode;
     exec_gs := fun _ => gs;
     db_findOne := fun _ => None;
     db_create := fun _ => None;
     db_save := fun _ => None;
     db_updateOne := fun _ _ _ => None;
     connectRabbitMQ := None |}.

Definition bytes : Buffer := [x25; x50; x44; x46].

Definition metadata_800x600 : result SharpMetadata :=
  Ok {| md_width := Some 800; md_height := Some 600 |}.

Definition probe_30s : result FfprobeData :=
  Ok {| streams_video := Some {| vs_width := Some 1280;
                                 vs_height := Some 720 |};
        format_duration := Some 30%Q |}.

(** Scenario 1 of the specification: the intake body carries nothing but
    the three required fields. *)
Definition body1 : Msg :=
  {| msg_requestId := None;
     msg_source := Some "cms";
     msg_originalUrl := Some "https://x/a.jpg";
     msg_overwriteUrl := Some "https://x/a-out.jpg";
     msg_assetConfig := None |}.

Definition queued (body : Msg) : Msg :=
  {| msg_requestId := Some "1b9d6bcd-bbfd-4b2d-9b5d-ab8dfbbd4bed";
     msg_source := msg_source body;
     msg_originalUrl := msg_originalUrl body;
     msg_overwriteUrl := msg_overwriteUrl body;
     msg_assetConfig := msg_assetConfig body |}.

Definition with_config (c : AssetConfig) : Msg :=
  {| msg_requestId := None;
     msg_source := Some "cms";
     msg_originalUrl := Some "https://x/a.jpg";
     msg_overwriteUrl := Some "https://x/a-out.jpg";
     msg_assetConfig := Some c |}.

Definition image_config (p : ImageProps) : AssetConfig :=
  {| imageProps := Some (Some p); videoProps := None; pdfProps := None |}.

Definition video_config (p : VideoProps) : AssetConfig :=
  {| imageProps := None; videoProps := Some (Some p); pdfProps := None |}.

Definition pdf_config (p : PdfProps) : AssetConfig :=
  {| imageProps := None; videoProps := None; pdfProps := Some (Some p) |}.

(** The image world: the asset is a JPEG of 800 x 600 and of [size] bytes,
    and the message on the queue is [m]. *)
Definition image_world (m : Msg) (stillThere : bool) (size : Z) : World :=
  world (PValue m) (Some "image/jpeg") stillThere metadata_800x600
    probe_30s bytes size (Ok "") None None.

Definition video_world (m : Msg) (probe : result FfprobeData) (size : Z)
  : World :=
  world (PValue m) (Some "video/mp4") true metadata_800x600
    probe bytes size (Ok "") None None.

End Scenario.

(** * Observations *)

(** ** Footprints and views of a run *)

(** What a computation may emit, on every path. *)
Definition emits {A : Type} (P : Action -> Prop) (m : M A) : Prop :=
  forall s, Forall P (acts (m s)).

(** A view keeps of every action what a property is about. *)
Definition seen {V : Type} (view : Action -> list V) (t : list Action)
  : list V := flat_map view t.

(** [always view m Q]: on every store, [Q] holds of the result of [m] and of
    the view of what it emitted. *)
Definition always {V A : Type} (view : Action -> list V) (m : M A)
  (Q : result A -> list V -> Prop) : Prop :=
  forall s, Q (res (m s)) (seen view (acts (m s))).

Definition view_jobs (a : Action) : list SharpJob :=
  match a with ASharpToFile j => [j] | _ => [] end.

Definition view_commands (a : Action) : list FfmpegCommand :=
  match a with AFfmpegSave c _ => [c] | _ => [] end.

Definition view_execs (a : Action) : list string :=
  match a with AExec c => [c] | _ => [] end.

Definition view_events (a : Action) : list LogEvent :=
  match a with ALogEvent ev => [ev] | _ => [] end.

Definition view_puts (a : Action) : list (string * Buffer * string) :=
  match a with APut u b ct => [(u, b, ct)] | _ => [] end.

Definition view_acks (a : Action) : list Action :=
  match a with AAck | ANack _ _ => [a] | _ => [] end.

Definition view_cleanup (a : Action) : list string :=
  match a with AExists p => [p] | _ => [] end.

(** Everything but the operational log lines. *)
Definition view_outward (a : Action) : list Action :=
  match a with ALogger _ _ => [] | _ => [a] end.

Definition sharp_jobs (t : list Action) : list SharpJob := seen view_jobs t.
Definition ffmpeg_commands (t : list Action) : list FfmpegCommand :=
  seen view_commands t.
Definition gs_runs (t : list Action) : list string := seen view_execs t.
Definition log_events (t : list Action) : list LogEvent := seen view_events t.
Definition uploads (t : list Action) : list (string * Buffer * string) :=
  seen view_puts t.
Definition acknowledgements (t : list Action) : list Action :=
  seen view_acks t.
Definition cleanup_probes (t : list Action) : list string :=
  seen view_cleanup t.
Definition outward (t : list Action) : list Action := seen view_outward t.


(** ** What the probes of the video executor say *)

Definition probed_dimensions (w : World) (p : string) : result (Z * Z) :=
  res (getVideoDimensions w p ∅).

Definition probed_duration (w : World) (p : string) : result Q :=
  res (getVideoDuration w p ∅).

(** The contract of the encoder for the two options the executor sets: a
    duration option bounds the output, a start time alone cuts the head off,
    and without either the output lasts as long as the input. *)
Definition encoded_duration (c : FfmpegCommand) (original : Q) : Q :=
  match ff_duration c, ff_startTime c with
  | Some d, _ => d
  | None, Some st => (original - st)%Q
  | None, None => original
  end.

(** ** What the encoders answer *)

(** The rectangle the image executor substitutes for a rejected one. *)
Definition full_frame (md : SharpMetadata) : CropParams :=
  {| crop_x := 0; crop_y := 0;
     crop_width := default 0 (md_width md);
     crop_height := default 0 (md_height md) |}.

(** The result of [processImage] once sharp has run job [j]. *)
Definition encoded_image (w : World) (j : SharpJob) : result string :=
  match sharp_toFile w j with
  | None => Ok (sharp_output j)
  | Some e => Throw e
  end.

(** The rectangle the image executor hands to [image.extract] for a
    requested rectangle [c]: [c] itself, or the full frame when [c] leaves
    the frame. *)
Definition image_region (c : CropParams) (md : SharpMetadata) : CropParams :=
  if crop_exceeds c (default 0 (md_width md)) (default 0 (md_height md))
  then full_frame md
  else c.

(** The image executor reached the encoder with the rectangle [extract], or
    stopped at the size probe: [r] is its result, [jobs] the sharp jobs seen. *)
Definition image_reaches_encoder (w : World) (inputPath : string)
  (compress : option bool) (r : result string) (jobs : list SharpJob)
  (extract : option CropParams) : Prop :=
  match fs_stat w inputPath with
  | Ok size =>
      exists j, jobs = [j] /\ r = encoded_image w j /\
        sharp_extract j = extract /\
        sharp_webp_quality j = image_quality compress size /\
        sharp_output j = image_outputPath w inputPath
  | Throw e => r = Throw e /\ jobs = []
  end.

(** The image executor after the crop block has settled on [region]: sharp
    refuses the region and the executor stops there, or it goes on to the
    size probe and the encoder. *)
Definition image_extracts (w : World) (inputPath : string)
  (compress : option bool) (r : result string) (jobs : list SharpJob)
  (region : CropParams) : Prop :=
  match sharp_extract_region w region with
  | Some e => r = Throw e /\ jobs = []
  | None => image_reaches_encoder w inputPath compress r jobs (Some region)
  end.



(** The result of [processVideo] once ffmpeg has run command [c]. *)
Definition encoded_video (w : World) (inputPath : string) (c : FfmpegCommand)
  : result string :=
  match ffmpeg_save w c (video_outputPath w inputPath) with
  | None => Ok (video_outputPath w inputPath)
  | Some e => Throw e
  end.

(** Where Ghostscript is told to write. *)
Definition gs_outputPath (w : World) (inputPath : string) : string :=
  path_join (tmpdir w) ("compressed-" +:+ basename inputPath "").

(** ** What the worker is told *)

Definition view_queue (a : Action) : list Buffer :=
  match a with ASendToQueue b => [b] | _ => [] end.

Definition published (t : list Action) : list Buffer := seen view_queue t.

(** The kind the classifier finds for a URL. *)
Definition classification (w : World) (url : string) : result AssetKind :=
  res (getAssetType w url ∅).

(** The store, the file system and the image encoder do not fail. *)
Definition healthy (w : World) : Prop :=
  (forall u, db_findOne w u = None) /\
  (forall u, db_create w u = None) /\
  (forall u, db_save w u = None) /\
  (forall p, fs_mkdir w p = None) /\
  (forall p b, fs_writeFile w p b = None) /\
  (forall p, exists size, fs_stat w p = Ok size) /\
  (forall p, exists b, fs_readFile w p = Ok b) /\
  (forall j, sharp_toFile w j = None).

(** What matters to where an upload comes from: the encoder jobs, the
    uploads and the events that close a job. *)
Definition view_transfer (a : Action) : list Action :=
  match a with
  | APut _ _ _ | ASharpToFile _ => [a]
  | ALogEvent ev =>
      match ev_status ev with
      | completed => [a]
      | _ => []
      end
  | _ => []
  end.

(** ** The log store *)

(** The request entries of the document of [originalUrl] that carry
    [requestId]. *)
Definition entries_of (st : LogStore) (originalUrl requestId : string)
  : list RequestLog :=
  List.filter (is_request requestId) (default [] (st !! originalUrl)).

(** No document holds two request entries with the same identifier. *)
Definition unique_requests (st : LogStore) : Prop :=
  forall originalUrl requests,
    st !! originalUrl = Some requests ->
    NoDup (map rl_requestId requests).

(** ** More views of a run *)

(** The probes of the two encoders: sharp's metadata and ffprobe. *)
Definition view_probes (a : Action) : list Action :=
  match a with ASharpMetadata _ | AFfprobe _ => [a] | _ => [] end.

Definition view_unlinks (a : Action) : list string :=
  match a with AUnlink p => [p] | _ => [] end.

Definition view_writes (a : Action) : list string :=
  match a with AWriteFile p _ => [p] | _ => [] end.

(** What reaches the network. *)
Definition view_network (a : Action) : list Action :=
  match a with AHead _ | AGet _ | APut _ _ _ => [a] | _ => [] end.

Definition probes (t : list Action) : list Action := seen view_probes t.
Definition unlinks (t : list Action) : list string := seen view_unlinks t.
Definition network (t : list Action) : list Action := seen view_network t.

(** ** The audit trail of a job *)

Definition is_intermediate (ev : LogEvent) : bool :=
  match ev_status ev with
  | processing | warning => true
  | _ => false
  end.

Definition is_closing (ev : LogEvent) : bool :=
  match ev_status ev with
  | completed | failed => true
  | _ => false
  end.

(** The shape of the events of one job: nothing at all, or [Processing
    started], then progress and warnings, then at most one closing event. *)
Definition trail (events : list LogEvent) (closing : option LogEvent) : Prop :=
  match events with
  | [] => closing = None
  | first :: rest =>
      first = event pending "Processing started" /\
      exists body,
        forallb is_intermediate body = true /\
        match closing with
        | Some ev => rest = body ++ [ev] /\ is_closing ev = true
        | None => rest = body
        end
  end.

(** ** How a run may change the log store *)

(** The event as the appender stores it: [error || null]. *)
Definition stored_event (ev : LogEvent) : LogEvent :=
  {| ev_status := ev_status ev;
     ev_message := ev_message ev;
     ev_error := match ev_error ev with
                 | Some EmptyString => None
                 | e => e
                 end |}.

Definition with_event (req : RequestLog) (ev : LogEvent) : RequestLog :=
  {| rl_requestId := rl_requestId req;
     rl_source := rl_source req;
     rl_processingConfig := rl_processingConfig req;
     rl_events := rl_events req ++ [ev] |}.

(** An entry grows: the same request, with more events at the end. *)
Definition entry_extends (req req' : RequestLog) : Prop :=
  rl_requestId req' = rl_requestId req /\
  rl_source req' = rl_source req /\
  rl_processingConfig req' = rl_processingConfig req /\
  exists more, rl_events req' = rl_events req ++ more.

(** A document grows: its entries grow in place, new ones come last. *)
Definition document_extends (d d' : list RequestLog) : Prop :=
  exists kept added, d' = kept ++ added /\ Forall2 entry_extends d kept.

Definition store_extends (s s' : LogStore) : Prop :=
  forall originalUrl d,
    s !! originalUrl = Some d ->
    exists d', s' !! originalUrl = Some d' /\ document_extends d d'.

(** The entries of a document that belong to other requests. *)
Definition others (requestId : string) (d : list RequestLog)
  : list RequestLog :=
  List.filter (fun req => negb (is_request requestId req)) d.

(** Nothing changed but the entries of one request of one asset. *)
Definition only_touches (originalUrl requestId : string) (s s' : LogStore)
  : Prop :=
  (forall u, u <> originalUrl -> s' !! u = s !! u) /\
  others requestId (default [] (s' !! originalUrl)) =
  others requestId (default [] (s !! originalUrl)).

(** The invariant as a relation between two stores. *)
Definition keeps_unique (s s' : LogStore) : Prop :=
  unique_requests s -> unique_requests s'.

(** [changes R m]: every run of [m] takes a store to one related by [R]. *)
Definition changes {A : Type} (R : LogStore -> LogStore -> Prop) (m : M A)
  : Prop :=
  forall s, R s (store_of (m s)).

(** ** How a job settles *)

(** What settles a job: the upload, the events that close it, and the
    probes of the cleanup. *)
Definition view_settle (a : Action) : list Action :=
  match a with
  | APut _ _ _ | AExists _ => [a]
  | ALogEvent ev => if is_closing ev then [a] else []
  | _ => []
  end.

Definition settlement (t : list Action) : list Action := seen view_settle t.

(** What [downloadFile] makes of a signed URL. *)
Definition downloaded (w : World) (signedUrl : string) : result Buffer :=
  res (downloadFile w signedUrl ∅).

(** What [uploadFile] makes of an upload. *)
Definition uploaded (w : World) (signedUrl : string) (body : Buffer)
  (contentType : string) : result unit :=
  res (uploadFile w signedUrl body contentType ∅).

(** The ways a job can settle, as its result and its settlement: it stops
    before anything is decided; the download or the processing fails; the
    asset is gone when the upload is due; the upload fails; the upload goes
    through and the cleanup starts. *)
Inductive Settled (w : World) (msg : Msg) (kind : AssetKind)
  : result unit -> list Action -> Prop :=
| settled_early e :
    Settled w msg kind (Throw e) []
| settled_failed stage e :
    stage = "Download failed: " \/ stage = "Processing failed: " ->
    Settled w msg kind (Throw e)
      [ALogEvent (event failed (stage +:+ err_message e))]
| settled_skipped :
    Settled w msg kind (Ok tt)
      [ALogEvent
         (event completed
            "Original asset deleted by user. Skipping final upload.")]
| settled_upload_failed buffer e :
    uploaded w (js_string (msg_overwriteUrl msg)) buffer (getContentType kind)
      = Throw e ->
    Settled w msg kind (Throw e)
      [APut (js_string (msg_overwriteUrl msg)) buffer (getContentType kind);
       ALogEvent (event failed ("Upload failed: " +:+ err_message e))]
| settled_uploaded buffer processedPath cleanup :
    uploaded w (js_string (msg_overwriteUrl msg)) buffer (getContentType kind)
      = Ok tt ->
    cleanup = [AExists (worker_inputPath w)] \/
    cleanup = [AExists (worker_inputPath w); AExists processedPath] ->
    Settled w msg kind (Ok tt)
      (APut (js_string (msg_overwriteUrl msg)) buffer (getContentType kind)
       :: ALogEvent (event completed "Upload successful") :: cleanup).

(** What a message comes to: it is dropped before a job starts, or its job
    settles. *)
Inductive Handled (w : World) : result unit -> list Action -> Prop :=
| handled_dropped : Handled w (Ok tt) []
| handled_job msg kind r t : Settled w msg kind r t -> Handled w r t.

(** The events of a job and the reads of the file system. *)
Definition view_read_back (a : Action) : list Action :=
  match a with
  | ALogEvent _ | AReadFile _ => [a]
  | _ => []
  end.

(** Where an upload of a video or of a PDF comes from: the encoder runs,
    the files written and the uploads. *)
Definition view_origin (a : Action) : list Action :=
  match a with
  | APut _ _ _ | AFfmpegSave _ _ | AWriteFile _ _ => [a]
  | _ => []
  end.

(** Where the worker writes the processed PDF. *)
Definition pdf_outputPath (w : World) : string :=
  path_join (worker_tempDir w)
    ("processed-pdf-" +:+ show_Z (date_now_pdf w) +:+ ".pdf").

(** The settlement of a job, and the existence checks before it. *)
Definition view_checked (a : Action) : list Action :=
  match a with
  | AHead _ => [a]
  | _ => view_settle a
  end.

(** Two computations that answer alike and look alike from the outside,
    on whatever stores they run. *)
Definition same_outside {A : Type} (m1 m2 : M A) : Prop :=
  forall s1 s2,
    res (m1 s1) = res (m2 s2) /\
    outward (acts (m1 s1)) = outward (acts (m2 s2)).

(** An event that does not close the job. *)
Definition quiet_progress (a : Action) : Prop :=
  exists ev, a = ALogEvent ev /\ is_closing ev = false.

(** ** Deliveries *)

(** The deliveries that carry a message. *)
Definition messages (deliveries : list (option Buffer)) : list Buffer :=
  omap id deliveries.

(** ** Characters of a path *)

Fixpoint has_char (c : ascii) (s : string) : bool :=
  match s with
  | EmptyString => false
  | String x r => Ascii.eqb x c || has_char c r
  end.

(** ** Worlds in which one collaborator answers otherwise *)

Module Faults.

Definition with_fetch_get (answer : string -> result GetResponse)
  (w : World) : World :=
  {| json_parse := json_parse w;
     json_stringify := json_stringify w;
     uuidv4 := uuidv4 w;
     show_number := show_number w;
     cwd := cwd w;
     tmpdir := tmpdir w;
     date_now_input := date_now_input w;
     date_now_pdf := date_now_pdf w;
     fetch_head_type := fetch_head_type w;
     fetch_head_exists := fetch_head_exists w;
     fetch_get := answer;
     fetch_put := fetch_put w;
     fs_mkdir := fs_mkdir w;
     fs_writeFile := fs_writeFile w;
     fs_readFile := fs_readFile w;
     fs_stat := fs_stat w;
     fs_existsSync := fs_existsSync w;
     fs_unlink := fs_unlink w;
     sharp_metadata := sharp_metadata w;
     sharp_extract_region := sharp_extract_region w;
     sharp_toFile := sharp_toFile w;
     ffprobe := ffprobe w;
     ffmpeg_save := ffmpeg_save w;
     exec_gs := exec_gs w;
     db_findOne := db_findOne w;
     db_create := db_create w;
     db_save := db_save w;
     db_updateOne := db_updateOne w;
     connectRabbitMQ := connectRabbitMQ w |}.

Definition with_fetch_put (answer : string -> Buffer -> string -> result bool)
  (w : World) : World :=
  {| json_parse := json_parse w;
     json_stringify := json_stringify w;
     uuidv4 := uuidv4 w;
     show_number := show_number w;
     cwd := cwd w;
     tmpdir := tmpdir w;
     date_now_input := date_now_input w;
     date_now_pdf := date_now_pdf w;
     fetch_head_type := fetch_head_type w;
     fetch_head_exists := fetch_head_exists w;
     fetch_get := fetch_get w;
     fetch_put := answer;
     fs_mkdir := fs_mkdir w;
     fs_writeFile := fs_writeFile w;
     fs_readFile := fs_readFile w;
     fs_stat := fs_stat w;
     fs_existsSync := fs_existsSync w;
     fs_unlink := fs_unlink w;
     sharp_metadata := sharp_metadata w;
     sharp_extract_region := sharp_extract_region w;
     sharp_toFile := sharp_toFile w;
     ffprobe := ffprobe w;
     ffmpeg_save := ffmpeg_save w;
     exec_gs := exec_gs w;
     db_findOne := db_findOne w;
     db_create := db_create w;
     db_save := db_save w;
     db_updateOne := db_updateOne w;
     connectRabbitMQ := connectRabbitMQ w |}.

Definition with_fs_readFile (answer : string -> result Buffer)
  (w : World) : World :=
  {| json_parse := json_parse w;
     json_stringify := json_stringify w;
     uuidv4 := uuidv4 w;
     show_number := show_number w;
     cwd := cwd w;
     tmpdir := tmpdir w;
     date_now_input := date_now_input w;
     date_now_pdf := date_now_pdf w;
     fetch_head_type := fetch_head_type w;
     fetch_head_exists := fetch_head_exists w;
     fetch_get := fetch_get w;
     fetch_put := fetch_put w;
     fs_mkdir := fs_mkdir w;
     fs_writeFile := fs_writeFile w;
     fs_readFile := answer;
     fs_stat := fs_stat w;
     fs_existsSync := fs_existsSync w;
     fs_unlink := fs_unlink w;
     sharp_metadata := sharp_metadata w;
     sharp_extract_region := sharp_extract_region w;
     sharp_toFile := sharp_toFile w;
     ffprobe := ffprobe w;
     ffmpeg_save := ffmpeg_save w;
     exec_gs := exec_gs w;
     db_findOne := db_findOne w;
     db_create := db_create w;
     db_save := db_save w;
     db_updateOne := db_updateOne w;
     connectRabbitMQ := connectRabbitMQ w |}.

Definition with_fs_stat (answer : string -> result Z)
  (w : World) : World :=
  {| json_parse := json_parse w;
     json_stringify := json_stringify w;
     uuidv4 := uuidv4 w;
     show_number := show_number w;
     cwd := cwd w;
     tmpdir := tmpdir w;
     date_now_input := date_now_input w;
     date_now_pdf := date_now_pdf w;
     fetch_head_type := fetch_head_type w;
     fetch_head_exists := fetch_head_exists w;
     fetch_get := fetch_get w;
     fetch_put := fetch_put w;
     fs_mkdir := fs_mkdir w;
     fs_writeFile := fs_writeFile w;
     fs_readFile := fs_readFile w;
     fs_stat := answer;
     fs_existsSync := fs_existsSync w;
     fs_unlink := fs_unlink w;
     sharp_metadata := sharp_metadata w;
     sharp_extract_region := sharp_extract_region w;
     sharp_toFile := sharp_toFile w;
     ffprobe := ffprobe w;
     ffmpeg_save := ffmpeg_save w;
     exec_gs := exec_gs w;
     db_findOne := db_findOne w;
     db_create := db_create w;
     db_save := db_save w;
     db_updateOne := db_updateOne w;
     connectRabbitMQ := connectRabbitMQ w |}.

Definition with_db_findOne (answer : string -> option Error)
  (w : World) : World :=
  {| json_parse := json_parse w;
     json_stringify := json_stringify w;
     uuidv4 := uuidv4 w;
     show_number := show_number w;
     cwd := cwd w;
     tmpdir := tmpdir w;
     date_now_input := date_now_input w;
     date_now_pdf := date_now_pdf w;
     fetch_head_type := fetch_head_type w;
     fetch_head_exists := fetch_head_exists w;
     fetch_get := fetch_get w;
     fetch_put := fetch_put w;
     fs_mkdir := fs_mkdir w;
     fs_writeFile := fs_writeFile w;
     fs_readFile := fs_readFile w;
     fs_stat := fs_stat w;
     fs_existsSync := fs_existsSync w;
     fs_unlink := fs_unlink w;
     sharp_metadata := sharp_metadata w;
     sharp_extract_region := sharp_extract_region w;
     sharp_toFile := sharp_toFile w;
     ffprobe := ffprobe w;
     ffmpeg_save := ffmpeg_save w;
     exec_gs := exec_gs w;
     db_findOne := answer;
     db_create := db_create w;
     db_save := db_save w;
     db_updateOne := db_updateOne w;
     connectRabbitMQ := connectRabbitMQ w |}.

Definition with_db_updateOne (answer : string -> string -> LogEvent -> option Error)
  (w : World) : World :=
  {| json_parse := json_parse w;
     json_stringify := json_stringify w;
     uuidv4 := uuidv4 w;
     show_number := show_number w;
     cwd := cwd w;
     tmpdir := tmpdir w;
     date_now_input := date_now_input w;
     date_now_pdf := date_now_pdf w;
     fetch_head_type := fetch_head_type w;
     fetch_head_exists := fetch_head_exists w;
     fetch_get := fetch_get w;
     fetch_put := fetch_put w;
     fs_mkdir := fs_mkdir w;
     fs_writeFile := fs_writeFile w;
     fs_readFile := fs_readFile w;
     fs_stat := fs_stat w;
     fs_existsSync := fs_existsSync w;
     fs_unlink := fs_unlink w;
     sharp_metadata := sharp_metadata w;
     sharp_extract_region := sharp_extract_region w;
     sharp_toFile := sharp_toFile w;
     ffprobe := ffprobe w;
     ffmpeg_save := ffmpeg_save w;
     exec_gs := exec_gs w;
     db_findOne := db_findOne w;
     db_create := db_create w;
     db_save := db_save w;
     db_updateOne := answer;
     connectRabbitMQ := connectRabbitMQ w |}.

Definition with_connectRabbitMQ (answer : option Error)
  (w : World) : World :=
  {| json_parse := json_parse w;
     json_stringify := json_stringify w;
     uuidv4 := uuidv4 w;
     show_number := show_number w;
     cwd := cwd w;
     tmpdir := tmpdir w;
     date_now_input := date_now_input w;
     date_now_pdf := date_now_pdf w;
     fetch_head_type := fetch_head_type w;
     fetch_head_exists := fetch_head_exists w;
     fetch_get := fetch_get w;
     fetch_put := fetch_put w;
     fs_mkdir := fs_mkdir w;
     fs_writeFile := fs_writeFile w;
     fs_readFile := fs_readFile w;
     fs_stat := fs_stat w;
     fs_existsSync := fs_existsSync w;
     fs_unlink := fs_unlink w;
     sharp_metadata := sharp_metadata w;
     sharp_extract_region := sharp_extract_region w;
     sharp_toFile := sharp_toFile w;
     ffprobe := ffprobe w;
     ffmpeg_save := ffmpeg_save w;
     exec_gs := exec_gs w;
     db_findOne := db_findOne w;
     db_create := db_create w;
     db_save := db_save w;
     db_updateOne := db_updateOne w;
     connectRabbitMQ := answer |}.

End Faults.

(** ** The broker connection (src/config/queue.ts) *)

Module Queue.

Definition RABBIT_URL : string := "amqp://localhost".
Definition PROCESSING_QUEUE : string := "asset_processing_queue".

(** Connections and channels are told apart by a number. *)
Definition Connection := nat.
Definition Channel := nat.

(** What amqplib answers. *)
Record Broker := {
  amqp_connect : string -> result Connection;
  createChannel : Connection -> result Channel;
  assertQueue : Channel -> string -> bool -> option Error
}.

(** The two variables of the module. *)
Record State := {
  connection : option Connection;
  channel : option Channel
}.

Definition initial : State := {| connection := None; channel := None |}.

Inductive Call :=
| Connect (url : string)
| CreateChannel (conn : Connection)
| AssertQueue (ch : Channel) (queue : string) (durable : bool)
| ConsoleLog (text : string).

Definition connectRabbitMQ (b : Broker) (st : State)
  : result Channel * State * list Call :=
  match channel st with
  | Some ch => (Ok ch, st, [])
  | None =>
      match amqp_connect b RABBIT_URL with
      | Throw e => (Throw e, st, [Connect RABBIT_URL])
      | Ok conn =>
          let st1 := {| connection := Some conn; channel := channel st |} in
          match createChannel b conn with
          | Throw e => (Throw e, st1, [Connect RABBIT_URL; CreateChannel conn])
          | Ok ch =>
              let st2 := {| connection := Some conn; channel := Some ch |} in
              let calls := [Connect RABBIT_URL; CreateChannel conn;
                            AssertQueue ch PROCESSING_QUEUE true] in
              match assertQueue b ch PROCESSING_QUEUE true with
              | Some e => (Throw e, st2, calls)
              | None =>
                  (Ok ch, st2,
                   calls ++ [ConsoleLog
                     "Asset Server: connected to RabbitMQ at amqp://localhost"])
              end
          end
      end
  end.

(** Calls one after the other, each against what the broker answers then. *)
Fixpoint connect_each (bs : list Broker) (st : State)
  : list (result Channel) * State * list Call :=
  match bs with
  | [] => ([], st, [])
  | b :: rest =>
      match connectRabbitMQ b st with
      | (r, st1, t1) =>
          match connect_each rest st1 with
          | (rs, st2, t2) => (r :: rs, st2, t1 ++ t2)
          end
      end
  end.

End Queue.

(** * Reasoning about runs *)

Section Emits.
Context {A B : Type} (P : Action -> Prop).

Lemma emits_ret (a : A) : emits P (ret a).
Proof. intros s. constructor. Qed.

Lemma emits_throw (e : Error) : emits P (@throw A e).
Proof. intros s. constructor. Qed.

Lemma emits_emit (a : Action) : P a -> emits P (emit a).
Proof. intros H s. repeat constructor. exact H. Qed.

Lemma emits_lift (r : result A) : emits P (lift r).
Proof. intros s. destruct r; constructor. Qed.

Lemma emits_lift_err (o : option Error) : emits P (lift_err o).
Proof. intros s. destruct o; constructor. Qed.

Lemma emits_get_store : emits P get_store.
Proof. intros s. constructor. Qed.

Lemma emits_put_store (s' : LogStore) : emits P (put_store s').
Proof. intros s. constructor. Qed.

Lemma emits_bind (m : M A) (f : A -> M B) :
  emits P m -> (forall a, emits P (f a)) -> emits P (bind m f).
Proof.
  intros Hm Hf s. unfold acts, bind. specialize (Hm s). unfold acts in Hm.
  destruct (m s) as [[[a | e] s1] t1]; simpl in *; [| exact Hm].
  specialize (Hf a s1). unfold acts in Hf.
  destruct (f a s1) as [[r s2] t2]; simpl in *.
  apply Forall_app; split; assumption.
Qed.

Lemma emits_try_catch (m : M A) (h : Error -> M A) :
  emits P m -> (forall e, emits P (h e)) -> emits P (try_catch m h).
Proof.
  intros Hm Hh s. unfold acts, try_catch. specialize (Hm s).
  unfold acts in Hm.
  destruct (m s) as [[[a | e] s1] t1]; simpl in *; [exact Hm |].
  specialize (Hh e s1). unfold acts in Hh.
  destruct (h e s1) as [[r s2] t2]; simpl in *.
  apply Forall_app; split; assumption.
Qed.

Lemma emits_mono (P' : Action -> Prop) (m : M A) :
  emits P' m -> (forall a, P' a -> P a) -> emits P m.
Proof.
  intros Hm Himp s. specialize (Hm s).
  induction Hm; constructor; auto.
Qed.
End Emits.

Lemma emits_logger (P : Action -> Prop) lv text :
  P (ALogger lv text) -> emits P (logger lv text).
Proof. apply emits_emit. Qed.

(** One structural step of a footprint proof. *)
Ltac emits_step :=
  lazymatch goal with
  | |- emits _ (bind _ _) => apply emits_bind; [| intros ?]
  | |- emits _ (try_catch _ _) => apply emits_try_catch; [| intros ?]
  | |- emits _ (ret _) => apply emits_ret
  | |- emits _ (throw _) => apply emits_throw
  | |- emits _ (lift _) => apply emits_lift
  | |- emits _ (lift_err _) => apply emits_lift_err
  | |- emits _ get_store => apply emits_get_store
  | |- emits _ (put_store _) => apply emits_put_store
  | |- emits _ (emit _) => apply emits_emit; simpl; auto
  | |- emits _ (logger _ _) => apply emits_logger; simpl; auto
  | |- emits _ (match ?x with _ => _ end) => destruct x
  | |- emits _ (if ?x then _ else _) => destruct x
  end.

Ltac emits_auto := repeat (first [assumption | emits_step]).

(** ** Path-sensitive reasoning, through a view of the trace

    A view keeps of every action what a property is about; [always view m Q]
    says that on every store, [Q] holds of the result of [m] and of the
    view of what it emitted. *)

Section Always.
Context {V : Type} (view : Action -> list V).

Local Abbreviation seen := (seen view).
Local Abbreviation always := (always view).

Lemma seen_app (t1 t2 : list Action) : seen (t1 ++ t2) = seen t1 ++ seen t2.
Proof. apply flat_map_app. Qed.

Lemma always_ret {A} (a : A) (Q : result A -> list V -> Prop) :
  Q (Ok a) [] -> always (ret a) Q.
Proof. intros H s. exact H. Qed.

Lemma always_throw {A} (e : Error) (Q : result A -> list V -> Prop) :
  Q (Throw e) [] -> always (throw e) Q.
Proof. intros H s. exact H. Qed.

Lemma always_emit (a : Action) (Q : result unit -> list V -> Prop) :
  Q (Ok tt) (view a) -> always (emit a) Q.
Proof.
  intros H s. unfold emit, res, acts, seen. simpl. rewrite app_nil_r.
  exact H.
Qed.

Lemma always_lift {A} (r : result A) (Q : result A -> list V -> Prop) :
  Q r [] -> always (lift r) Q.
Proof. intros H s. destruct r; exact H. Qed.

Lemma always_lift_err (o : option Error)
  (Q : result unit -> list V -> Prop) :
  match o with None => Q (Ok tt) [] | Some e => Q (Throw e) [] end ->
  always (lift_err o) Q.
Proof. intros H s. destruct o; exact H. Qed.

Lemma always_get_store (Q : result LogStore -> list V -> Prop) :
  (forall s, Q (Ok s) []) -> always get_store Q.
Proof. intros H s. apply H. Qed.

Lemma always_put_store (s' : LogStore) (Q : result unit -> list V -> Prop) :
  Q (Ok tt) [] -> always (put_store s') Q.
Proof. intros H s. exact H. Qed.

Lemma always_bind {A B} (m : M A) (f : A -> M B)
  (Q : result B -> list V -> Prop) :
  always m (fun r t1 =>
    match r with
    | Ok a => always (f a) (fun r2 t2 => Q r2 (t1 ++ t2))
    | Throw e => Q (Throw e) t1
    end) ->
  always (bind m f) Q.
Proof.
  intros H s. specialize (H s). unfold res, acts, bind in *.
  destruct (m s) as [[[a | e] s1] t1]; simpl in *; [| exact H].
  specialize (H s1). unfold res, acts in H.
  destruct (f a s1) as [[r s2] t2]; simpl in *.
  rewrite seen_app. exact H.
Qed.

Lemma always_try_catch {A} (m : M A) (h : Error -> M A)
  (Q : result A -> list V -> Prop) :
  always m (fun r t1 =>
    match r with
    | Ok a => Q (Ok a) t1
    | Throw e => always (h e) (fun r2 t2 => Q r2 (t1 ++ t2))
    end) ->
  always (try_catch m h) Q.
Proof.
  intros H s. specialize (H s). unfold res, acts, try_catch in *.
  destruct (m s) as [[[a | e] s1] t1]; simpl in *; [exact H |].
  specialize (H s1). unfold res, acts in H.
  destruct (h e s1) as [[r s2] t2]; simpl in *.
  rewrite seen_app. exact H.
Qed.

Lemma always_conseq {A} (m : M A) (Q Q' : result A -> list V -> Prop) :
  always m Q -> (forall r t, Q r t -> Q' r t) -> always m Q'.
Proof. intros H Himp s. apply Himp, H. Qed.

(** A computation whose footprint the view does not see. *)
Lemma always_unseen {A} (P : Action -> Prop) (m : M A) :
  emits P m -> (forall a, P a -> view a = []) ->
  always m (fun _ t => t = []).
Proof.
  intros Hm Hv s. specialize (Hm s). unfold seen.
  induction Hm as [| a t Ha _ IH]; simpl; [reflexivity |].
  rewrite (Hv a Ha), IH. reflexivity.
Qed.
End Always.

(** Between two steps: reduce what the last answer decides. *)
Ltac run_simpl :=
  cbn beta iota zeta delta
    [negb andb orb fst snd get_ok get_body head_ok head_content_type
     kind_eqb hasOwnProperty opt_chain config_prop].

(** One step of a run: the rule that fits the head of the computation. *)
Ltac run_step :=
  lazymatch goal with
  | |- always _ (bind _ _) _ => apply always_bind
  | |- always _ (try_catch _ _) _ => apply always_try_catch
  | |- always _ (ret _) _ => apply always_ret
  | |- always _ (throw _) _ => apply always_throw
  | |- always _ (lift _) _ => apply always_lift
  | |- always _ (lift_err _) _ => apply always_lift_err
  | |- always _ (emit _) _ => apply always_emit
  | |- always _ (logger _ _) _ => apply always_emit
  | |- always _ (put_store _) _ => apply always_put_store
  | |- always _ get_store _ => apply always_get_store; intros ?
  end; run_simpl.

(** The appender never throws, and emits the event it is given (and one
    operational line, which no view below keeps). *)
Lemma always_logEvent {V : Type} (view : Action -> list V) w h ev
  (Q : result unit -> list V -> Prop) :
  (forall lv text, view (ALogger lv text) = []) ->
  Q (Ok tt) (view (ALogEvent ev)) ->
  always view (logEventCurried w h ev) Q.
Proof.
  intros Hq H s.
  unfold logEventCurried, bind, try_catch, lift_err, res, acts, seen.
  destruct (db_updateOne w _ _ _); simpl; rewrite !Hq, ?app_nil_r; exact H.
Qed.

Lemma emits_logEvent (P : Action -> Prop) w h ev :
  P (ALogEvent ev) -> (forall lv text, P (ALogger lv text)) ->
  emits P (logEventCurried w h ev).
Proof.
  intros Hev Hlg. unfold logEventCurried.
  emits_auto; apply Hlg.
Qed.

Ltac run_call :=
  lazymatch goal with
  | |- always _ (logEventCurried _ _ _) _ =>
      apply always_logEvent; [intros; reflexivity |]; run_simpl
  | |- always _ (log_with (Some _) _) _ => unfold log_with
  | |- always _ (log_with None _) _ => unfold log_with
  end.

(** Where the run depends on an answer of the world: use what is known of
    the answer, or else consider every answer. *)
Ltac run_case :=
  match goal with
  | H : ?x = _ |- context [match ?x with _ => _ end] =>
      rewrite H; run_simpl
  | |- always _ (match ?x with _ => _ end) _ => destruct x eqn:?; run_simpl
  | |- always _ (if ?x then _ else _) _ => destruct x eqn:?; run_simpl
  | |- match ?x with _ => _ end => destruct x eqn:?; run_simpl
  end.

Ltac run_auto := repeat (first [run_step | run_call | run_case]).

(** * The executors *)

(** A call to a function whose behaviour is known by a lemma. *)
Ltac run_with lem :=
  first
    [ eapply always_conseq; [apply lem | cbv beta; intros ? ? ?]
    | eapply always_bind, always_conseq; [apply lem | cbv beta; intros ? ? ?] ].

(** Run as far as the answers of the world are known. *)
Ltac run_known :=
  match goal with
  | H : ?x = _ |- context [match ?x with _ => _ end] =>
      rewrite H; run_simpl
  end.

Ltac run_det := repeat (first [run_step | run_call | run_known]).

(** Use every case equation at hand. *)
Ltac use_cases :=
  repeat match goal with
         | Hc : ?x = _ |- context [match ?x with _ => _ end] => rewrite Hc
         end.

(** Membership in an explicit list. *)
Ltac in_list := simpl; repeat (first [left; reflexivity | right]).

(** The operational log lines matter to no view. *)
Lemma seen_outward {V : Type} (view : Action -> list V) (t : list Action) :
  (forall lv text, view (ALogger lv text) = []) ->
  seen view (seen view_outward t) = seen view t.
Proof.
  intros Hq. unfold seen. induction t as [| a t IH]; [reflexivity |].
  destruct a; simpl; rewrite ?Hq; simpl; rewrite IH; reflexivity.
Qed.

(** Carry a fact about the outward trace of a run over to the run. *)
Ltac of_run H :=
  cbv beta zeta in H;
  repeat (rewrite seen_outward in H by (intros; reflexivity)).

Ltac unfold_views :=
  unfold sharp_jobs, ffmpeg_commands, gs_runs, log_events, uploads,
    acknowledgements, cleanup_probes, outward in *.



Lemma above_floor_iff (compress : option bool) (size floor : Z) :
  truthy_bool compress && (size >? floor) = true <->
  truthy_bool compress = true /\ floor < size.
Proof. rewrite andb_true_iff, Z.gtb_lt. reflexivity. Qed.


Section Executors.
Variables (w : World) (h : LogHandle) (inputPath : string).

Let fn : option (LogEvent -> M unit) := Some (logEventCurried w h).

(** *** Compression *)

Lemma processImage_quality compress cropParams size :
  fs_stat w inputPath = Ok size ->
  always view_jobs (processImage w inputPath compress cropParams fn)
    (fun r t =>
       (forall out, r = Ok out -> t <> []) /\
       (forall j, In j t ->
          sharp_webp_quality j =
          if truthy_bool compress && (size >? 500 * 1024)
          then 60 else 100)).
Proof.
  intros Hs. unfold processImage, image_crop, fn.
  run_auto; simpl; (split; [congruence |]);
    intros j Hj; try contradiction;
    destruct Hj as [<- | []]; reflexivity.
Qed.

Lemma video_validCrop_commands cropParams :
  always view_commands (video_validCrop w inputPath cropParams fn)
    (fun _ t => t = []).
Proof.
  unfold video_validCrop, getVideoDimensions, fn. run_auto; reflexivity.
Qed.

Lemma video_validTrim_commands trimParams :
  always view_commands (video_validTrim w inputPath trimParams fn)
    (fun _ t => t = []).
Proof.
  unfold video_validTrim, getVideoDuration, fn. run_auto; reflexivity.
Qed.

Lemma video_applyTrim_commands trimParams validTrim :
  always view_commands (video_applyTrim trimParams validTrim fn)
    (fun _ t => t = []).
Proof. unfold video_applyTrim, fn. run_auto; reflexivity. Qed.

Lemma video_applyCrop_commands cropParams validCrop :
  always view_commands (video_applyCrop cropParams validCrop fn)
    (fun _ t => t = []).
Proof. unfold video_applyCrop, fn. run_auto; reflexivity. Qed.

Lemma video_compression_options compression :
  always view_commands (video_compression w inputPath compression fn)
    (fun r t =>
       t = [] /\
       r = Ok match fs_stat w inputPath with
              | Ok size =>
                  if truthy_bool compression && (size >? 1572864)
                  then ["-crf 32"] else []
              | Throw _ => []
              end).
Proof.
  unfold video_compression, fn.
  run_auto; simpl; (split; [reflexivity |]);
    change VIDEO_MIN_SIZE with 1572864 in *;
    rewrite ?Heqb; reflexivity.
Qed.

Lemma processVideo_options cropParams trimParams compression :
  always view_commands
    (processVideo w inputPath cropParams trimParams compression fn)
    (fun r t =>
       (forall out, r = Ok out -> t <> []) /\
       (forall c, In c t ->
          ff_outputOptions c =
          match fs_stat w inputPath with
          | Ok size =>
              if truthy_bool compression && (size >? 1572864)
              then ["-crf 32"] else []
          | Throw _ => []
          end)).
Proof.
  unfold processVideo.
  run_det. run_case; [split; [congruence | contradiction] |].
  run_with video_validCrop_commands. subst.
  destruct r; [| split; [congruence | contradiction]].
  run_with video_validTrim_commands. subst.
  destruct r; [| split; [congruence | contradiction]].
  run_with video_applyTrim_commands. subst.
  destruct r; [| split; [congruence | contradiction]].
  run_with video_applyCrop_commands. subst.
  destruct r; [| split; [congruence | contradiction]].
  run_with video_compression_options.
  destruct H as [-> ->].
  run_auto; simpl; (split; [congruence |]);
    intros c Hc; destruct Hc as [<- | []]; reflexivity.
Qed.

(** *** The image executor, path by path *)

Lemma processImage_run compress cropParams :
  fs_mkdir w (path_join (cwd w) "processed") = None ->
  always view_outward (processImage w inputPath compress cropParams fn)
    (fun r t =>
       let reaches_encoder :=
         image_reaches_encoder w inputPath compress r (seen view_jobs t) in
       let extracts :=
         image_extracts w inputPath compress r (seen view_jobs t) in
       match cropParams with
       | None => reaches_encoder None /\ seen view_events t = []
       | Some c =>
           match sharp_metadata w inputPath with
           | Throw e =>
               r = Throw e /\ seen view_jobs t = [] /\
               seen view_events t = []
           | Ok md =>
               let imgWidth := default 0 (md_width md) in
               let imgHeight := default 0 (md_height md) in
               if crop_exceeds c imgWidth imgHeight
               then extracts (full_frame md) /\
                    seen view_events t =
                      [event warning
                         (crop_warning "image" c imgWidth imgHeight)]
               else extracts c /\ seen view_events t = []
           end
       end).
Proof.
  intros Hm. unfold processImage, image_crop, fn.
  run_auto; simpl;
    unfold image_extracts, image_reaches_encoder, encoded_image, full_frame;
    simpl; use_cases;
    repeat split; try (eexists; repeat split; simpl; use_cases);
    reflexivity.
Qed.

(** *** The video executor, path by path *)

Lemma video_compression_run compression :
  always view_outward (video_compression w inputPath compression fn)
    (fun r t => seen view_commands t = [] /\ exists opts, r = Ok opts).
Proof.
  unfold video_compression, fn.
  run_auto; simpl; (split; [reflexivity | eexists; reflexivity]).
Qed.

Lemma processVideo_run cropParams trimParams compression :
  fs_mkdir w (path_join (cwd w) "processed") = None ->
  always view_outward
    (processVideo w inputPath cropParams trimParams compression fn)
    (fun r t =>
       exists cmd,
         seen view_commands t = [cmd] /\ r = encoded_video w inputPath cmd /\
         match cropParams with
         | None => ff_videoFilters cmd = []
         | Some c =>
             match probed_dimensions w inputPath with
             | Ok (vw, vh) =>
                 if crop_exceeds c vw vh
                 then ff_videoFilters cmd = [] /\
                      In (event warning (crop_warning "video" c vw vh))
                        (seen view_events t)
                 else ff_videoFilters cmd = [crop_filter c]
             | Throw e =>
                 ff_videoFilters cmd = [] /\
                 In (event_err warning
                       ("Error retrieving video dimensions: "
                        +:+ err_message e) e)
                    (seen view_events t)
             end
         end /\
         match trimParams with
         | None => ff_startTime cmd = None /\ ff_duration cmd = None
         | Some tp =>
             match probed_duration w inputPath with
             | Ok d =>
                 if trim_invalid tp d
                 then ff_startTime cmd = None /\ ff_duration cmd = None /\
                      In (event warning (trim_warning w tp d))
                        (seen view_events t)
                 else ff_startTime cmd = Some (trim_start tp) /\
                      ff_duration cmd =
                        Some (trim_end tp - trim_start tp)%Q
             | Throw e =>
                 ff_startTime cmd = None /\ ff_duration cmd = None /\
                 In (event_err warning
                       ("Error retrieving video duration: "
                        +:+ err_message e) e)
                    (seen view_events t)
             end
         end).
Proof.
  intros Hm.
  unfold processVideo, video_validCrop, video_validTrim, video_applyTrim,
    video_applyCrop, getVideoDimensions, getVideoDuration, fn.
  run_auto.
  all: run_with video_compression_run.
  all: destruct H as [Hc [opts ->]]; run_auto.
  all: simpl in *; rewrite ?seen_app, ?Hc; simpl;
    unfold encoded_video;
    eexists; split; [reflexivity |];
    split; [use_cases; reflexivity |];
    unfold probed_dimensions, probed_duration, getVideoDimensions,
      getVideoDuration, bind, emit, lift, throw, ret, res;
    simpl; use_cases; simpl; use_cases;
    rewrite ?seen_app, ?Hc;
    repeat split; in_list.
Qed.

(** *** The PDF executor, path by path *)

Lemma processPDF_run compress file :
  fs_readFile w inputPath = Ok file ->
  always view_outward (processPDF w inputPath compress fn)
    (fun r t =>
       (exists b, r = Ok b) /\
       if truthy_bool compress && (buffer_length file >? PDF_MIN_SIZE)
       then
         seen view_execs t = [gs_command (gs_outputPath w inputPath) inputPath] /\
         match exec_gs w (gs_command (gs_outputPath w inputPath) inputPath) with
         | Throw e =>
             r = Ok file /\
             In (event_err warning
                   ("Error during PDF compression: " +:+ err_message e) e)
                (seen view_events t)
         | Ok _ => True
         end
       else r = Ok file /\ seen view_execs t = []).
Proof.
  intros Hf. unfold processPDF, pdf_compress_pass, fn.
  run_det.
  destruct (truthy_bool compress && (buffer_length file >? PDF_MIN_SIZE)).
  - fold (gs_outputPath w inputPath).
    run_auto; simpl; (split; [eexists; reflexivity |]);
      (split; [reflexivity |]); try exact I;
      split; [reflexivity | in_list].
  - run_auto; simpl; repeat split; eexists; reflexivity.
Qed.

End Executors.


(** *** The trim window *)

Lemma Qle_bool_false (a b : Q) : Qle_bool a b = false <-> (b < a)%Q.
Proof.
  split.
  - intros H. apply Qnot_le_lt. intros Hle.
    apply Qle_bool_iff in Hle. congruence.
  - intros H. destruct (Qle_bool a b) eqn:Hb; [| reflexivity].
    apply Qle_bool_iff in Hb. exfalso. exact (Qlt_not_le _ _ H Hb).
Qed.

Lemma trim_invalid_false (t : TrimParams) (duration : Q) :
  trim_invalid t duration = false <->
  (0 <= trim_start t)%Q /\ (trim_end t <= duration)%Q /\
  (trim_start t < trim_end t)%Q.
Proof.
  unfold trim_invalid, Qlt_bool.
  rewrite !orb_false_iff, !negb_false_iff, !Qle_bool_iff, Qle_bool_false.
  tauto.
Qed.

Lemma trim_invalid_true (t : TrimParams) (duration : Q) :
  trim_invalid t duration = true <->
  ~ ((0 <= trim_start t)%Q /\ (trim_end t <= duration)%Q /\
     (trim_start t < trim_end t)%Q).
Proof.
  rewrite <- trim_invalid_false.
  destruct (trim_invalid t duration); split; congruence || tauto.
Qed.

(** *** Without an output folder there is no encoder run *)

Lemma processImage_without_folder w inputPath compress cropParams fn s e :
  fs_mkdir w (path_join (cwd w) "processed") = Some e ->
  res (processImage w inputPath compress cropParams fn s) = Throw e /\
  sharp_jobs (acts (processImage w inputPath compress cropParams fn s)) = [].
Proof.
  intros Hm. unfold processImage, bind, emit, lift_err, res, acts.
  rewrite Hm. simpl. split; reflexivity.
Qed.

Lemma processVideo_without_folder w inputPath cropParams trimParams
  compression fn s e :
  fs_mkdir w (path_join (cwd w) "processed") = Some e ->
  res (processVideo w inputPath cropParams trimParams compression fn s)
    = Throw e /\
  ffmpeg_commands
    (acts (processVideo w inputPath cropParams trimParams compression fn s))
    = [].
Proof.
  intros Hm. unfold processVideo, bind, emit, lift_err, res, acts.
  rewrite Hm. simpl. split; reflexivity.
Qed.

(** *** An encoder error is the executor's error *)

Lemma processImage_propagates w h inputPath compress cropParams s j e :
  In j (sharp_jobs
          (acts (processImage w inputPath compress cropParams
                   (Some (logEventCurried w h)) s))) ->
  sharp_toFile w j = Some e ->
  res (processImage w inputPath compress cropParams
         (Some (logEventCurried w h)) s) = Throw e.
Proof.
  intros Hj He.
  destruct (fs_mkdir w (path_join (cwd w) "processed")) as [e0 |] eqn:Hm.
  - destruct (processImage_without_folder w inputPath compress cropParams
                (Some (logEventCurried w h)) s e0 Hm) as [_ Hnil].
    rewrite Hnil in Hj. contradiction.
  - pose proof (processImage_run w h inputPath compress cropParams Hm s)
      as H.
    of_run H. unfold_views. unfold image_reaches_encoder in H.
    assert (Hgen : forall extract,
      match fs_stat w inputPath with
      | Ok size =>
          exists j0,
            seen view_jobs
              (acts (processImage w inputPath compress cropParams
                       (Some (logEventCurried w h)) s)) = [j0] /\
            res (processImage w inputPath compress cropParams
                   (Some (logEventCurried w h)) s) = encoded_image w j0 /\
            sharp_extract j0 = extract /\
            sharp_webp_quality j0 = image_quality compress size /\
            sharp_output j0 = image_outputPath w inputPath
      | Throw e1 =>
          res (processImage w inputPath compress cropParams
                 (Some (logEventCurried w h)) s) = Throw e1 /\
          seen view_jobs
            (acts (processImage w inputPath compress cropParams
                     (Some (logEventCurried w h)) s)) = []
      end ->
      res (processImage w inputPath compress cropParams
             (Some (logEventCurried w h)) s) = Throw e).
    { intros extract Hx. destruct (fs_stat w inputPath).
      - destruct Hx as (j0 & Hj0 & Hr & _). rewrite Hj0 in Hj.
        destruct Hj as [<- | []]. rewrite Hr. unfold encoded_image.
        rewrite He. reflexivity.
      - destruct Hx as [_ Hnil]. rewrite Hnil in Hj. contradiction. }
    assert (Hx : forall region,
      image_extracts w inputPath compress
        (res (processImage w inputPath compress cropParams
                (Some (logEventCurried w h)) s))
        (seen view_jobs
           (acts (processImage w inputPath compress cropParams
                    (Some (logEventCurried w h)) s))) region ->
      res (processImage w inputPath compress cropParams
             (Some (logEventCurried w h)) s) = Throw e).
    { intros region Hr. unfold image_extracts, image_reaches_encoder in Hr.
      destruct (sharp_extract_region w region).
      - destruct Hr as [_ Hnil]. rewrite Hnil in Hj. contradiction.
      - exact (Hgen _ Hr). }
    destruct cropParams as [c |].
    + destruct (sharp_metadata w inputPath) as [md | e1].
      * destruct (crop_exceeds c _ _); destruct H as [H _];
          exact (Hx _ H).
      * destruct H as (_ & Hnil & _). rewrite Hnil in Hj. contradiction.
    + destruct H as [H _]. exact (Hgen _ H).
Qed.

Lemma processVideo_propagates w h inputPath cropParams trimParams compression
  s c e :
  In c (ffmpeg_commands
          (acts (processVideo w inputPath cropParams trimParams compression
                   (Some (logEventCurried w h)) s))) ->
  ffmpeg_save w c (video_outputPath w inputPath) = Some e ->
  res (processVideo w inputPath cropParams trimParams compression
         (Some (logEventCurried w h)) s) = Throw e.
Proof.
  intros Hc He.
  destruct (fs_mkdir w (path_join (cwd w) "processed")) as [e0 |] eqn:Hm.
  - destruct (processVideo_without_folder w inputPath cropParams trimParams
                compression (Some (logEventCurried w h)) s e0 Hm)
      as [_ Hnil].
    rewrite Hnil in Hc. contradiction.
  - pose proof (processVideo_run w h inputPath cropParams trimParams
                  compression Hm s) as H.
    of_run H. unfold_views.
    destruct H as (cmd & Hcmd & Hr & _).
    rewrite Hcmd in Hc. destruct Hc as [<- | []].
    rewrite Hr. unfold encoded_video. rewrite He. reflexivity.
Qed.


(** * The worker *)

Create HintDb model.
#[local] Hint Unfold processMessage parse_message run_job step1_download
  step2_process step3_read step4_upload step5_cleanup cleanup_file
  processAsset kind_and_own processImage image_crop processVideo
  video_validCrop video_validTrim video_applyTrim video_applyCrop
  video_compression getVideoDimensions getVideoDuration processPDF
  pdf_compress_pass getAssetType publicAssetExists downloadFile uploadFile
  createLogger log_with : model.

Ltac emits_call :=
  lazymatch goal with
  | |- emits _ (logEventCurried _ _ _) =>
      apply emits_logEvent; [| intros ? ?]; simpl; auto
  end.

(** A footprint, by structure of the whole computation. *)
Ltac emits_all :=
  autounfold with model; repeat (first [emits_call | emits_step]).

Lemma unseen_nil {V : Type} (view : Action -> list V) (t : list Action) :
  Forall (fun a => view a = []) t -> seen view t = [].
Proof.
  intros H. unfold seen. induction H as [| a t Ha _ IH]; simpl;
    [reflexivity | rewrite Ha, IH; reflexivity].
Qed.

Lemma always_silent {V A : Type} (view : Action -> list V) (m : M A) :
  emits (fun a => view a = []) m -> always view m (fun _ t => t = []).
Proof. intros H s. apply unseen_nil, H. Qed.

(** A call that the view does not see: go on with its result. *)
Ltac run_silent :=
  first
    [ eapply always_bind, always_conseq;
      [apply always_silent; emits_all | cbv beta; intros ? ? ->]
    | eapply always_conseq;
      [apply always_silent; emits_all | cbv beta; intros ? ? ->] ].

(** ** Acknowledgement *)

Lemma processMessage_no_ack w content :
  emits (fun a => view_acks a = []) (processMessage w content).
Proof. emits_all. Qed.

(** A message that makes [processMessage] throw has parsed. *)
Lemma processMessage_throws_parsed w content s e :
  res (processMessage w content s) = Throw e ->
  exists m, json_parse w content = PValue m.
Proof.
  unfold processMessage, parse_message, bind, try_catch, res.
  destruct (json_parse w content) as [e0 | | m]; simpl;
    [discriminate | discriminate | eauto].
Qed.

Lemma consume_acks w content s :
  acknowledgements (acts (consume w (Some content) s)) =
  match res (processMessage w content s) with
  | Ok _ => [AAck]
  | Throw _ => [ANack false false]
  end.
Proof.
  pose proof (processMessage_no_ack w content s) as Hq.
  apply unseen_nil in Hq.
  destruct (res (processMessage w content s)) as [u | e] eqn:Hr.
  - unfold acknowledgements, consume, try_catch, bind, acts, res in *.
    destruct (processMessage w content s) as [[r s1] t1]; simpl in *.
    subst r. unfold parsed_requestId.
    destruct (json_parse w content); simpl;
      rewrite !seen_app, Hq; reflexivity.
  - destruct (processMessage_throws_parsed w content s e Hr) as [m Hm].
    unfold acknowledgements, consume, try_catch, bind, acts, res in *.
    destruct (processMessage w content s) as [[r s1] t1]; simpl in *.
    subst r. unfold parsed_requestId. rewrite Hm. simpl.
    rewrite !seen_app, Hq. reflexivity.
Qed.

(** The three early exits of [processMessage] return normally. *)
Lemma processMessage_unparsed w content s :
  (forall m, json_parse w content <> PValue m) ->
  res (processMessage w content s) = Ok tt.
Proof.
  intros Hp. unfold processMessage, parse_message, bind, try_catch, res.
  destruct (json_parse w content) as [e0 | | m]; simpl;
    [reflexivity | reflexivity | exfalso; exact (Hp m eq_refl)].
Qed.

Lemma processMessage_missing_field w content s m :
  json_parse w content = PValue m ->
  truthy_string (msg_source m) = false \/
  truthy_string (msg_originalUrl m) = false \/
  truthy_string (msg_requestId m) = false ->
  res (processMessage w content s) = Ok tt.
Proof.
  intros Hp Hf. unfold processMessage, parse_message, bind, try_catch, res.
  rewrite Hp.
  assert (Hc : negb (truthy_string (msg_source m))
               || negb (truthy_string (msg_originalUrl m))
               || negb (truthy_string (msg_requestId m)) = true).
  { destruct Hf as [-> | [-> | ->]]; simpl;
      rewrite ?orb_true_r; reflexivity. }
  rewrite Hc. reflexivity.
Qed.

Lemma processMessage_unknown_kind w content s m :
  json_parse w content = PValue m ->
  truthy_string (msg_source m) = true ->
  truthy_string (msg_originalUrl m) = true ->
  truthy_string (msg_requestId m) = true ->
  res (getAssetType w (js_string (msg_originalUrl m)) s) = Ok unknown ->
  res (processMessage w content s) = Ok tt.
Proof.
  intros Hp H1 H2 H3 Hk.
  unfold processMessage, parse_message, bind, try_catch, res in *.
  rewrite Hp, H1, H2, H3. simpl.
  destruct (getAssetType w (js_string (msg_originalUrl m)) s)
    as [[r s1] t1]; simpl in *.
  subst r. reflexivity.
Qed.

(** ** The skip path *)

Lemma step4_gone (view := view_cleanup) w h kind originalUrl overwriteUrl
  buffer requestId :
  (forall u r, fetch_head_exists w u = Ok r -> head_ok r = false) ->
  always view
    (step4_upload w (logEventCurried w h) kind originalUrl overwriteUrl
       buffer requestId)
    (fun r t => t = [] /\ r <> Ok false).
Proof.
  intros Hgone. unfold step4_upload, publicAssetExists.
  run_auto; simpl; try (split; [reflexivity | discriminate]);
    exfalso;
    match goal with
    | Hr : fetch_head_exists _ _ = Ok ?a, Hb : negb (head_ok ?a) = false
      |- _ => rewrite (Hgone _ _ Hr) in Hb; discriminate
    end.
Qed.

Lemma run_job_gone_no_cleanup w msg kind :
  (forall u r, fetch_head_exists w u = Ok r -> head_ok r = false) ->
  always view_cleanup (run_job w msg kind) (fun _ t => t = []).
Proof.
  intros Hgone. unfold run_job.
  run_silent. destruct r as [handle |]; [| reflexivity].
  run_silent. destruct r; [| reflexivity].
  run_silent. destruct r; [| reflexivity].
  run_silent. destruct r; [| reflexivity].
  run_silent. destruct r; [| reflexivity].
  run_silent. destruct r as [processedPath |]; [| reflexivity].
  run_silent. destruct r as [processedBuffer |]; [| reflexivity].
  run_with step4_gone; [exact Hgone |]. destruct H as [-> Hr].
  destruct r as [[|] |]; [| congruence | reflexivity].
  run_step. reflexivity.
Qed.

(** ** A job that goes through *)

Lemma createLogger_run w requestId source originalUrl cfg :
  (forall u, db_findOne w u = None) ->
  (forall u, db_create w u = None) ->
  (forall u, db_save w u = None) ->
  always view_outward (createLogger w requestId source originalUrl cfg)
    (fun r t =>
       t = [] /\
       r = Ok {| h_originalUrl := originalUrl; h_requestId := requestId;
                 h_source := source |}).
Proof.
  intros Hf Hc Hs. unfold createLogger.
  rewrite Hf, Hc, Hs. run_auto; simpl; split; reflexivity.
Qed.

Lemma getAssetType_run w url :
  always view_outward (getAssetType w url)
    (fun r t => t = [AHead url] /\ r = classification w url).
Proof.
  assert (Hc : classification w url =
    match fetch_head_type w url with
    | Ok a =>
        let contentType := default "" (head_content_type a) in
        Ok (if String.prefix "image/" contentType then image
            else if String.prefix "video/" contentType then video
            else if String.eqb contentType "application/pdf" then pdf
            else unknown)
    | Throw _ => Ok unknown
    end).
  { unfold classification, getAssetType, try_catch, bind, emit, lift, res.
    destruct (fetch_head_type w url) as [a |]; simpl; [| reflexivity].
    destruct (String.prefix "image/" _); [reflexivity |].
    destruct (String.prefix "video/" _); [reflexivity |].
    destruct (String.eqb _ _); reflexivity. }
  rewrite Hc. unfold getAssetType.
  run_auto; simpl; use_cases; split; reflexivity.
Qed.

Section Job.
Variables (w : World) (msg : Msg) (cfg : AssetConfig) (props : ImageProps).
Variables (data : Buffer).

Let url := js_string (msg_originalUrl msg).
Let out := js_string (msg_overwriteUrl msg).

Hypothesis Hhealthy : healthy w.
Hypothesis Hcfg : msg_assetConfig msg = Some cfg.
Hypothesis Hprops : imageProps cfg = Some (Some props).
Hypothesis Hcrop : img_cropParams props = None.
Hypothesis Hget : fetch_get w url = Ok {| get_ok := true; get_body := data |}.
Hypothesis Hthere : exists r, fetch_head_exists w url = Ok r /\ head_ok r = true.
Hypothesis Hput : forall b, fetch_put w out b "image/jpeg" = Ok true.

Lemma run_job_image_completes :
  always view_outward (run_job w msg image)
    (fun r t =>
       r = Ok tt /\
       (exists j size,
          seen view_jobs t = [j] /\ sharp_extract j = None /\
          fs_stat w (worker_inputPath w) = Ok size /\
          sharp_webp_quality j = image_quality (img_compress props) size /\
          sharp_output j = image_outputPath w (worker_inputPath w)) /\
       (exists b,
          fs_readFile w (image_outputPath w (worker_inputPath w)) = Ok b /\
          seen view_puts t = [(out, b, "image/jpeg")]) /\
       seen view_events t =
         [event pending "Processing started";
          event processing "File downloaded";
          event processing "Processing complete, uploading to DO Spaces";
          event completed "Upload successful"] /\
       (exists rest, seen view_cleanup t = worker_inputPath w :: rest) /\
       seen view_acks t = []).
Proof.
  destruct Hhealthy as (Hf & Hc & Hs & Hmk & Hwr & Hst & Hrd & Henc).
  destruct Hthere as (hr & Hhr & Hok).
  destruct (Hst (worker_inputPath w)) as [size Hsize].
  destruct (Hrd (image_outputPath w (worker_inputPath w))) as [b Hb].
  unfold run_job. fold url out. rewrite Hcfg.
  run_with createLogger_run; try assumption. destruct H as [-> ->].
  unfold step1_download, downloadFile, step2_process, processAsset,
    kind_and_own, processImage, image_crop, step3_read, step4_upload,
    publicAssetExists, uploadFile, step5_cleanup, cleanup_file.
  repeat (first [ run_step | run_call | run_known
                | progress (rewrite ?Hmk, ?Hwr, ?Henc, ?Hput, ?Hprops,
                              ?Hcrop, ?Hok); run_simpl ]).
  run_auto; simpl;
    (split; [reflexivity |]);
    (split; [eexists; exists size; repeat split;
             first [reflexivity | exact Hsize] |]);
    (split; [exists b; split; first [reflexivity | exact Hb] |]);
    (split; [reflexivity |]);
    (split; [eexists; reflexivity | reflexivity]).
Qed.

Variable content : Buffer.
Hypothesis Hparse : json_parse w content = PValue msg.
Hypothesis Hsource : truthy_string (msg_source msg) = true.
Hypothesis Hurl : truthy_string (msg_originalUrl msg) = true.
Hypothesis Hid : truthy_string (msg_requestId msg) = true.
Hypothesis Hkind : classification w url = Ok image.

Lemma consume_image_completes :
  always view_outward (consume w (Some content))
    (fun r t =>
       (exists j size,
          seen view_jobs t = [j] /\ sharp_extract j = None /\
          fs_stat w (worker_inputPath w) = Ok size /\
          sharp_webp_quality j = image_quality (img_compress props) size /\
          sharp_output j = image_outputPath w (worker_inputPath w)) /\
       (exists b,
          fs_readFile w (image_outputPath w (worker_inputPath w)) = Ok b /\
          seen view_puts t = [(out, b, "image/jpeg")]) /\
       seen view_events t =
         [event pending "Processing started";
          event processing "File downloaded";
          event processing "Processing complete, uploading to DO Spaces";
          event completed "Upload successful"] /\
       (exists rest, seen view_cleanup t = worker_inputPath w :: rest) /\
       seen view_acks t = [AAck]).
Proof.
  unfold consume, processMessage, parse_message, parsed_requestId.
  rewrite Hparse, Hsource, Hurl, Hid. run_simpl.
  run_det. fold url.
  run_with getAssetType_run. destruct H as [-> ->]. rewrite Hkind.
  run_simpl.
  run_with run_job_image_completes.
  destruct H as (-> & (j & size & Hj & Hx & Hs & Hq & Ho) & (b & Hb & Hp)
                 & Hev & (rest & Hcl) & Hack).
  run_det. simpl. rewrite !seen_app, Hj, Hp, Hev, Hcl, Hack. simpl.
  split; [exists j, size; repeat split; assumption |].
  split; [exists b; split; [exact Hb | reflexivity] |].
  split; [reflexivity |].
  split; [eexists; reflexivity | reflexivity].
Qed.
End Job.

Lemma truthy_string_Some (s : string) : s <> "" -> truthy_string (Some s) = true.
Proof. destruct s; [congruence | reflexivity]. Qed.

(** The intake publishes the body under a fresh request identifier. *)
Lemma createAssetJob_run w body :
  truthy_string (msg_source body) = true ->
  truthy_string (msg_originalUrl body) = true ->
  truthy_string (msg_overwriteUrl body) = true ->
  msg_requestId body = None ->
  connectRabbitMQ w = None ->
  always view_queue (createAssetJob w body)
    (fun r t =>
       r = Ok (Res200 (uuidv4 w)) /\
       t = [json_stringify w
              {| msg_requestId := Some (uuidv4 w);
                 msg_source := msg_source body;
                 msg_originalUrl := msg_originalUrl body;
                 msg_overwriteUrl := msg_overwriteUrl body;
                 msg_assetConfig := msg_assetConfig body |}]).
Proof.
  intros Hs Hu Ho Hid Hc. unfold createAssetJob.
  rewrite Hs, Hu, Ho, Hid, Hc. run_simpl.
  run_det. simpl. split; reflexivity.
Qed.
(** ** Where an upload comes from *)

Ltac in_cases H :=
  simpl in H;
  repeat match type of H with
         | _ \/ _ => destruct H as [H | H]
         | False => contradiction
         end.

Lemma step2_image_transfer w h inputPath cfg requestId :
  always view_transfer
    (step2_process w (logEventCurried w h) image inputPath cfg requestId)
    (fun r t =>
       match r with
       | Ok p =>
           exists j, t = [ASharpToFile j] /\ sharp_output j = p /\
                     p = image_outputPath w inputPath
       | Throw _ => t = [] \/ exists j, t = [ASharpToFile j]
       end).
Proof.
  unfold step2_process, processAsset, kind_and_own, processImage, image_crop.
  run_auto; simpl; eauto.
Qed.

Lemma step3_transfer w p :
  always view_transfer (step3_read w p)
    (fun r t => t = [] /\ forall b, r = Ok b -> fs_readFile w p = Ok b).
Proof.
  unfold step3_read. run_auto; simpl; split; try reflexivity;
    intros b Hb; congruence.
Qed.

Lemma step4_transfer w h kind originalUrl overwriteUrl buffer requestId :
  always view_transfer
    (step4_upload w (logEventCurried w h) kind originalUrl overwriteUrl
       buffer requestId)
    (fun r t =>
       let put := APut overwriteUrl buffer (getContentType kind) in
       t = [ALogEvent
              (event completed
                 "Original asset deleted by user. Skipping final upload.")]
       \/ t = [put]
       \/ t = [put; ALogEvent (event completed "Upload successful")]).
Proof.
  unfold step4_upload, publicAssetExists, uploadFile.
  run_auto; simpl; auto.
Qed.

Lemma run_job_image_transfer w msg :
  always view_transfer (run_job w msg image)
    (fun _ t =>
       (forall u b ct, In (APut u b ct) t ->
          u = js_string (msg_overwriteUrl msg) /\ ct = "image/jpeg" /\
          exists j, In (ASharpToFile j) t /\
            sharp_output j = image_outputPath w (worker_inputPath w) /\
            fs_readFile w (sharp_output j) = Ok b) /\
       (In (ALogEvent (event completed "Upload successful")) t ->
        exists b, In (APut (js_string (msg_overwriteUrl msg)) b "image/jpeg") t)).
Proof.
  assert (Hnil : forall (u : string),
    (forall u0 b ct, In (APut u0 b ct) [] ->
       u0 = u /\ ct = "image/jpeg" /\
       exists j, In (ASharpToFile j) [] /\
         sharp_output j = image_outputPath w (worker_inputPath w) /\
         fs_readFile w (sharp_output j) = Ok b) /\
    (In (ALogEvent (event completed "Upload successful")) [] ->
     exists b, In (APut u b "image/jpeg") [])).
  { intros u. split; [intros ? ? ? [] | intros []]. }
  unfold run_job.
  run_silent. destruct r as [handle |]; [| apply Hnil].
  run_silent. destruct r; [| apply Hnil].
  run_silent. destruct r; [| apply Hnil].
  run_silent. destruct r; [| apply Hnil].
  run_silent. destruct r; [| apply Hnil].
  run_with step2_image_transfer.
  destruct r as [processedPath | e].
  2: { destruct H as [-> | [j ->]]; simpl; [apply Hnil |].
       split; [intros u b ct Hin | intros Hin]; in_cases Hin; discriminate. }
  destruct H as (j & -> & Hout & Hp).
  run_with step3_transfer. destruct H as [-> Hread].
  destruct r as [processedBuffer | e].
  2: { simpl. split; [intros u b ct Hin | intros Hin]; in_cases Hin;
       discriminate. }
  specialize (Hread processedBuffer eq_refl).
  run_with step4_transfer. cbv zeta in H.
  assert (Hq : (forall u b ct, In (APut u b ct) ([ASharpToFile j] ++ t) ->
          u = js_string (msg_overwriteUrl msg) /\ ct = "image/jpeg" /\
          exists j0, In (ASharpToFile j0) ([ASharpToFile j] ++ t) /\
            sharp_output j0 = image_outputPath w (worker_inputPath w) /\
            fs_readFile w (sharp_output j0) = Ok b) /\
       (In (ALogEvent (event completed "Upload successful"))
          ([ASharpToFile j] ++ t) ->
        exists b, In (APut (js_string (msg_overwriteUrl msg)) b "image/jpeg")
                    ([ASharpToFile j] ++ t))).
  { destruct H as [-> | [-> | ->]]; simpl;
      (split; [intros u b ct Hin | intros Hin]); in_cases Hin;
      try discriminate.
    - injection Hin as <- <- <-. repeat split.
      exists j. split; [left; reflexivity |]. rewrite Hout, <- Hp.
      split; [reflexivity | exact Hread].
    - injection Hin as <- <- <-. repeat split.
      exists j. split; [left; reflexivity |]. rewrite Hout, <- Hp.
      split; [reflexivity | exact Hread].
    - exists processedBuffer. right. left. reflexivity. }
  destruct r as [[|] | e].
  - run_step. simpl. rewrite !app_nil_r. exact Hq.
  - run_silent. rewrite !app_nil_r. exact Hq.
  - simpl. exact Hq.
Qed.


(** * The log store *)

Lemma is_request_iff requestId req :
  is_request requestId req = true <-> rl_requestId req = requestId.
Proof. unfold is_request. apply String.eqb_eq. Qed.

Lemma find_is_request_None requestId requests :
  List.find (is_request requestId) requests = None ->
  List.filter (is_request requestId) requests = [].
Proof.
  induction requests as [| req rest IH]; simpl; [reflexivity |].
  destruct (is_request requestId req); [discriminate | exact IH].
Qed.

Lemma find_is_request_Some requestId requests req :
  List.find (is_request requestId) requests = Some req ->
  requestId ∈ map rl_requestId requests.
Proof.
  induction requests as [| r rest IH]; simpl; [discriminate |].
  destruct (is_request requestId r) eqn:Hr.
  - intros _. apply elem_of_cons. left. symmetry.
    apply is_request_iff. exact Hr.
  - intros H. apply elem_of_cons. right. exact (IH H).
Qed.

Lemma filter_is_request_absent requestId requests :
  requestId ∉ map rl_requestId requests ->
  List.filter (is_request requestId) requests = [].
Proof.
  induction requests as [| req rest IH]; simpl; [reflexivity |].
  intros Hn. apply not_elem_of_cons in Hn as [Hne Hn].
  destruct (is_request requestId req) eqn:Hr.
  - apply is_request_iff in Hr. congruence.
  - exact (IH Hn).
Qed.

Lemma find_None_absent requestId requests :
  List.find (is_request requestId) requests = None ->
  requestId ∉ map rl_requestId requests.
Proof.
  induction requests as [| req rest IH]; simpl.
  - intros _. apply not_elem_of_nil.
  - destruct (is_request requestId req) eqn:Hr; [discriminate |].
    intros H. apply not_elem_of_cons. split; [| exact (IH H)].
    intros Heq. symmetry in Heq. apply is_request_iff in Heq. congruence.
Qed.

(** In a document without duplicates, an identifier that is there is there
    once. *)
Lemma filter_is_request_once requestId requests :
  NoDup (map rl_requestId requests) ->
  requestId ∈ map rl_requestId requests ->
  length (List.filter (is_request requestId) requests) = 1%nat.
Proof.
  induction requests as [| req rest IH]; simpl.
  - intros _ H. apply elem_of_nil in H. contradiction.
  - intros Hnd Hin. apply NoDup_cons in Hnd as [Hfresh Hnd].
    destruct (is_request requestId req) eqn:Hr.
    + apply is_request_iff in Hr. subst requestId. simpl.
      rewrite (filter_is_request_absent _ _ Hfresh). reflexivity.
    + apply elem_of_cons in Hin as [Heq | Hin].
      * symmetry in Heq. apply is_request_iff in Heq. congruence.
      * exact (IH Hnd Hin).
Qed.

(** What a successful call leaves in the store. *)
Lemma createLogger_store w requestId source originalUrl cfg s h s1 t :
  createLogger w requestId source originalUrl cfg s = (Ok h, s1, t) ->
  let requests := default [] (s !! originalUrl) in
  (s1 !! originalUrl =
     Some match List.find (is_request requestId) requests with
          | Some _ => requests
          | None =>
              requests ++ [ {| rl_requestId := requestId;
                               rl_source := source;
                               rl_processingConfig := cfg;
                               rl_events := [] |} ]
          end) /\
  (forall u, u <> originalUrl -> s1 !! u = s !! u).
Proof.
  unfold createLogger, bind, lift_err, get_store, put_store, ret, throw.
  destruct (db_findOne w originalUrl); [discriminate |].
  destruct (s !! originalUrl) as [requests |] eqn:Hdoc; simpl.
  - destruct (List.find (is_request requestId) requests) eqn:Hfind; simpl.
    + intros H. injection H as <- <- <-. rewrite Hdoc. split; [reflexivity |].
      intros u _. reflexivity.
    + destruct (db_save w originalUrl); [discriminate |]. simpl.
      intros H. injection H as <- <- <-.
      rewrite lookup_insert_eq. split; [reflexivity |].
      intros u Hu. rewrite lookup_insert_ne by congruence. reflexivity.
  - destruct (db_create w originalUrl); [discriminate |]. simpl.
    destruct (db_save w originalUrl); [discriminate |]. simpl.
    intros H. injection H as <- <- <-.
    rewrite lookup_insert_eq. split; [reflexivity |].
    intros u Hu. rewrite !lookup_insert_ne by congruence. reflexivity.
Qed.

(** A call for a request that is already recorded changes nothing. *)
Lemma createLogger_recorded w requestId source originalUrl cfg s h s1 t
  requests req :
  s !! originalUrl = Some requests ->
  List.find (is_request requestId) requests = Some req ->
  createLogger w requestId source originalUrl cfg s = (Ok h, s1, t) ->
  s1 = s.
Proof.
  intros Hdoc Hfind.
  unfold createLogger, bind, lift_err, get_store, put_store, ret, throw.
  destruct (db_findOne w originalUrl); [discriminate |].
  rewrite Hdoc. simpl. rewrite Hfind. simpl.
  intros H. injection H as <- <- <-. reflexivity.
Qed.

Lemma find_is_request_app_new requestId requests req :
  rl_requestId req = requestId ->
  exists r, List.find (is_request requestId) (requests ++ [req]) = Some r.
Proof.
  intros Hreq. induction requests as [| r rest IH]; simpl.
  - apply is_request_iff in Hreq. rewrite Hreq. eauto.
  - destruct (is_request requestId r); eauto.
Qed.

(** The invariant holds of the empty store and every operation of the
    logger keeps it. *)
Lemma unique_requests_empty : unique_requests ∅.
Proof. intros u requests H. rewrite lookup_empty in H. discriminate. Qed.

Lemma createLogger_unique w requestId source originalUrl cfg s h s1 t :
  unique_requests s ->
  createLogger w requestId source originalUrl cfg s = (Ok h, s1, t) ->
  unique_requests s1.
Proof.
  intros Hu Hrun u requests Hlook.
  destruct (createLogger_store _ _ _ _ _ _ _ _ _ Hrun) as [Hdoc Hother].
  destruct (String.eqb_spec u originalUrl) as [-> | Hne].
  - rewrite Hdoc in Hlook. injection Hlook as <-.
    destruct (s !! originalUrl) as [old |] eqn:Hold; simpl.
    + specialize (Hu _ _ Hold).
      destruct (List.find (is_request requestId) old) eqn:Hfind;
        [exact Hu |].
      rewrite map_app. simpl. apply NoDup_app. split; [exact Hu |].
      split; [| apply NoDup_singleton].
      intros x Hx Hx'. apply list_elem_of_singleton in Hx'. subst x.
      exact (find_None_absent _ _ Hfind Hx).
    + apply NoDup_singleton.
  - rewrite (Hother u Hne) in Hlook. exact (Hu _ _ Hlook).
Qed.

(** Appending an event keeps the identifiers of a document. *)
Lemma push_event_ids requestId ev requests :
  map rl_requestId (push_event requestId ev requests) =
  map rl_requestId requests.
Proof.
  induction requests as [| req rest IH]; simpl; [reflexivity |].
  destruct (is_request requestId req); simpl; [reflexivity |].
  rewrite IH. reflexivity.
Qed.

Lemma updateOne_unique originalUrl requestId ev s :
  unique_requests s -> unique_requests (updateOne originalUrl requestId ev s).
Proof.
  intros Hu u requests. unfold updateOne.
  destruct (s !! originalUrl) as [old |] eqn:Hold; [| apply Hu].
  destruct (existsb (is_request requestId) old); [| apply Hu].
  destruct (String.eqb_spec u originalUrl) as [-> | Hne].
  - rewrite lookup_insert_eq. intros H. injection H as <-.
    rewrite push_event_ids. exact (Hu _ _ Hold).
  - rewrite lookup_insert_ne by congruence. apply Hu.
Qed.


(** * Failures of the processing step *)

Lemma logEventCurried_returns w h ev s :
  res (logEventCurried w h ev s) = Ok tt.
Proof.
  unfold logEventCurried, bind, try_catch, lift_err, emit, res.
  destruct (db_updateOne w _ _ _); reflexivity.
Qed.

(** Step 2 throws exactly what [processAsset] throws, after logging it. *)
Lemma step2_rethrows w h kind inputPath cfg requestId s e :
  res (processAsset w kind inputPath cfg (Some (logEventCurried w h)) s)
    = Throw e ->
  let step := step2_process w (logEventCurried w h) kind inputPath cfg
                requestId s in
  res step = Throw e /\
  In (event failed ("Processing failed: " +:+ err_message e))
     (log_events (acts step)).
Proof.
  intros Hr. unfold step2_process, try_catch, bind, res, acts in *.
  destruct (processAsset w kind inputPath cfg (Some (logEventCurried w h)) s)
    as [[r s1] t1]; simpl in *. subst r.
  pose proof (logEventCurried_returns w h
                (event failed ("Processing failed: " +:+ err_message e)) s1)
    as Hlog.
  unfold res in Hlog.
  destruct (logEventCurried w h _ s1) as [[r2 s2] t2] eqn:Hrun.
  simpl in *. subst r2. simpl. split; [reflexivity |].
  unfold log_events. rewrite !seen_app. apply in_or_app. right.
  apply in_or_app. left.
  assert (Ht2 : seen view_events t2 =
                [event failed ("Processing failed: " +:+ err_message e)]).
  { pose proof (always_logEvent view_events w h
                  (event failed ("Processing failed: " +:+ err_message e))
                  (fun _ t => t = [event failed
                                     ("Processing failed: "
                                      +:+ err_message e)])
                  (fun _ _ => eq_refl) eq_refl s1) as Hev.
    unfold acts in Hev. rewrite Hrun in Hev. exact Hev. }
  rewrite Ht2. left. reflexivity.
Qed.

(** For a PDF the processing step only depends on the read of the input and
    on the write of the output: Ghostscript cannot make it throw. *)
Lemma processAsset_pdf_returns w h inputPath cfg props file :
  pdfProps cfg = Some (Some props) ->
  fs_readFile w inputPath = Ok file ->
  (forall p b, fs_writeFile w p b = None) ->
  always view_outward
    (processAsset w pdf inputPath (Some cfg) (Some (logEventCurried w h)))
    (fun r _ => exists p, r = Ok p).
Proof.
  intros Hp Hf Hw. unfold processAsset, kind_and_own.
  run_simpl. rewrite Hp. run_simpl. run_det.
  run_with processPDF_run; [exact Hf |].
  destruct H as [[b ->] _].
  run_det. rewrite Hw. run_det. eexists. reflexivity.
Qed.

(** * What the transfer view keeps *)

Lemma view_transfer_self (a x : Action) : In x (view_transfer a) -> x = a.
Proof.
  destruct a; simpl; try contradiction;
    try (destruct (ev_status ev); simpl; try contradiction);
    intros [<- | []]; reflexivity.
Qed.

Lemma in_seen_transfer (a : Action) (t : list Action) :
  view_transfer a = [a] ->
  In a (seen view_transfer t) <-> In a t.
Proof.
  intros Hv. unfold seen. rewrite in_flat_map. split.
  - intros (a' & Hin & Hx). apply view_transfer_self in Hx. subst a'.
    exact Hin.
  - intros Hin. exists a. split; [exact Hin |]. rewrite Hv. left.
    reflexivity.
Qed.

Lemma append_assoc (a b c : string) : (a +:+ b) +:+ c = a +:+ (b +:+ c).
Proof.
  induction a as [| x a IH]; [reflexivity |].
  change (String x ((a +:+ b) +:+ c) = String x (a +:+ (b +:+ c))).
  f_equal. exact IH.
Qed.

(** The image executor writes a file whose name ends in [.webp]. *)
Lemma image_outputPath_webp w inputPath :
  exists stem, image_outputPath w inputPath = stem +:+ ".webp".
Proof.
  exists (path_join (path_join (cwd w) "processed")
            ("processed-" +:+ basename inputPath (extname inputPath))).
  unfold image_outputPath, path_join. cbv zeta.
  rewrite !append_assoc. reflexivity.
Qed.

Lemma processImage_returns_outputPath w inputPath compress cropParams fn s
  out :
  res (processImage w inputPath compress cropParams fn s) = Ok out ->
  out = image_outputPath w inputPath.
Proof.
  unfold processImage, bind, res, emit, ret. simpl. intros Hr.
  repeat match type of Hr with
         | context [match ?x with _ => _ end] =>
             lazymatch x with
             | context [match _ with _ => _ end] => fail
             | _ => destruct x as [[[? | ?] ?] ?]; simpl in Hr;
                    try discriminate
             end
         end.
  congruence.
Qed.


(** * Properties of the pipeline *)

(** C1.  The consumer acknowledges a delivered message when
    [processMessage] returns and rejects it without requeue when
    [processMessage] throws.  A message that does not parse, a message that
    lacks [source], [originalUrl] or [requestId], and a message whose asset
    kind is unknown make [processMessage] log an error and return: they are
    acknowledged, not rejected. *)
Theorem consumer_acks_unless_processMessage_throws
  (w : World) (content : Buffer) (s : LogStore) :
  let job := processMessage w content s in
  let o := consume w (Some content) s in
  (forall u, res job = Ok u -> acknowledgements (acts o) = [AAck]) /\
  (forall e, res job = Throw e ->
     acknowledgements (acts o) = [ANack false false]) /\
  ((forall m, json_parse w content <> PValue m) ->
     acknowledgements (acts o) = [AAck]) /\
  (forall m, json_parse w content = PValue m ->
     truthy_string (msg_source m) = false \/
     truthy_string (msg_originalUrl m) = false \/
     truthy_string (msg_requestId m) = false ->
     acknowledgements (acts o) = [AAck]) /\
  (forall m, json_parse w content = PValue m ->
     truthy_string (msg_source m) = true ->
     truthy_string (msg_originalUrl m) = true ->
     truthy_string (msg_requestId m) = true ->
     classification w (js_string (msg_originalUrl m)) = Ok unknown ->
     acknowledgements (acts o) = [AAck]).
Proof.
  intros job o. unfold o, job. rewrite consume_acks.
  split; [intros u -> ; reflexivity |].
  split; [intros e -> ; reflexivity |].
  split; [intros Hp; rewrite (processMessage_unparsed w content s Hp);
          reflexivity |].
  split.
  - intros m Hp Hf.
    rewrite (processMessage_missing_field w content s m Hp Hf). reflexivity.
  - intros m Hp H1 H2 H3 Hk.
    assert (Hr : res (getAssetType w (js_string (msg_originalUrl m)) s)
                 = Ok unknown).
    { destruct (getAssetType_run w (js_string (msg_originalUrl m)) s)
        as [_ Hr]. rewrite Hr. exact Hk. }
    rewrite (processMessage_unknown_kind w content s m Hp H1 H2 H3 Hr).
    reflexivity.
Qed.

(** C1, at three messages: text that is not JSON, a message without
    [requestId], and the location of an HTML page.  Each is acknowledged,
    and none is rejected. *)
Lemma unparsable_and_unknown_messages_are_acknowledged :
  let bad := Scenario.world (PSyntaxError (new_Error "Unexpected token"))
               (Some "image/jpeg") true Scenario.metadata_800x600
               Scenario.probe_30s Scenario.bytes 1000 (Ok "") None None in
  let anonymous := Scenario.image_world Scenario.body1 true 1000 in
  let page := Scenario.world (PValue (Scenario.queued Scenario.body1))
                (Some "text/html") true Scenario.metadata_800x600
                Scenario.probe_30s Scenario.bytes 1000 (Ok "") None None in
  (json_parse bad Scenario.bytes
     = PSyntaxError (new_Error "Unexpected token") /\
   acknowledgements (acts (consume bad (Some Scenario.bytes) ∅)) = [AAck] /\
   ~ In (ANack false false) (acts (consume bad (Some Scenario.bytes) ∅)))
  /\
  (json_parse anonymous Scenario.bytes = PValue Scenario.body1 /\
   msg_requestId Scenario.body1 = None /\
   acknowledgements (acts (consume anonymous (Some Scenario.bytes) ∅))
     = [AAck] /\
   ~ In (ANack false false)
       (acts (consume anonymous (Some Scenario.bytes) ∅)))
  /\
  (classification page "https://x/a.jpg" = Ok unknown /\
   acknowledgements (acts (consume page (Some Scenario.bytes) ∅)) = [AAck] /\
   ~ In (ANack false false) (acts (consume page (Some Scenario.bytes) ∅))).
Proof.
  vm_compute.
  repeat split; try reflexivity; intros H;
    repeat (destruct H as [H | H]; [discriminate |]); exact H.
Qed.

Lemma consumer_acks_witness :
  let w := Scenario.image_world Scenario.body1 true 1000 in
  json_parse w Scenario.bytes = PValue Scenario.body1 /\
  truthy_string (msg_requestId Scenario.body1) = false /\
  acknowledgements (acts (consume w (Some Scenario.bytes) ∅)) = [AAck].
Proof.
  split; [reflexivity |]. split; [reflexivity |].
  destruct (consumer_acks_unless_processMessage_throws
              (Scenario.image_world Scenario.body1 true 1000)
              Scenario.bytes ∅) as (_ & _ & _ & H & _).
  apply (H Scenario.body1); [reflexivity |]. right. right. reflexivity.
Defined.

(** C2.  An intake payload with [source], [originalUrl], [overwriteUrl] and
    an options bag that has an [imageProps] entry asking for no crop and no
    compression: where the kind is image, the download succeeds, the
    encoder, the file system and the log store do not fail, the asset still
    exists and the upload succeeds, the job runs to completion.  The image
    is encoded once, uncropped, at quality 100; one upload is issued; the
    last logged event is [completed]; the message is acknowledged. *)
Theorem image_job_with_image_options_completes
  (w : World) (src url out : string) (cfg : AssetConfig) (props : ImageProps)
  (data : Buffer) (s s' : LogStore) :
  let body := {| msg_requestId := None;
                 msg_source := Some src;
                 msg_originalUrl := Some url;
                 msg_overwriteUrl := Some out;
                 msg_assetConfig := Some cfg |} in
  let config := {| msg_requestId := Some (uuidv4 w);
                   msg_source := Some src;
                   msg_originalUrl := Some url;
                   msg_overwriteUrl := Some out;
                   msg_assetConfig := Some cfg |} in
  src <> "" -> url <> "" -> out <> "" -> uuidv4 w <> "" ->
  imageProps cfg = Some (Some props) ->
  img_cropParams props = None ->
  truthy_bool (img_compress props) = false ->
  connectRabbitMQ w = None ->
  json_parse w (json_stringify w config) = PValue config ->
  healthy w ->
  classification w url = Ok image ->
  fetch_get w url = Ok {| get_ok := true; get_body := data |} ->
  (exists r, fetch_head_exists w url = Ok r /\ head_ok r = true) ->
  (forall b, fetch_put w out b "image/jpeg" = Ok true) ->
  let intake := createAssetJob w body s in
  let o := consume w (Some (json_stringify w config)) s' in
  res intake = Ok (Res200 (uuidv4 w)) /\
  published (acts intake) = [json_stringify w config] /\
  (exists j, sharp_jobs (acts o) = [j] /\
             sharp_extract j = None /\ sharp_webp_quality j = 100) /\
  (exists b, uploads (acts o) = [(out, b, "image/jpeg")]) /\
  (exists before,
     log_events (acts o) = before ++ [event completed "Upload successful"]) /\
  acknowledgements (acts o) = [AAck].
Proof.
  intros body config Hsrc Hurl Hout Hid Hprops Hcrop Hcomp Hq Hjson Hh Hk
    Hget Hthere Hput intake o.
  pose proof (createAssetJob_run w body
                (truthy_string_Some _ Hsrc) (truthy_string_Some _ Hurl)
                (truthy_string_Some _ Hout) eq_refl Hq s) as [Hr Hp].
  split; [exact Hr |]. split; [exact Hp |].
  pose proof (consume_image_completes w config cfg props data Hh eq_refl
                Hprops Hcrop Hget Hthere Hput (json_stringify w config)
                Hjson (truthy_string_Some _ Hsrc) (truthy_string_Some _ Hurl)
                (truthy_string_Some _ Hid) Hk s') as H.
  of_run H. fold o in H. unfold_views.
  destruct H as ((j & size & Hj & Hx & _ & Hquality & _) & (b & _ & Hb)
                 & Hev & _ & Hack).
  split.
  { exists j. split; [exact Hj |]. split; [exact Hx |].
    rewrite Hquality. unfold image_quality. rewrite Hcomp. reflexivity. }
  split; [exists b; exact Hb |].
  split; [| exact Hack].
  rewrite Hev.
  exists [event pending "Processing started";
          event processing "File downloaded";
          event processing "Processing complete, uploading to DO Spaces"].
  reflexivity.
Qed.

(** C2, at the payload of scenario 1, which carries nothing but [source],
    [originalUrl] and [overwriteUrl]: the kind is image and every
    collaborator answers, yet the processing step throws, nothing is encoded
    or uploaded, the last logged event is [failed] and the message is
    rejected.  The same holds of a payload whose options bag is empty. *)
Lemma scenario_1_without_options_fails :
  let queued := Scenario.queued Scenario.body1 in
  let w := Scenario.image_world queued true 1000 in
  let o := consume w (Some (json_stringify w queued)) ∅ in
  let empty := {| imageProps := None; videoProps := None; pdfProps := None |} in
  let queued' := Scenario.queued (Scenario.with_config empty) in
  let w' := Scenario.image_world queued' true 1000 in
  let o' := consume w' (Some (json_stringify w' queued')) ∅ in
  (msg_assetConfig Scenario.body1 = None /\
   published (acts (createAssetJob w Scenario.body1 ∅))
     = [json_stringify w queued] /\
   json_parse w (json_stringify w queued) = PValue queued /\
   classification w "https://x/a.jpg" = Ok image /\
   sharp_jobs (acts o) = [] /\
   uploads (acts o) = [] /\
   last (log_events (acts o)) =
     Some (event failed
             "Processing failed: Cannot read properties of undefined (reading 'hasOwnProperty')") /\
   acknowledgements (acts o) = [ANack false false])
  /\
  (sharp_jobs (acts o') = [] /\
   uploads (acts o') = [] /\
   last (log_events (acts o')) =
     Some (event failed "Processing failed: Unsupported asset type: image") /\
   acknowledgements (acts o') = [ANack false false]).
Proof. vm_compute. repeat split; reflexivity. Qed.

Lemma image_job_with_image_options_witness :
  let props := {| img_compress := None; img_cropParams := None |} in
  let cfg := Scenario.image_config props in
  let queued := Scenario.queued (Scenario.with_config cfg) in
  let w := Scenario.image_world queued true 1000 in
  let o := consume w (Some (json_stringify w queued)) ∅ in
  healthy w /\
  classification w "https://x/a.jpg" = Ok image /\
  (exists b, uploads (acts o) = [("https://x/a-out.jpg", b, "image/jpeg")]) /\
  acknowledgements (acts o) = [AAck].
Proof.
  intros props cfg queued w o.
  assert (Hh : healthy w).
  { repeat split; intros; try reflexivity; eexists; reflexivity. }
  split; [exact Hh |]. split; [reflexivity |].
  assert (Hthere : exists r, fetch_head_exists w "https://x/a.jpg" = Ok r
                              /\ head_ok r = true).
  { eexists. split; reflexivity. }
  destruct (image_job_with_image_options_completes w "cms"
              "https://x/a.jpg" "https://x/a-out.jpg" cfg props
              Scenario.bytes ∅ ∅
              ltac:(discriminate) ltac:(discriminate) ltac:(discriminate)
              ltac:(discriminate) eq_refl eq_refl eq_refl eq_refl eq_refl
              Hh eq_refl eq_refl Hthere (fun b => eq_refl))
    as (_ & _ & _ & Hup & _ & Hack).
  split; [exact Hup | exact Hack].
Defined.

(** C3, at a job whose original asset is gone when the upload is due: the
    job is logged as [completed] and acknowledged, nothing is uploaded, and
    the cleanup of step 5 is never entered, so the two temporary files stay.
    The same job, with the asset still there, probes and unlinks both files. *)
Theorem skipped_upload_leaves_temporary_files :
  let props := {| img_compress := None; img_cropParams := None |} in
  let queued := Scenario.queued
                  (Scenario.with_config (Scenario.image_config props)) in
  let gone := consume (Scenario.image_world queued false 1000)
                (Some Scenario.bytes) ∅ in
  let there := consume (Scenario.image_world queued true 1000)
                 (Some Scenario.bytes) ∅ in
  (last (log_events (acts gone)) =
     Some (event completed
             "Original asset deleted by user. Skipping final upload.") /\
   acknowledgements (acts gone) = [AAck] /\
   uploads (acts gone) = [] /\
   In (AWriteFile "/tmp/asset-worker/input-1700000000000" Scenario.bytes)
      (acts gone) /\
   sharp_jobs (acts gone) <> [] /\
   cleanup_probes (acts gone) = [] /\
   (forall p, ~ In (AUnlink p) (acts gone)))
  /\
  (cleanup_probes (acts there) =
     ["/tmp/asset-worker/input-1700000000000";
      "/app/processed/processed-input-1700000000000.webp"] /\
   In (AUnlink "/tmp/asset-worker/input-1700000000000") (acts there) /\
   In (AUnlink "/app/processed/processed-input-1700000000000.webp")
      (acts there)).
Proof.
  vm_compute.
  repeat split; try reflexivity; try discriminate.
  - in_list.
  - intros p H. repeat (destruct H as [H | H]; [discriminate |]). exact H.
  - in_list.
  - in_list.
Qed.

(** The same on every job: when the existence check is negative, step 5 is
    not entered, whatever the rest of the world answers. *)
Lemma skipped_job_is_never_cleaned_up
  (w : World) (msg : Msg) (kind : AssetKind) (s : LogStore) :
  (forall u r, fetch_head_exists w u = Ok r -> head_ok r = false) ->
  cleanup_probes (acts (run_job w msg kind s)) = [].
Proof. intros Hgone. exact (run_job_gone_no_cleanup w msg kind Hgone s). Qed.


(** C4.  The video executor survives a failed probe: whatever the probes
    answer, the run reaches the encoder and its result is the encoder's.  A
    dimension probe that fails drops the crop filter with a warning event, a
    duration probe that fails drops the trim with a warning event, and each
    leaves the other transform to its own validation.  The image executor
    does not catch its probe: when the metadata cannot be read it throws the
    probe's error, logs no event and encodes nothing. *)
Theorem probe_failure_degrades_video_but_fails_image
  (w : World) (h : LogHandle) (inputPath : string)
  (cropParams : option CropParams) (trimParams : option TrimParams)
  (compress : option bool) (s : LogStore) :
  fs_mkdir w (path_join (cwd w) "processed") = None ->
  let fn := Some (logEventCurried w h) in
  let vid := processVideo w inputPath cropParams trimParams compress fn s in
  (exists cmd,
     ffmpeg_commands (acts vid) = [cmd] /\
     res vid = encoded_video w inputPath cmd /\
     (forall c e, cropParams = Some c ->
        probed_dimensions w inputPath = Throw e ->
        ff_videoFilters cmd = [] /\
        In (event_err warning
              ("Error retrieving video dimensions: " +:+ err_message e) e)
           (log_events (acts vid))) /\
     (forall t e, trimParams = Some t ->
        probed_duration w inputPath = Throw e ->
        ff_startTime cmd = None /\ ff_duration cmd = None /\
        In (event_err warning
              ("Error retrieving video duration: " +:+ err_message e) e)
           (log_events (acts vid))) /\
     (forall c vidWidth vidHeight, cropParams = Some c ->
        probed_dimensions w inputPath = Ok (vidWidth, vidHeight) ->
        crop_exceeds c vidWidth vidHeight = false ->
        ff_videoFilters cmd = [crop_filter c]) /\
     (forall t duration, trimParams = Some t ->
        probed_duration w inputPath = Ok duration ->
        trim_invalid t duration = false ->
        ff_startTime cmd = Some (trim_start t) /\
        ff_duration cmd = Some (trim_end t - trim_start t)%Q))
  /\
  (forall c e, sharp_metadata w inputPath = Throw e ->
     let img := processImage w inputPath compress (Some c) fn s in
     res img = Throw e /\ sharp_jobs (acts img) = [] /\
     log_events (acts img) = []).
Proof.
  intros Hm fn vid. split.
  - pose proof (processVideo_run w h inputPath cropParams trimParams
                  compress Hm s) as H.
    of_run H. fold fn vid in H. unfold_views.
    destruct H as (cmd & Hcmd & Hr & Hcrop & Htrim).
    exists cmd. split; [exact Hcmd |]. split; [exact Hr |].
    split; [| split; [| split]].
    + intros c e -> He. rewrite He in Hcrop. exact Hcrop.
    + intros t e -> He. rewrite He in Htrim. exact Htrim.
    + intros c vw vh -> Hd Hx. rewrite Hd, Hx in Hcrop. exact Hcrop.
    + intros t d -> Hd Hx. rewrite Hd, Hx in Htrim. exact Htrim.
  - intros c e He img.
    pose proof (processImage_run w h inputPath compress (Some c) Hm s) as H.
    of_run H. rewrite He in H. fold fn img in H. unfold_views. exact H.
Qed.

(** C4, at an image job with a crop whose metadata cannot be read: the
    executor throws without a warning event and without an output, and the
    job is logged as [failed] and rejected. *)
Lemma image_probe_failure_fails_job :
  let c := {| crop_x := 0; crop_y := 0; crop_width := 10; crop_height := 10 |} in
  let props := {| img_compress := None; img_cropParams := Some c |} in
  let queued := Scenario.queued
                  (Scenario.with_config (Scenario.image_config props)) in
  let e := new_Error "Input file contains unsupported image format" in
  let w := Scenario.world (PValue queued) (Some "image/jpeg") true (Throw e)
             Scenario.probe_30s Scenario.bytes 1000 (Ok "") None None in
  let h := {| h_originalUrl := "https://x/a.jpg"; h_requestId := "r";
              h_source := "cms" |} in
  let img := processImage w "/tmp/asset-worker/input-1" None (Some c)
               (Some (logEventCurried w h)) ∅ in
  let o := consume w (Some Scenario.bytes) ∅ in
  sharp_metadata w "/tmp/asset-worker/input-1" = Throw e /\
  res img = Throw e /\
  log_events (acts img) = [] /\
  sharp_jobs (acts img) = [] /\
  sharp_jobs (acts o) = [] /\
  last (log_events (acts o)) =
    Some (event failed
            "Processing failed: Input file contains unsupported image format")
  /\ acknowledgements (acts o) = [ANack false false].
Proof. vm_compute. repeat split; reflexivity. Qed.

Lemma probe_failure_witness :
  let e := new_Error "ffprobe exited with code 1" in
  let w := Scenario.video_world Scenario.body1 (Throw e) 1000 in
  let h := {| h_originalUrl := "https://x/a.mp4"; h_requestId := "r";
              h_source := "cms" |} in
  let c := {| crop_x := 0; crop_y := 0; crop_width := 10; crop_height := 10 |} in
  let vid := processVideo w "/tmp/asset-worker/input-1" (Some c) None None
               (Some (logEventCurried w h)) ∅ in
  fs_mkdir w (path_join (cwd w) "processed") = None /\
  exists cmd,
    ffmpeg_commands (acts vid) = [cmd] /\ ff_videoFilters cmd = [] /\
    res vid = Ok "/app/processed/compressed-input-1.mp4".
Proof.
  intros e w h c vid. split; [reflexivity |].
  destruct (probe_failure_degrades_video_but_fails_image w h
              "/tmp/asset-worker/input-1" (Some c) None None ∅ eq_refl)
    as [(cmd & Hcmd & Hr & Hcrop & _) _].
  exists cmd. split; [exact Hcmd |].
  split; [exact (proj1 (Hcrop c e eq_refl eq_refl)) |].
  exact (eq_trans Hr eq_refl).
Defined.





(** C6.  With the duration of the video probed, the requested trim window
    is applied iff [start >= 0], [end <= duration] and [start < end].  On a
    violation, and so for every window with [start >= end], the executor
    logs a warning event and sets neither a start time nor a duration on the
    command: what is encoded lasts as long as the original. *)
Theorem trim_applied_iff_window_valid
  (w : World) (h : LogHandle) (inputPath : string) (t : TrimParams)
  (cropParams : option CropParams) (compress : option bool) (duration : Q)
  (s : LogStore) :
  fs_mkdir w (path_join (cwd w) "processed") = None ->
  probed_duration w inputPath = Ok duration ->
  let fn := Some (logEventCurried w h) in
  let valid := (0 <= trim_start t)%Q /\ (trim_end t <= duration)%Q /\
               (trim_start t < trim_end t)%Q in
  let vid := processVideo w inputPath cropParams (Some t) compress fn s in
  exists cmd,
    ffmpeg_commands (acts vid) = [cmd] /\
    res vid = encoded_video w inputPath cmd /\
    (valid ->
     ff_startTime cmd = Some (trim_start t) /\
     ff_duration cmd = Some (trim_end t - trim_start t)%Q) /\
    (ff_startTime cmd <> None \/ ff_duration cmd <> None -> valid) /\
    (~ valid ->
     ff_startTime cmd = None /\ ff_duration cmd = None /\
     In (event warning (trim_warning w t duration)) (log_events (acts vid)) /\
     encoded_duration cmd duration = duration) /\
    ((trim_end t <= trim_start t)%Q ->
     ff_startTime cmd = None /\ ff_duration cmd = None /\
     In (event warning (trim_warning w t duration)) (log_events (acts vid)) /\
     encoded_duration cmd duration = duration).
Proof.
  intros Hm Hd fn valid vid.
  pose proof (processVideo_run w h inputPath cropParams (Some t) compress
                Hm s) as H.
  of_run H. rewrite Hd in H. fold fn vid in H. unfold_views.
  destruct H as (cmd & Hcmd & Hr & _ & Htrim).
  exists cmd. split; [exact Hcmd |]. split; [exact Hr |].
  destruct (trim_invalid t duration) eqn:Hx.
  - apply trim_invalid_true in Hx. fold valid in Hx.
    destruct Htrim as (Hs & Hdur & Hev).
    assert (Hskip : ff_startTime cmd = None /\ ff_duration cmd = None /\
                    In (event warning (trim_warning w t duration))
                       (seen view_events (acts vid)) /\
                    encoded_duration cmd duration = duration).
    { repeat split; try assumption.
      unfold encoded_duration. rewrite Hs, Hdur. reflexivity. }
    split; [intros Hv; exfalso; exact (Hx Hv) |].
    split; [intros [Hn | Hn]; exfalso; [exact (Hn Hs) | exact (Hn Hdur)] |].
    split; intros _; exact Hskip.
  - apply trim_invalid_false in Hx. fold valid in Hx.
    split; [intros _; exact Htrim |].
    split; [intros _; exact Hx |].
    split; [intros Hn; exfalso; exact (Hn Hx) |].
    intros Hle. exfalso. destruct Hx as (_ & _ & Hlt).
    exact (Qlt_not_le _ _ Hlt Hle).
Qed.

(** Scenario 3 of the specification: the window [{start: 50, end: 10}] on a
    video of 30 seconds. *)
Lemma trim_scenario_3_witness :
  let w := Scenario.video_world Scenario.body1 Scenario.probe_30s 1000 in
  let h := {| h_originalUrl := "https://x/a.mp4"; h_requestId := "r";
              h_source := "cms" |} in
  let t := {| trim_start := 50; trim_end := 10 |} in
  let vid := processVideo w "/tmp/asset-worker/input-1" None (Some t) None
               (Some (logEventCurried w h)) ∅ in
  fs_mkdir w (path_join (cwd w) "processed") = None /\
  probed_duration w "/tmp/asset-worker/input-1" = Ok 30%Q /\
  exists cmd,
    ffmpeg_commands (acts vid) = [cmd] /\
    ff_startTime cmd = None /\ ff_duration cmd = None /\
    encoded_duration cmd 30 = 30%Q.
Proof.
  intros w h t vid. split; [reflexivity |]. split; [reflexivity |].
  destruct (trim_applied_iff_window_valid w h "/tmp/asset-worker/input-1" t
              None None 30%Q ∅ eq_refl eq_refl)
    as (cmd & Hcmd & _ & _ & _ & _ & Hge).
  exists cmd. split; [exact Hcmd |].
  assert (Hle : (trim_end t <= trim_start t)%Q) by (vm_compute; discriminate).
  destruct (Hge Hle) as (Hs & Hd & _ & He).
  split; [exact Hs |]. split; [exact Hd | exact He].
Defined.




(** C8.  Opening the log twice for the same [(originalUrl, requestId)]
    records the request once: on a store without duplicate entries, after
    two calls of [createLogger] that return, the document of [originalUrl]
    holds exactly one request entry with that [requestId], and the second
    call has left the store as the first one made it. *)
Theorem createLogger_twice_one_entry
  (w : World) (requestId source source' originalUrl : string)
  (cfg cfg' : option AssetConfig) (s : LogStore) :
  unique_requests s ->
  let first := createLogger w requestId source originalUrl cfg s in
  let second :=
    createLogger w requestId source' originalUrl cfg' (store_of first) in
  (exists h1, res first = Ok h1) ->
  (exists h2, res second = Ok h2) ->
  length (entries_of (store_of second) originalUrl requestId) = 1%nat /\
  store_of second = store_of first.
Proof.
  intros Hu first second [h1 H1] [h2 H2].
  assert (E1 : first = (Ok h1, store_of first, acts first)).
  { unfold res, store_of, acts in *.
    destruct first as [[r s1] t1]; simpl in *. subst r. reflexivity. }
  assert (E2 : second = (Ok h2, store_of second, acts second)).
  { unfold res, store_of, acts in *.
    destruct second as [[r s2] t2]; simpl in *. subst r. reflexivity. }
  destruct (createLogger_store _ _ _ _ _ _ _ _ _ E1) as [Hdoc _].
  pose proof (createLogger_unique _ _ _ _ _ _ _ _ _ Hu E1) as Hu1.
  cbv zeta in Hdoc.
  set (new := {| rl_requestId := requestId; rl_source := source;
                 rl_processingConfig := cfg; rl_events := [] |}) in *.
  set (old := default [] (s !! originalUrl)) in *.
  assert (Hin : exists requests req,
            store_of first !! originalUrl = Some requests /\
            List.find (is_request requestId) requests = Some req).
  { destruct (List.find (is_request requestId) old) as [req |] eqn:Hfind.
    - exists old, req. split; assumption.
    - destruct (find_is_request_app_new requestId old new eq_refl)
        as [req Hreq].
      exists (old ++ [new]), req. split; assumption. }
  destruct Hin as (requests & req & Hlook & Hfind).
  assert (Hsame : store_of second = store_of first).
  { exact (createLogger_recorded _ _ _ _ _ _ _ _ _ _ _ Hlook Hfind E2). }
  split; [| exact Hsame].
  rewrite Hsame. unfold entries_of. rewrite Hlook. simpl.
  apply filter_is_request_once.
  - exact (Hu1 _ _ Hlook).
  - exact (find_is_request_Some _ _ _ Hfind).
Qed.

Lemma createLogger_twice_witness :
  let w := Scenario.image_world Scenario.body1 true 1000 in
  let first := createLogger w "req-1" "cms" "https://x/a.jpg" None ∅ in
  let second :=
    createLogger w "req-1" "cms" "https://x/a.jpg" None (store_of first) in
  unique_requests ∅ /\
  length (entries_of (store_of second) "https://x/a.jpg" "req-1") = 1%nat.
Proof.
  intros w first second. split; [exact unique_requests_empty |].
  apply (createLogger_twice_one_entry w "req-1" "cms" "cms"
           "https://x/a.jpg" None None ∅ unique_requests_empty).
  - eexists. vm_compute. reflexivity.
  - eexists. vm_compute. reflexivity.
Defined.

(** C9.  A PDF job that asks for compression, with an input above the
    floor: when the Ghostscript pass fails, [processPDF] logs a warning
    event and returns the bytes it read from the input, instead of throwing.
    An image or a video, in contrast, fails with the error of its encoder:
    the executor throws it, and step 2 of the worker logs a [failed] event
    and throws it again.  The processing step of the PDF job returns as long
    as its output can be written. *)
Theorem pdf_compression_failure_is_not_fatal
  (w : World) (h : LogHandle) (inputPath : string) (compress : option bool)
  (file : Buffer) (e : Error) (s : LogStore) :
  fs_readFile w inputPath = Ok file ->
  truthy_bool compress = true ->
  50 * 1024 < buffer_length file ->
  exec_gs w (gs_command (gs_outputPath w inputPath) inputPath) = Throw e ->
  let fn := Some (logEventCurried w h) in
  let doc := processPDF w inputPath compress fn s in
  (res doc = Ok file /\
   gs_runs (acts doc) = [gs_command (gs_outputPath w inputPath) inputPath] /\
   In (event_err warning
         ("Error during PDF compression: " +:+ err_message e) e)
      (log_events (acts doc)))
  /\
  (forall cropParams imageCompress j e',
     let img := processImage w inputPath imageCompress cropParams fn s in
     In j (sharp_jobs (acts img)) -> sharp_toFile w j = Some e' ->
     res img = Throw e')
  /\
  (forall cropParams trimParams compression c e',
     let vid :=
       processVideo w inputPath cropParams trimParams compression fn s in
     In c (ffmpeg_commands (acts vid)) ->
     ffmpeg_save w c (video_outputPath w inputPath) = Some e' ->
     res vid = Throw e')
  /\
  (forall kind cfg requestId e',
     res (processAsset w kind inputPath cfg fn s) = Throw e' ->
     let step := step2_process w (logEventCurried w h) kind inputPath cfg
                   requestId s in
     res step = Throw e' /\
     In (event failed ("Processing failed: " +:+ err_message e'))
        (log_events (acts step)))
  /\
  (forall cfg props,
     pdfProps cfg = Some (Some props) ->
     (forall p b, fs_writeFile w p b = None) ->
     exists p, res (processAsset w pdf inputPath (Some cfg) fn s) = Ok p).
Proof.
  intros Hf Hc Hsize Hgs fn doc.
  split; [| split; [| split; [| split]]].
  - pose proof (processPDF_run w h inputPath compress file Hf s) as H.
    of_run H. fold fn doc in H. unfold_views.
    destruct H as [_ H].
    assert (Hb : truthy_bool compress && (buffer_length file >? PDF_MIN_SIZE)
                 = true).
    { apply above_floor_iff. split; [exact Hc | exact Hsize]. }
    rewrite Hb, Hgs in H. destruct H as (Hruns & Hr & Hev).
    split; [exact Hr |]. split; [exact Hruns | exact Hev].
  - intros cropParams imageCompress j e' img Hj He.
    exact (processImage_propagates w h inputPath imageCompress cropParams s
             j e' Hj He).
  - intros cropParams trimParams compression c e' vid Hin He.
    exact (processVideo_propagates w h inputPath cropParams trimParams
             compression s c e' Hin He).
  - intros kind cfg requestId e' Hr.
    exact (step2_rethrows w h kind inputPath cfg requestId s e' Hr).
  - intros cfg props Hp Hw.
    exact (processAsset_pdf_returns w h inputPath cfg props file Hp Hf Hw s).
Qed.

Lemma pdf_compression_failure_witness :
  let file := repeat x25 (Z.to_nat 51201) in
  let e := new_Error "Command failed: gs" in
  let w := Scenario.world (PValue Scenario.body1) (Some "application/pdf")
             true Scenario.metadata_800x600 Scenario.probe_30s file 51201
             (Throw e) None None in
  let h := {| h_originalUrl := "https://x/a.pdf"; h_requestId := "r";
              h_source := "cms" |} in
  let p := "/tmp/asset-worker/input-1" in
  fs_readFile w p = Ok file /\
  50 * 1024 < buffer_length file /\
  exec_gs w (gs_command (gs_outputPath w p) p) = Throw e /\
  res (processPDF w p (Some true) (Some (logEventCurried w h)) ∅) = Ok file.
Proof.
  intros file e w h p.
  assert (Hsize : 50 * 1024 < buffer_length file) by (vm_compute; reflexivity).
  split; [reflexivity |]. split; [exact Hsize |]. split; [reflexivity |].
  exact (proj1 (proj1 (pdf_compression_failure_is_not_fatal w h p (Some true)
                         file e ∅ eq_refl eq_refl Hsize eq_refl))).
Defined.

(** C10.  In an image job every upload goes to [overwriteUrl] with the
    content type [image/jpeg], which is what [getContentType] answers for
    the kind, and the bytes it carries were read from the file the image
    executor wrote, whose name ends in [.webp].  When the job logs
    [Upload successful], that upload was issued. *)
Theorem image_upload_is_labelled_jpeg
  (w : World) (msg : Msg) (s : LogStore) :
  let o := run_job w msg image s in
  getContentType image = "image/jpeg" /\
  (forall u b ct, In (APut u b ct) (acts o) ->
     u = js_string (msg_overwriteUrl msg) /\ ct = "image/jpeg" /\
     exists j stem,
       In (ASharpToFile j) (acts o) /\
       sharp_output j = stem +:+ ".webp" /\
       fs_readFile w (sharp_output j) = Ok b) /\
  (In (ALogEvent (event completed "Upload successful")) (acts o) ->
   exists b,
     In (APut (js_string (msg_overwriteUrl msg)) b "image/jpeg") (acts o)) /\
  (forall inputPath compress cropParams fn s' out,
     res (processImage w inputPath compress cropParams fn s') = Ok out ->
     exists stem, out = stem +:+ ".webp").
Proof.
  intros o. split; [reflexivity |].
  pose proof (run_job_image_transfer w msg s) as [Hput Hdone].
  fold o in Hput, Hdone.
  split; [| split].
  - intros u b ct Hin.
    apply (in_seen_transfer (APut u b ct) _ eq_refl) in Hin.
    destruct (Hput u b ct Hin) as (-> & -> & j & Hjin & Hout & Hread).
    split; [reflexivity |]. split; [reflexivity |].
    destruct (image_outputPath_webp w (worker_inputPath w)) as [stem Hstem].
    exists j, stem.
    split; [exact (proj1 (in_seen_transfer (ASharpToFile j) _ eq_refl) Hjin) |].
    split; [rewrite Hout; exact Hstem | exact Hread].
  - intros Hin.
    apply (in_seen_transfer
             (ALogEvent (event completed "Upload successful")) _ eq_refl)
      in Hin.
    destruct (Hdone Hin) as [b Hb]. exists b.
    exact (proj1 (in_seen_transfer (APut _ b "image/jpeg") _ eq_refl) Hb).
  - intros inputPath compress cropParams fn s' out Hr.
    destruct (image_outputPath_webp w inputPath) as [stem Hstem].
    exists stem. rewrite <- Hstem.
    exact (processImage_returns_outputPath _ _ _ _ _ _ _ Hr).
Qed.

(** C10, at a job that goes through: the upload is there. *)
Lemma image_upload_witness :
  let props := {| img_compress := None; img_cropParams := None |} in
  let queued := Scenario.queued
                  (Scenario.with_config (Scenario.image_config props)) in
  let w := Scenario.image_world queued true 1000 in
  let o := run_job w queued image ∅ in
  In (APut "https://x/a-out.jpg" Scenario.bytes "image/jpeg") (acts o) /\
  exists j stem,
    In (ASharpToFile j) (acts o) /\ sharp_output j = stem +:+ ".webp".
Proof.
  intros props queued w o.
  assert (Hin : In (APut "https://x/a-out.jpg" Scenario.bytes "image/jpeg")
                   (acts o)).
  { vm_compute. in_list. }
  split; [exact Hin |].
  destruct (image_upload_is_labelled_jpeg w queued ∅) as (_ & Hput & _).
  destruct (Hput _ _ _ Hin) as (_ & _ & j & stem & Hj & Hs & _).
  exists j, stem. split; [exact Hj | exact Hs].
Defined.

(** * Beyond the pipeline's claims *)

(** ** How a run changes the log store

    The store is only written by [createLogger] and by the appender it
    returns.  A relation between stores that is reflexive and transitive
    and that these two respect is respected by every run of the worker. *)

Section Changes.
Context (R : LogStore -> LogStore -> Prop) `{!PreOrder R}.
Context {A B : Type}.

Lemma changes_ret (a : A) : changes R (ret a).
Proof. intros s. reflexivity. Qed.

Lemma changes_throw (e : Error) : changes R (@throw A e).
Proof. intros s. reflexivity. Qed.

Lemma changes_emit (a : Action) : changes R (emit a).
Proof. intros s. reflexivity. Qed.

Lemma changes_lift (r : result A) : changes R (lift r).
Proof. intros s. destruct r; reflexivity. Qed.

Lemma changes_lift_err (o : option Error) : changes R (lift_err o).
Proof. intros s. destruct o; reflexivity. Qed.

Lemma changes_bind (m : M A) (f : A -> M B) :
  changes R m -> (forall a, changes R (f a)) -> changes R (bind m f).
Proof.
  intros Hm Hf s. specialize (Hm s). unfold store_of, bind in *.
  destruct (m s) as [[[a | e] s1] t1]; simpl in *; [| exact Hm].
  specialize (Hf a s1). unfold store_of in Hf.
  destruct (f a s1) as [[r s2] t2]; simpl in *.
  transitivity s1; assumption.
Qed.

Lemma changes_try_catch (m : M A) (h : Error -> M A) :
  changes R m -> (forall e, changes R (h e)) -> changes R (try_catch m h).
Proof.
  intros Hm Hh s. specialize (Hm s). unfold store_of, try_catch in *.
  destruct (m s) as [[[a | e] s1] t1]; simpl in *; [exact Hm |].
  specialize (Hh e s1). unfold store_of in Hh.
  destruct (h e s1) as [[r s2] t2]; simpl in *.
  transitivity s1; assumption.
Qed.
End Changes.

(** The handle [createLogger] returns names the request it was called for. *)
Lemma createLogger_handle w requestId source originalUrl cfg s h :
  res (createLogger w requestId source originalUrl cfg s) = Ok h ->
  h = {| h_originalUrl := originalUrl; h_requestId := requestId;
         h_source := source |}.
Proof.
  unfold createLogger, bind, lift_err, get_store, put_store, ret, throw, res.
  destruct (db_findOne w originalUrl); [discriminate |]. simpl.
  destruct (s !! originalUrl) as [requests |]; simpl.
  - destruct (List.find (is_request requestId) requests); simpl.
    + congruence.
    + destruct (db_save w originalUrl); simpl; congruence.
  - destruct (db_create w originalUrl); [discriminate |]. simpl.
    destruct (db_save w originalUrl); simpl; congruence.
Qed.

Lemma changes_bind_createLogger {B : Type} (R : LogStore -> LogStore -> Prop)
  `{!PreOrder R} w requestId source originalUrl cfg (f : LogHandle -> M B) :
  changes R (createLogger w requestId source originalUrl cfg) ->
  changes R (f {| h_originalUrl := originalUrl; h_requestId := requestId;
                  h_source := source |}) ->
  changes R (bind (createLogger w requestId source originalUrl cfg) f).
Proof.
  intros Hm Hf s. specialize (Hm s).
  pose proof (createLogger_handle w requestId source originalUrl cfg s) as Hh.
  unfold store_of, bind, res in *.
  destruct (createLogger w requestId source originalUrl cfg s)
    as [[[h | e] s1] t1]; simpl in *; [| exact Hm].
  rewrite (Hh h eq_refl). specialize (Hf s1). unfold store_of in Hf.
  destruct (f _ s1) as [[r s2] t2]; simpl in *.
  transitivity s1; assumption.
Qed.

(** One structural step; the two writers are the leaves, and what is known
    of them is at hand as a hypothesis. *)
Ltac changes_step :=
  lazymatch goal with
  | |- changes _ (bind (createLogger _ _ _ _ _) _) =>
      apply changes_bind_createLogger; [typeclasses eauto | auto |]
  | |- changes _ (logEventCurried _ _ _) => auto
  | |- changes _ (bind _ _) =>
      apply changes_bind; [typeclasses eauto | | intros ?]
  | |- changes _ (try_catch _ _) =>
      apply changes_try_catch; [typeclasses eauto | | intros ?]
  | |- changes _ (ret _) => apply changes_ret; typeclasses eauto
  | |- changes _ (throw _) => apply changes_throw; typeclasses eauto
  | |- changes _ (lift _) => apply changes_lift; typeclasses eauto
  | |- changes _ (lift_err _) => apply changes_lift_err; typeclasses eauto
  | |- changes _ (emit _) => apply changes_emit; typeclasses eauto
  | |- changes _ (logger _ _) => apply changes_emit; typeclasses eauto
  | |- changes _ (match ?x with _ => _ end) => destruct x
  | |- changes _ (if ?x then _ else _) => destruct x
  end.

Create HintDb worker.
#[local] Hint Unfold processMessage parse_message run_job step1_download
  step2_process step3_read step4_upload step5_cleanup cleanup_file
  processAsset kind_and_own processImage image_crop processVideo
  video_validCrop video_validTrim video_applyTrim video_applyCrop
  video_compression getVideoDimensions getVideoDuration processPDF
  pdf_compress_pass getAssetType publicAssetExists downloadFile uploadFile
  log_with parsed_requestId consume : worker.

Ltac changes_all := autounfold with worker; repeat changes_step.

(** What the two writers respect for the request of a message, the job of
    that message respects. *)
Section Job_writes.
Context (R : LogStore -> LogStore -> Prop) `{!PreOrder R}.
Context (w : World) (msg : Msg).
Hypothesis createLogger_changes :
  forall source cfg,
    changes R
      (createLogger w (js_string (msg_requestId msg)) source
         (js_string (msg_originalUrl msg)) cfg).
Hypothesis logEvent_changes :
  forall source ev,
    changes R
      (logEventCurried w
         {| h_originalUrl := js_string (msg_originalUrl msg);
            h_requestId := js_string (msg_requestId msg);
            h_source := source |} ev).

Lemma run_job_changes kind : changes R (run_job w msg kind).
Proof. changes_all. Qed.

Lemma classified_job_changes :
  changes R
    (let! assetType := getAssetType w (js_string (msg_originalUrl msg)) in
     if kind_eqb assetType unknown
     then
       logger lv_error
         ("Could not determine asset type for URL: "
          +:+ js_string (msg_originalUrl msg))
     else run_job w msg assetType).
Proof.
  changes_step; [changes_all |].
  changes_step; [changes_all | apply run_job_changes].
Qed.
End Job_writes.

(** Whatever the two writers respect for every request, the consumer and
    the worker respect. *)
Section Writers.
Context (R : LogStore -> LogStore -> Prop) `{!PreOrder R} (w : World).
Hypothesis createLogger_changes :
  forall requestId source originalUrl cfg,
    changes R (createLogger w requestId source originalUrl cfg).
Hypothesis logEvent_changes : forall h ev, changes R (logEventCurried w h ev).

Lemma processMessage_changes content : changes R (processMessage w content).
Proof.
  unfold processMessage.
  changes_step; [changes_all |].
  changes_step; [| changes_all].
  apply classified_job_changes; auto.
Qed.

Lemma consume_changes msg : changes R (consume w msg).
Proof.
  unfold consume. destruct msg as [content |]; [| changes_all].
  changes_step; [| changes_all].
  changes_step; [apply processMessage_changes | changes_all].
Qed.

Lemma deliver_changes deliveries : changes R (deliver w deliveries).
Proof.
  induction deliveries as [| msg rest IH]; simpl; [changes_all |].
  changes_step; [| exact IH].
  changes_step; [apply consume_changes | changes_all].
Qed.

Lemma startWorker_changes deliveries : changes R (startWorker w deliveries).
Proof.
  unfold startWorker.
  changes_step; [changes_all |].
  changes_step; [changes_all | apply deliver_changes].
Qed.
End Writers.

(** *** What the two writers write *)

Lemma createLogger_writes w requestId source originalUrl cfg s :
  let s1 := store_of (createLogger w requestId source originalUrl cfg s) in
  let requests := default [] (s !! originalUrl) in
  (forall u, u <> originalUrl -> s1 !! u = s !! u) /\
  (s1 !! originalUrl = s !! originalUrl \/
   (s !! originalUrl = None /\ s1 !! originalUrl = Some []) \/
   (List.find (is_request requestId) requests = None /\
    s1 !! originalUrl =
      Some (requests ++ [ {| rl_requestId := requestId;
                             rl_source := source;
                             rl_processingConfig := cfg;
                             rl_events := [] |} ]))).
Proof.
  unfold createLogger, bind, lift_err, get_store, put_store, ret, throw,
    store_of.
  destruct (db_findOne w originalUrl); simpl; [split; auto |].
  destruct (s !! originalUrl) as [requests |] eqn:Hdoc; simpl.
  - destruct (List.find (is_request requestId) requests) eqn:Hfind; simpl;
      [split; auto |].
    destruct (db_save w originalUrl); simpl; [split; auto |].
    split.
    + intros u Hu. rewrite lookup_insert_ne by congruence. reflexivity.
    + right. right. rewrite lookup_insert_eq. split; reflexivity.
  - destruct (db_create w originalUrl); simpl; [split; auto |].
    destruct (db_save w originalUrl); simpl.
    + split.
      * intros u Hu. rewrite lookup_insert_ne by congruence. reflexivity.
      * right. left. rewrite lookup_insert_eq. split; reflexivity.
    + split.
      * intros u Hu. rewrite !lookup_insert_ne by congruence. reflexivity.
      * right. right. rewrite lookup_insert_eq. split; reflexivity.
Qed.

Lemma logEventCurried_writes w h ev s :
  store_of (logEventCurried w h ev s) =
  match db_updateOne w (h_originalUrl h) (h_requestId h) (stored_event ev) with
  | None => updateOne (h_originalUrl h) (h_requestId h) (stored_event ev) s
  | Some _ => s
  end.
Proof.
  unfold logEventCurried, bind, try_catch, lift_err, emit, get_store,
    put_store, logger, store_of, stored_event.
  destruct (db_updateOne w _ _ _); reflexivity.
Qed.

(** *** The invariant *)

#[local] Instance keeps_unique_preorder : PreOrder keeps_unique.
Proof.
  split; [intros s H; exact H | intros s1 s2 s3 H1 H2 H; exact (H2 (H1 H))].
Qed.

Lemma unique_requests_insert originalUrl requests s :
  NoDup (map rl_requestId requests) ->
  unique_requests s -> unique_requests (<[originalUrl := requests]> s).
Proof.
  intros Hn Hu u d.
  destruct (String.eqb_spec u originalUrl) as [-> | Hne].
  - rewrite lookup_insert_eq. intros H. injection H as <-. exact Hn.
  - rewrite lookup_insert_ne by congruence. apply Hu.
Qed.

Lemma createLogger_keeps_unique w requestId source originalUrl cfg :
  changes keeps_unique (createLogger w requestId source originalUrl cfg).
Proof.
  intros s Hu u d Hd.
  destruct (createLogger_writes w requestId source originalUrl cfg s)
    as [Hother Hdoc].
  destruct (String.eqb_spec u originalUrl) as [-> | Hne];
    [| rewrite (Hother u Hne) in Hd; exact (Hu _ _ Hd)].
  destruct Hdoc as [Hsame | [[_ Hnew] | [Hfind Hnew]]].
  - rewrite Hsame in Hd. exact (Hu _ _ Hd).
  - rewrite Hnew in Hd. injection Hd as <-. apply NoDup_nil_2.
  - rewrite Hnew in Hd. injection Hd as <-.
    rewrite map_app. simpl. apply NoDup_app.
    split; [| split; [| apply NoDup_singleton]].
    + destruct (s !! originalUrl) as [old |] eqn:Hold; simpl;
        [exact (Hu _ _ Hold) | apply NoDup_nil_2].
    + intros x Hx Hx'. apply list_elem_of_singleton in Hx'. subst x.
      exact (find_None_absent _ _ Hfind Hx).
Qed.

Lemma logEventCurried_keeps_unique w h ev :
  changes keeps_unique (logEventCurried w h ev).
Proof.
  intros s Hu. rewrite logEventCurried_writes.
  destruct (db_updateOne w _ _ _); [exact Hu | apply updateOne_unique, Hu].
Qed.

(** *** Growth *)

Lemma entry_extends_refl req : entry_extends req req.
Proof.
  repeat split. exists []. rewrite app_nil_r. reflexivity.
Qed.

Lemma entry_extends_trans r1 r2 r3 :
  entry_extends r1 r2 -> entry_extends r2 r3 -> entry_extends r1 r3.
Proof.
  intros (Hi & Hs & Hc & m1 & He) (Hi' & Hs' & Hc' & m2 & He').
  repeat split; try congruence.
  exists (m1 ++ m2). rewrite He', He, app_assoc. reflexivity.
Qed.

Lemma Forall2_entry_extends_refl d : Forall2 entry_extends d d.
Proof. induction d; constructor; auto using entry_extends_refl. Qed.

Lemma document_extends_refl d : document_extends d d.
Proof.
  exists d, []. rewrite app_nil_r.
  split; [reflexivity | apply Forall2_entry_extends_refl].
Qed.

Lemma Forall2_entry_extends_trans d1 d2 d3 :
  Forall2 entry_extends d1 d2 -> Forall2 entry_extends d2 d3 ->
  Forall2 entry_extends d1 d3.
Proof.
  intros H. revert d3. induction H as [| r1 r2 d1 d2 Hr _ IH]; intros d3 H23.
  - inversion H23. constructor.
  - inversion H23 as [| ? r3 ? d3' Hr' H' ]; subst.
    constructor; [exact (entry_extends_trans _ _ _ Hr Hr') | exact (IH _ H')].
Qed.

Lemma document_extends_trans d1 d2 d3 :
  document_extends d1 d2 -> document_extends d2 d3 -> document_extends d1 d3.
Proof.
  intros (k1 & a1 & -> & H1) (k2 & a2 & -> & H2).
  apply Forall2_app_inv_l in H2 as (k & a & Hk & Ha & ->).
  exists k, (a ++ a2). split; [rewrite app_assoc; reflexivity |].
  exact (Forall2_entry_extends_trans _ _ _ H1 Hk).
Qed.

#[local] Instance store_extends_preorder : PreOrder store_extends.
Proof.
  split.
  - intros s u d Hd. exists d. split; [exact Hd | apply document_extends_refl].
  - intros s1 s2 s3 H12 H23 u d Hd.
    destruct (H12 u d Hd) as (d2 & Hd2 & He2).
    destruct (H23 u d2 Hd2) as (d3 & Hd3 & He3).
    exists d3. split; [exact Hd3 |].
    exact (document_extends_trans _ _ _ He2 He3).
Qed.

Lemma push_event_extends requestId ev d :
  Forall2 entry_extends d (push_event requestId ev d).
Proof.
  induction d as [| req rest IH]; simpl; [constructor |].
  destruct (is_request requestId req).
  - constructor; [| apply Forall2_entry_extends_refl].
    repeat split. exists [ev]. reflexivity.
  - constructor; [apply entry_extends_refl | exact IH].
Qed.

Lemma store_extends_insert originalUrl d' s :
  (forall d, s !! originalUrl = Some d -> document_extends d d') ->
  store_extends s (<[originalUrl := d']> s).
Proof.
  intros H u d Hd.
  destruct (String.eqb_spec u originalUrl) as [-> | Hne].
  - exists d'. rewrite lookup_insert_eq. split; [reflexivity | exact (H d Hd)].
  - exists d. rewrite lookup_insert_ne by congruence.
    split; [exact Hd | apply document_extends_refl].
Qed.

Lemma createLogger_extends w requestId source originalUrl cfg :
  changes store_extends (createLogger w requestId source originalUrl cfg).
Proof.
  intros s u d Hd.
  destruct (createLogger_writes w requestId source originalUrl cfg s)
    as [Hother Hdoc].
  destruct (String.eqb_spec u originalUrl) as [-> | Hne].
  - destruct Hdoc as [Hsame | [[Hnone _] | [_ Hnew]]].
    + exists d. rewrite Hsame.
      split; [exact Hd | apply document_extends_refl].
    + congruence.
    + rewrite Hd in Hnew. simpl in Hnew. eexists. split; [exact Hnew |].
      eexists d, _. split; [reflexivity | apply Forall2_entry_extends_refl].
  - exists d. rewrite (Hother u Hne).
    split; [exact Hd | apply document_extends_refl].
Qed.

Lemma logEventCurried_extends w h ev :
  changes store_extends (logEventCurried w h ev).
Proof.
  intros s. rewrite logEventCurried_writes.
  destruct (db_updateOne w _ _ _); [reflexivity |].
  unfold updateOne.
  destruct (s !! h_originalUrl h) as [requests |] eqn:Hdoc; [| reflexivity].
  destruct (existsb _ requests); [| reflexivity].
  apply store_extends_insert. intros d Hd.
  assert (d = requests) as -> by congruence.
  exists (push_event (h_requestId h) (stored_event ev) requests), [].
  rewrite app_nil_r. split; [reflexivity | apply push_event_extends].
Qed.

(** *** Isolation *)

#[local] Instance only_touches_preorder originalUrl requestId :
  PreOrder (only_touches originalUrl requestId).
Proof.
  split.
  - intros s. split; [intros; reflexivity | reflexivity].
  - intros s1 s2 s3 [H1 H1'] [H2 H2']. split.
    + intros u Hu. rewrite (H2 u Hu). exact (H1 u Hu).
    + rewrite H2'. exact H1'.
Qed.

Lemma others_push_event requestId ev d :
  others requestId (push_event requestId ev d) = others requestId d.
Proof.
  unfold others. induction d as [| req rest IH]; simpl; [reflexivity |].
  destruct (is_request requestId req) eqn:Hr; simpl.
  - unfold is_request in *. simpl. rewrite Hr. reflexivity.
  - rewrite Hr. simpl. rewrite IH. reflexivity.
Qed.

Lemma others_app_own requestId d req :
  rl_requestId req = requestId ->
  others requestId (d ++ [req]) = others requestId d.
Proof.
  intros Hreq. unfold others. rewrite List.filter_app. simpl.
  apply is_request_iff in Hreq. rewrite Hreq. simpl. apply app_nil_r.
Qed.

Lemma createLogger_only_touches w requestId source originalUrl cfg :
  changes (only_touches originalUrl requestId)
    (createLogger w requestId source originalUrl cfg).
Proof.
  intros s.
  destruct (createLogger_writes w requestId source originalUrl cfg s)
    as [Hother Hdoc].
  split; [exact Hother |].
  destruct Hdoc as [-> | [[-> ->] | [_ ->]]]; [reflexivity | reflexivity |].
  simpl. apply others_app_own. reflexivity.
Qed.

Lemma logEventCurried_only_touches w h ev :
  changes (only_touches (h_originalUrl h) (h_requestId h))
    (logEventCurried w h ev).
Proof.
  intros s. rewrite logEventCurried_writes.
  destruct (db_updateOne w _ _ _); [reflexivity |].
  unfold updateOne.
  destruct (s !! h_originalUrl h) as [requests |] eqn:Hdoc; [| reflexivity].
  destruct (existsb _ requests); [| reflexivity].
  split.
  - intros u Hu. rewrite lookup_insert_ne by congruence. reflexivity.
  - rewrite lookup_insert_eq, Hdoc. simpl. apply others_push_event.
Qed.

(** ** The log store under the worker *)

(** X1.  Whatever is delivered and whatever the collaborators answer, the
    worker keeps the invariant of the log store: if no document holds two
    request entries with the same identifier when it starts, none does
    when it is done. *)
Theorem worker_keeps_requests_unique
  (w : World) (deliveries : list (option Buffer)) (s : LogStore) :
  unique_requests s ->
  unique_requests (store_of (startWorker w deliveries s)).
Proof.
  apply (startWorker_changes keeps_unique w).
  - apply createLogger_keeps_unique.
  - apply logEventCurried_keeps_unique.
Qed.

(** X1, at the same message delivered twice to a fresh store: the document
    of the asset ends with one entry for the request. *)
Lemma worker_keeps_requests_unique_witness :
  let props := {| img_compress := None; img_cropParams := None |} in
  let queued := Scenario.queued
                  (Scenario.with_config (Scenario.image_config props)) in
  let w := Scenario.image_world queued true 1000 in
  let s' := store_of
              (startWorker w [Some Scenario.bytes; Some Scenario.bytes] ∅) in
  unique_requests s' /\
  map rl_requestId (default [] (s' !! "https://x/a.jpg"))
    = ["1b9d6bcd-bbfd-4b2d-9b5d-ab8dfbbd4bed"].
Proof.
  split.
  - apply worker_keeps_requests_unique.
    intros u d H. rewrite lookup_empty in H. discriminate.
  - vm_compute. reflexivity.
Defined.

(** X2.  The log is append-only under the worker: every document that was
    in the store is still there, its request entries are still there in
    the same order with the same identifier, source and options, and the
    events of each are a prefix of what the entry holds afterwards. *)
Theorem worker_only_appends_to_the_log
  (w : World) (deliveries : list (option Buffer)) (s : LogStore) :
  let s' := store_of (startWorker w deliveries s) in
  store_extends s s' /\
  (forall originalUrl d i req,
     s !! originalUrl = Some d -> d !! i = Some req ->
     exists d' req' more,
       s' !! originalUrl = Some d' /\ d' !! i = Some req' /\
       rl_requestId req' = rl_requestId req /\
       rl_events req' = rl_events req ++ more).
Proof.
  assert (H : store_extends s (store_of (startWorker w deliveries s))).
  { apply (startWorker_changes store_extends w).
    - apply createLogger_extends.
    - apply logEventCurried_extends. }
  split; [exact H |].
  intros u d i req Hd Hi.
  destruct (H u d Hd) as (d' & Hd' & kept & added & -> & Hk).
  destruct (Forall2_lookup_l _ _ _ _ _ Hk Hi)
    as (req' & Hi' & Hid & _ & _ & more & Hev).
  exists (kept ++ added), req', more.
  split; [exact Hd' |].
  split; [apply lookup_app_l_Some; exact Hi' |].
  split; [exact Hid | exact Hev].
Qed.

Lemma processMessage_dropped w content s :
  (forall m, json_parse w content = PValue m ->
     truthy_string (msg_source m) = false \/
     truthy_string (msg_originalUrl m) = false \/
     truthy_string (msg_requestId m) = false) ->
  store_of (processMessage w content s) = s.
Proof.
  intros H. unfold processMessage, parse_message, bind, try_catch, store_of.
  destruct (json_parse w content) as [e | | m]; try reflexivity.
  assert (Hc : negb (truthy_string (msg_source m))
               || negb (truthy_string (msg_originalUrl m))
               || negb (truthy_string (msg_requestId m)) = true).
  { destruct (H m eq_refl) as [-> | [-> | ->]]; simpl;
      rewrite ?orb_true_r; reflexivity. }
  rewrite Hc. reflexivity.
Qed.

Lemma processMessage_only_touches w content s m :
  json_parse w content = PValue m ->
  only_touches (js_string (msg_originalUrl m)) (js_string (msg_requestId m))
    s (store_of (processMessage w content s)).
Proof.
  intros Hp.
  destruct (negb (truthy_string (msg_source m))
            || negb (truthy_string (msg_originalUrl m))
            || negb (truthy_string (msg_requestId m))) eqn:Hc.
  - assert (Hs : store_of (processMessage w content s) = s).
    { unfold processMessage, parse_message, bind, try_catch, store_of.
      rewrite Hp, Hc. reflexivity. }
    rewrite Hs. reflexivity.
  - pose proof (classified_job_changes
                  (only_touches (js_string (msg_originalUrl m))
                     (js_string (msg_requestId m))) w m
                  (fun source cfg =>
                     createLogger_only_touches w _ source _ cfg)
                  (fun source ev =>
                     logEventCurried_only_touches w
                       {| h_originalUrl := js_string (msg_originalUrl m);
                          h_requestId := js_string (msg_requestId m);
                          h_source := source |} ev) s) as H.
    unfold processMessage, parse_message, bind, try_catch, store_of in *.
    rewrite Hp, Hc. simpl.
    destruct (getAssetType w (js_string (msg_originalUrl m)) s)
      as [[[k | e] s1] t1]; simpl in *; [| exact H].
    destruct (if kind_eqb k unknown then _ else _) as [[r s2] t2].
    exact H.
Qed.

(** X3.  A job writes nothing but its own entry: handling a message leaves
    the documents of all other assets as they were, and in the document of
    its asset it leaves the entries of all other requests as they were.  A
    message that does not parse, or that lacks a required field, leaves
    the whole store as it was. *)
Theorem job_only_touches_its_own_entry
  (w : World) (content : Buffer) (s : LogStore) :
  let s' := store_of (processMessage w content s) in
  match json_parse w content with
  | PValue m =>
      only_touches (js_string (msg_originalUrl m))
        (js_string (msg_requestId m)) s s' /\
      (truthy_string (msg_source m) = false \/
       truthy_string (msg_originalUrl m) = false \/
       truthy_string (msg_requestId m) = false -> s' = s)
  | _ => s' = s
  end.
Proof.
  cbv zeta.
  destruct (json_parse w content) as [e | | m] eqn:Hp.
  - apply processMessage_dropped. intros m Hm. congruence.
  - apply processMessage_dropped. intros m Hm. congruence.
  - split; [apply processMessage_only_touches, Hp |].
    intros Hf. apply processMessage_dropped.
    intros m' Hm. assert (m' = m) as -> by congruence. exact Hf.
Qed.

(** ** How a job settles *)

Lemma step1_settles w h originalUrl inputPath requestId :
  always view_settle
    (step1_download w (logEventCurried w h) originalUrl inputPath requestId)
    (fun r t =>
       match r with
       | Ok _ => t = []
       | Throw e =>
           t = [ALogEvent
                  (event failed ("Download failed: " +:+ err_message e))]
       end).
Proof. unfold step1_download, downloadFile. run_auto; reflexivity. Qed.

Lemma step2_settles w h kind inputPath cfg requestId :
  always view_settle
    (step2_process w (logEventCurried w h) kind inputPath cfg requestId)
    (fun r t =>
       match r with
       | Ok _ => t = []
       | Throw e =>
           t = [ALogEvent
                  (event failed ("Processing failed: " +:+ err_message e))]
       end).
Proof.
  unfold step2_process. run_step.
  run_silent. destruct r as [p | e]; run_auto; reflexivity.
Qed.

Lemma step3_settles w p :
  always view_settle (step3_read w p) (fun _ t => t = []).
Proof. unfold step3_read. run_auto; reflexivity. Qed.

Lemma step4_settles w h kind originalUrl overwriteUrl buffer requestId :
  always view_settle
    (step4_upload w (logEventCurried w h) kind originalUrl overwriteUrl
       buffer requestId)
    (fun r t =>
       let put := APut overwriteUrl buffer (getContentType kind) in
       match r with
       | Ok true =>
           t = [ALogEvent
                  (event completed
                     "Original asset deleted by user. Skipping final upload.")]
       | Ok false =>
           t = [put; ALogEvent (event completed "Upload successful")] /\
           uploaded w overwriteUrl buffer (getContentType kind) = Ok tt
       | Throw e =>
           t = [put;
                ALogEvent
                  (event failed ("Upload failed: " +:+ err_message e))] /\
           uploaded w overwriteUrl buffer (getContentType kind) = Throw e
       end).
Proof.
  unfold step4_upload, publicAssetExists, uploaded, uploadFile.
  run_auto; simpl; try reflexivity;
    (split; [reflexivity |]);
    unfold bind, emit, lift, res; simpl; use_cases; simpl; use_cases;
    reflexivity.
Qed.

Lemma step5_settles w inputPath processedPath requestId :
  always view_settle (step5_cleanup w inputPath processedPath requestId)
    (fun r t =>
       r = Ok tt /\
       (t = [AExists inputPath] \/
        t = [AExists inputPath; AExists processedPath])).
Proof.
  unfold step5_cleanup, cleanup_file.
  run_auto; simpl; auto.
Qed.

Lemma run_job_settles w msg kind :
  always view_settle (run_job w msg kind) (Settled w msg kind).
Proof.
  unfold run_job.
  run_silent. destruct r as [handle | e]; [| constructor].
  run_silent. destruct r; [| constructor].
  run_silent. destruct r; [| constructor].
  run_silent. destruct r; [| constructor].
  run_with step1_settles.
  destruct r as [[] | e]; subst;
    [| apply (settled_failed w msg kind "Download failed: "); auto].
  run_with step2_settles.
  destruct r as [processedPath | e]; subst;
    [| apply (settled_failed w msg kind "Processing failed: "); auto].
  run_with step3_settles. subst.
  destruct r as [processedBuffer | e]; [| constructor].
  run_with step4_settles. cbv zeta in H.
  destruct r as [[|] | e].
  - subst. run_step. simpl. constructor.
  - destruct H as [-> Hup].
    run_with step5_settles. destruct H as [-> H]. simpl.
    apply (settled_uploaded w msg kind processedBuffer processedPath);
      [exact Hup |].
    destruct H as [-> | ->]; auto.
  - destruct H as [-> Hup]. simpl. constructor. exact Hup.
Qed.

Lemma parse_message_returns {V : Type} (view : Action -> list V) w content :
  (forall lv text, view (ALogger lv text) = []) ->
  always view (parse_message w content)
    (fun r t => t = [] /\ exists parsed, r = Ok parsed).
Proof.
  intros Hq. unfold parse_message.
  run_auto; rewrite ?Hq; simpl; split; eauto.
Qed.

Lemma getAssetType_returns {V : Type} (view : Action -> list V) w url :
  (forall lv text, view (ALogger lv text) = []) ->
  (forall u, view (AHead u) = []) ->
  always view (getAssetType w url)
    (fun r t => t = [] /\ exists kind, r = Ok kind).
Proof.
  intros Hq Hh. unfold getAssetType.
  run_auto; rewrite ?Hq, ?Hh; simpl; split; eauto.
Qed.

Lemma processMessage_settles w content :
  always view_settle (processMessage w content) (Handled w).
Proof.
  unfold processMessage.
  run_with (parse_message_returns view_settle); [reflexivity |].
  destruct H as [-> [parsed ->]].
  destruct parsed as [msg |]; [| run_step; constructor].
  run_with (getAssetType_returns view_settle); [reflexivity | reflexivity |].
  destruct H as [-> [kind ->]].
  destruct (kind_eqb kind unknown); [run_step; constructor |].
  eapply always_conseq; [apply run_job_settles |].
  intros r t H. simpl. exact (handled_job w msg kind r t H).
Qed.

(** What a view sees of a trace it sees of what another view keeps. *)
Lemma seen_through {V : Type} (keep : Action -> list Action)
  (view : Action -> list V) (t : list Action) :
  (forall a, keep a = [a] \/ (keep a = [] /\ view a = [])) ->
  seen view (seen keep t) = seen view t.
Proof.
  intros Hk. unfold seen. induction t as [| a t IH]; [reflexivity |].
  simpl. destruct (Hk a) as [-> | [-> ->]]; simpl; rewrite IH; reflexivity.
Qed.

Lemma settle_keeps_puts (t : list Action) :
  seen view_puts (seen view_settle t) = seen view_puts t.
Proof.
  apply seen_through. intros a.
  destruct a; simpl; auto. destruct (is_closing ev); auto.
Qed.

Lemma settle_keeps_cleanup (t : list Action) :
  seen view_cleanup (seen view_settle t) = seen view_cleanup t.
Proof.
  apply seen_through. intros a.
  destruct a; simpl; auto. destruct (is_closing ev); auto.
Qed.

Lemma closing_in_settlement (ev : LogEvent) (t : list Action) :
  is_closing ev = true ->
  In ev (seen view_events t) <-> In (ALogEvent ev) (seen view_settle t).
Proof.
  intros Hc. unfold seen. rewrite !in_flat_map. split.
  - intros (a & Hin & Hv). exists a. split; [exact Hin |].
    destruct a; simpl in Hv; try contradiction.
    destruct Hv as [<- | []]. simpl. rewrite Hc. left. reflexivity.
  - intros (a & Hin & Hv). exists a. split; [exact Hin |].
    destruct a; simpl in Hv; try contradiction;
      try (destruct Hv as [Hv | []]; discriminate).
    destruct (is_closing ev0); [| contradiction].
    destruct Hv as [Hv | []]. injection Hv as <-. left. reflexivity.
Qed.

(** The consumer logs no event of its own. *)
Lemma consume_log_events w content s :
  log_events (acts (consume w (Some content) s)) =
  log_events (acts (processMessage w content s)).
Proof.
  unfold log_events, consume, try_catch, bind, acts, parsed_requestId.
  destruct (processMessage w content s) as [[[[] | e] s1] t1]; simpl;
    destruct (json_parse w content); simpl;
    rewrite ?seen_app; simpl; rewrite ?app_nil_r; reflexivity.
Qed.

(** Read a settlement off: name the result and the settlement, and take
    the ways a job can settle one by one. *)
Ltac settle_cases H :=
  match type of H with
  | Settled _ _ _ _ _ => inversion H
  | Handled _ _ _ =>
      let Hs := fresh "Hs" in
      inversion H as [| ? ? ? ? Hs]; [| inversion Hs]
  end;
  subst;
  repeat match goal with
         | Hx : ?c = _ \/ ?c = _ |- _ => is_var c; destruct Hx as [-> | ->]
         end;
  repeat match goal with
         | Hx : _ = seen view_settle ?t, Hin : context [seen view_settle ?t]
           |- _ => rewrite <- Hx in Hin
         | Hx : _ = seen view_settle ?t |- context [seen view_settle ?t] =>
             rewrite <- Hx
         | Hx : _ = res ?o, Hin : context [res ?o] |- _ => rewrite <- Hx in Hin
         | Hx : _ = res ?o |- context [res ?o] => rewrite <- Hx
         end.

(** X4.  The verdict on a message follows the event that closes its job in
    the log: a message whose job logged a [completed] event is
    acknowledged, a message whose job logged a [failed] event is rejected
    without requeue, and no job logs two different closing events. *)
Theorem verdict_follows_the_closing_event
  (w : World) (content : Buffer) (s : LogStore) :
  let o := consume w (Some content) s in
  (forall ev, In ev (log_events (acts o)) -> ev_status ev = completed ->
     acknowledgements (acts o) = [AAck]) /\
  (forall ev, In ev (log_events (acts o)) -> ev_status ev = failed ->
     acknowledgements (acts o) = [ANack false false]) /\
  (forall ev ev',
     In ev (log_events (acts o)) -> In ev' (log_events (acts o)) ->
     is_closing ev = true -> is_closing ev' = true -> ev = ev').
Proof.
  cbv zeta. rewrite consume_log_events, consume_acks.
  pose proof (processMessage_settles w content s) as H. unfold log_events.
  assert (Hc : forall ev, ev_status ev = completed -> is_closing ev = true)
    by (intros ev Hs; unfold is_closing; rewrite Hs; reflexivity).
  assert (Hf : forall ev, ev_status ev = failed -> is_closing ev = true)
    by (intros ev Hs; unfold is_closing; rewrite Hs; reflexivity).
  split; [| split].
  - intros ev Hin Hs. apply (closing_in_settlement ev _ (Hc ev Hs)) in Hin.
    settle_cases H; in_cases Hin;
      try discriminate; try reflexivity;
      injection Hin as <-; simpl in *; discriminate.
  - intros ev Hin Hs. apply (closing_in_settlement ev _ (Hf ev Hs)) in Hin.
    settle_cases H; in_cases Hin;
      try discriminate; try reflexivity;
      injection Hin as <-; simpl in *; discriminate.
  - intros ev ev' Hin Hin' Hcl Hcl'.
    apply (closing_in_settlement ev _ Hcl) in Hin.
    apply (closing_in_settlement ev' _ Hcl') in Hin'.
    settle_cases H; in_cases Hin; in_cases Hin'; try discriminate;
      congruence.
Qed.

(** What the settlement says of the uploads, of the cleanup and of the
    closing events of a run. *)
Ltac of_settlement t :=
  unfold uploads, cleanup_probes, log_events;
  try rewrite <- (settle_keeps_puts t);
  try rewrite <- (settle_keeps_cleanup t);
  repeat match goal with
         | |- context [In ?ev (seen view_events ?t)] =>
             rewrite (closing_in_settlement ev t) by reflexivity
         end.

(** X5.  A job of any kind uploads at most once, and only to
    [overwriteUrl], with the content type [getContentType] gives for its
    kind.  A job that logs that the original asset was deleted uploads
    nothing. *)
Theorem job_uploads_at_most_once_to_overwriteUrl
  (w : World) (msg : Msg) (kind : AssetKind) (s : LogStore) :
  let o := run_job w msg kind s in
  (uploads (acts o) = [] \/
   exists b,
     uploads (acts o)
       = [(js_string (msg_overwriteUrl msg), b, getContentType kind)]) /\
  (In (event completed
         "Original asset deleted by user. Skipping final upload.")
      (log_events (acts o)) ->
   uploads (acts o) = []).
Proof.
  cbv zeta. pose proof (run_job_settles w msg kind s) as H.
  of_settlement (acts (run_job w msg kind s)).
  split; [| intros Hin]; settle_cases H; simpl; eauto;
    in_cases Hin; discriminate.
Qed.

(** X6.  The temporary files are only cleaned up after a successful
    upload: step 5 probes a file iff the job logged [Upload successful].
    A job that throws, at whatever step, leaves its input file and its
    processed file where they are. *)
Theorem cleanup_only_after_successful_upload
  (w : World) (msg : Msg) (kind : AssetKind) (s : LogStore) :
  let o := run_job w msg kind s in
  (cleanup_probes (acts o) <> [] <->
   In (event completed "Upload successful") (log_events (acts o))) /\
  (forall e, res o = Throw e -> cleanup_probes (acts o) = []) /\
  (forall p, In p (cleanup_probes (acts o)) ->
     hd_error (cleanup_probes (acts o)) = Some (worker_inputPath w)).
Proof.
  cbv zeta. pose proof (run_job_settles w msg kind s) as H.
  of_settlement (acts (run_job w msg kind s)).
  split; [split; [intros Hne | intros Hin] | split; [intros e He | intros p Hp]];
    settle_cases H; simpl in *;
    try congruence; try contradiction; try reflexivity;
    try (in_cases Hin; discriminate);
    try (right; left; reflexivity).
Qed.

(** X7.  What the upload answers decides the job.  When the PUT goes
    through, the job logs [Upload successful], starts the cleanup and
    returns; when it fails, the job logs a [failed] event with the error,
    throws that error and skips the cleanup. *)
Theorem upload_outcome_decides_the_job
  (w : World) (msg : Msg) (kind : AssetKind) (s : LogStore) (u : string)
  (b : Buffer) (ct : string) :
  let o := run_job w msg kind s in
  In (u, b, ct) (uploads (acts o)) ->
  match uploaded w u b ct with
  | Ok _ =>
      res o = Ok tt /\
      In (event completed "Upload successful") (log_events (acts o)) /\
      exists rest, cleanup_probes (acts o) = worker_inputPath w :: rest
  | Throw e =>
      res o = Throw e /\
      In (event failed ("Upload failed: " +:+ err_message e))
         (log_events (acts o)) /\
      cleanup_probes (acts o) = []
  end.
Proof.
  cbv zeta. pose proof (run_job_settles w msg kind s) as H.
  of_settlement (acts (run_job w msg kind s)). intros Hin.
  settle_cases H; simpl in Hin; in_cases Hin; injection Hin as <- <- <-;
    match goal with Hu : uploaded _ _ _ _ = _ |- _ => rewrite Hu end;
    simpl; repeat split; eauto;
    (apply closing_in_settlement; [reflexivity |]);
    match goal with
    | Hx : _ = seen view_settle ?t |- context [seen view_settle ?t] =>
        rewrite <- Hx
    end;
    in_list.
Qed.

(** X7, at an image job whose upload is answered, and at the same job
    against a store that refuses the PUT. *)
Lemma upload_outcome_witness :
  let props := {| img_compress := None; img_cropParams := None |} in
  let queued := Scenario.queued
                  (Scenario.with_config (Scenario.image_config props)) in
  let w := Scenario.image_world queued true 1000 in
  let refused := Faults.with_fetch_put (fun _ _ _ => Ok false) w in
  let e := new_Error "Failed to upload file to signed URL" in
  (res (run_job w queued image ∅) = Ok tt /\
   In (event completed "Upload successful")
      (log_events (acts (run_job w queued image ∅)))) /\
  (res (run_job refused queued image ∅) = Throw e /\
   In (event failed "Upload failed: Failed to upload file to signed URL")
      (log_events (acts (run_job refused queued image ∅))) /\
   cleanup_probes (acts (run_job refused queued image ∅)) = []).
Proof.
  intros props queued w refused e.
  assert (Hin : In ("https://x/a-out.jpg", Scenario.bytes, "image/jpeg")
                  (uploads (acts (run_job w queued image ∅))))
    by (vm_compute; left; reflexivity).
  assert (Hin' : In ("https://x/a-out.jpg", Scenario.bytes, "image/jpeg")
                   (uploads (acts (run_job refused queued image ∅))))
    by (vm_compute; left; reflexivity).
  pose proof (upload_outcome_decides_the_job w queued image ∅ _ _ _ Hin)
    as H.
  pose proof (upload_outcome_decides_the_job refused queued image ∅ _ _ _
                Hin') as H'.
  change (uploaded w "https://x/a-out.jpg" Scenario.bytes "image/jpeg")
    with (@Ok unit tt) in H.
  change (uploaded refused "https://x/a-out.jpg" Scenario.bytes "image/jpeg")
    with (@Throw unit e) in H'.
  cbv iota in H, H'.
  split; [split; [exact (proj1 H) | exact (proj1 (proj2 H))] | exact H'].
Defined.

(** ** A download that fails *)

(** What [downloaded] says of the answer of the network. *)
Lemma downloaded_throws w url e :
  downloaded w url = Throw e ->
  fetch_get w url = Throw e \/
  exists g, fetch_get w url = Ok g /\ get_ok g = false /\
            e = new_Error "Failed to download file from signed URL".
Proof.
  unfold downloaded, downloadFile, bind, emit, lift, res. simpl.
  destruct (fetch_get w url) as [g | e0]; simpl.
  - destruct (get_ok g) eqn:Hok; simpl; [discriminate |].
    intros H. injection H as <-. right. exists g. auto.
  - intros H. injection H as <-. left. reflexivity.
Qed.

Lemma step1_download_fails w h originalUrl inputPath requestId e :
  downloaded w originalUrl = Throw e ->
  always view_outward
    (step1_download w (logEventCurried w h) originalUrl inputPath requestId)
    (fun r t =>
       r = Throw e /\
       t = [AGet originalUrl;
            ALogEvent
              (event failed ("Download failed: " +:+ err_message e))]).
Proof.
  intros Hd. unfold step1_download, downloadFile.
  destruct (downloaded_throws w originalUrl e Hd)
    as [Hg | (g & Hg & Hok & ->)];
    run_det; rewrite ?Hok; run_simpl; run_det; simpl; split; reflexivity.
Qed.

(** X8.  A download that fails stops the job where it is: the worker logs
    a [failed] event with the error and throws it.  No file is written, no
    executor runs and nothing is uploaded: of a job whose download fails
    the outside sees at most the [Processing started] event, the creation of
    the temporary folder, the GET and the [failed] event. *)
Theorem download_failure_stops_the_job
  (w : World) (msg : Msg) (kind : AssetKind) (s : LogStore) (e : Error) :
  downloaded w (js_string (msg_originalUrl msg)) = Throw e ->
  let o := run_job w msg kind s in
  let started := [ALogEvent (event pending "Processing started");
                  AMkdir (worker_tempDir w)] in
  (exists e', res o = Throw e') /\
  (outward (acts o) = [] \/
   outward (acts o) = started \/
   (outward (acts o) =
      started ++
      [AGet (js_string (msg_originalUrl msg));
       ALogEvent (event failed ("Download failed: " +:+ err_message e))] /\
    res o = Throw e)).
Proof.
  intros Hd. cbv zeta. unfold outward.
  revert s. change (always view_outward (run_job w msg kind)
    (fun r t =>
       (exists e', r = Throw e') /\
       (t = [] \/
        t = [ALogEvent (event pending "Processing started");
             AMkdir (worker_tempDir w)] \/
        (t = [ALogEvent (event pending "Processing started");
              AMkdir (worker_tempDir w)] ++
             [AGet (js_string (msg_originalUrl msg));
              ALogEvent
                (event failed ("Download failed: " +:+ err_message e))] /\
         r = Throw e)))).
  unfold run_job.
  run_silent. destruct r as [handle | e0]; [| simpl; eauto].
  run_det.
  run_case; [simpl; eauto |].
  run_with step1_download_fails; [exact Hd |].
  destruct H as [-> ->]. simpl. eauto 6.
Qed.

(** X8, at a signed URL that answers 403. *)
Lemma download_failure_witness :
  let props := {| img_compress := None; img_cropParams := None |} in
  let queued := Scenario.queued
                  (Scenario.with_config (Scenario.image_config props)) in
  let w := Faults.with_fetch_get
             (fun _ => Ok {| get_ok := false; get_body := [] |})
             (Scenario.image_world queued true 1000) in
  let o := run_job w queued image ∅ in
  res o = Throw (new_Error "Failed to download file from signed URL") /\
  outward (acts o) =
    [ALogEvent (event pending "Processing started");
     AMkdir "/tmp/asset-worker";
     AGet "https://x/a.jpg";
     ALogEvent
       (event failed
          "Download failed: Failed to download file from signed URL")].
Proof.
  intros props queued w o.
  destruct (download_failure_stops_the_job w queued image ∅
              (new_Error "Failed to download file from signed URL") eq_refl)
    as [_ [H | [H | [H Hr]]]].
  - vm_compute in H. discriminate.
  - vm_compute in H. discriminate.
  - split; [exact Hr | exact H].
Defined.

(** ** The audit trail of a job *)

Lemma always_forallb {V A : Type} (view : Action -> list V) (f : V -> bool)
  (m : M A) :
  emits (fun a => forallb f (view a) = true) m ->
  always view m (fun _ t => forallb f t = true).
Proof.
  intros Hm s. specialize (Hm s). unfold seen.
  induction Hm as [| a t Ha _ IH]; simpl; [reflexivity |].
  rewrite forallb_app, Ha, IH. reflexivity.
Qed.

(** The executors log progress and warnings, and nothing else. *)
Lemma processAsset_events_intermediate w h kind inputPath cfg :
  always view_events
    (processAsset w kind inputPath cfg (Some (logEventCurried w h)))
    (fun _ t => forallb is_intermediate t = true).
Proof. apply always_forallb. emits_all. Qed.

Lemma step1_trail w h originalUrl inputPath requestId :
  always view_events
    (step1_download w (logEventCurried w h) originalUrl inputPath requestId)
    (fun r t =>
       match r with
       | Ok _ => t = [event processing "File downloaded"]
       | Throw e =>
           t = [event failed ("Download failed: " +:+ err_message e)]
       end).
Proof. unfold step1_download, downloadFile. run_auto; reflexivity. Qed.

Lemma step2_trail w h kind inputPath cfg requestId :
  always view_events
    (step2_process w (logEventCurried w h) kind inputPath cfg requestId)
    (fun r t =>
       exists body,
         forallb is_intermediate body = true /\
         t = body ++
             [match r with
              | Ok _ =>
                  event processing
                    "Processing complete, uploading to DO Spaces"
              | Throw e =>
                  event failed ("Processing failed: " +:+ err_message e)
              end]).
Proof.
  unfold step2_process. run_step.
  run_with processAsset_events_intermediate.
  destruct r as [p | e]; run_auto; simpl; rewrite ?app_nil_r;
    exists t; split; auto.
Qed.

Lemma step3_trail w p :
  always view_events (step3_read w p) (fun _ t => t = []).
Proof. unfold step3_read. run_auto; reflexivity. Qed.

Lemma step4_trail w h kind originalUrl overwriteUrl buffer requestId :
  always view_events
    (step4_upload w (logEventCurried w h) kind originalUrl overwriteUrl
       buffer requestId)
    (fun r t =>
       exists ev, t = [ev] /\
         match r with
         | Ok _ => ev_status ev = completed
         | Throw _ => ev_status ev = failed
         end).
Proof.
  unfold step4_upload, publicAssetExists, uploadFile.
  run_auto; simpl; eexists; split; reflexivity.
Qed.

Lemma step5_trail w inputPath processedPath requestId :
  always view_events (step5_cleanup w inputPath processedPath requestId)
    (fun r t => r = Ok tt /\ t = []).
Proof.
  unfold step5_cleanup, cleanup_file. run_auto; simpl; auto.
Qed.

Lemma trail_open body :
  forallb is_intermediate body = true ->
  trail (event pending "Processing started" :: body) None.
Proof. intros Hb. split; [reflexivity |]. exists body. auto. Qed.

Lemma trail_closed body ev :
  forallb is_intermediate body = true -> is_closing ev = true ->
  trail (event pending "Processing started" :: body ++ [ev]) (Some ev).
Proof. intros Hb Hc. split; [reflexivity |]. exists body. auto. Qed.

(** X9.  The events of a job form a trail: if the job logs anything, the
    first event is [Processing started], what follows is progress and
    warnings, and a [completed] or [failed] event, if there is one, is the
    last event and the only one of its kind.  The job returns normally iff
    its trail is closed by a [completed] event. *)
Theorem job_events_form_a_trail
  (w : World) (msg : Msg) (kind : AssetKind) (s : LogStore) :
  let o := run_job w msg kind s in
  exists closing,
    trail (log_events (acts o)) closing /\
    (res o = Ok tt <->
     exists ev, closing = Some ev /\ ev_status ev = completed).
Proof.
  cbv zeta. unfold log_events. revert s.
  change (always view_events (run_job w msg kind)
    (fun r t =>
       exists closing,
         trail t closing /\
         (r = Ok tt <->
          exists ev, closing = Some ev /\ ev_status ev = completed))).
  assert (Hopen : forall e body,
    forallb is_intermediate body = true ->
    exists closing,
      trail (event pending "Processing started" :: body) closing /\
      (Throw e = Ok tt <->
       exists ev, closing = Some ev /\ ev_status ev = completed)).
  { intros e body Hb. exists None. split; [apply trail_open, Hb |].
    split; [discriminate | intros (ev & Hev & _); discriminate]. }
  assert (Hfailed : forall e body ev,
    forallb is_intermediate body = true -> ev_status ev = failed ->
    exists closing,
      trail (event pending "Processing started" :: body ++ [ev]) closing /\
      (Throw e = Ok tt <->
       exists ev, closing = Some ev /\ ev_status ev = completed)).
  { intros e body ev Hb Hs. exists (Some ev).
    split; [apply trail_closed; [exact Hb |];
            unfold is_closing; rewrite Hs; reflexivity |].
    split; [discriminate |].
    intros (ev' & Hev & Hs'). injection Hev as <-. congruence. }
  assert (Hcompleted : forall body ev,
    forallb is_intermediate body = true -> ev_status ev = completed ->
    exists closing,
      trail (event pending "Processing started" :: body ++ [ev]) closing /\
      (Ok tt = Ok tt <->
       exists ev, closing = Some ev /\ ev_status ev = completed)).
  { intros body ev Hb Hs. exists (Some ev).
    split; [apply trail_closed; [exact Hb |];
            unfold is_closing; rewrite Hs; reflexivity |].
    split; [intros _; eauto | reflexivity]. }
  unfold run_job.
  run_silent. destruct r as [handle | e].
  2: { exists None. split; [reflexivity |].
       split; [discriminate | intros (ev & Hev & _); discriminate]. }
  run_det.
  run_case; [apply (Hopen _ []); reflexivity |].
  run_with step1_trail.
  destruct r as [[] | e]; subst;
    [| apply (Hfailed _ []); reflexivity].
  run_with step2_trail. destruct H as (body & Hb & ->).
  destruct r as [processedPath | e].
  2: { apply (Hfailed e (event processing "File downloaded" :: body));
       [simpl; exact Hb | reflexivity]. }
  run_with step3_trail. subst.
  assert (Hbody : forallb is_intermediate
                    (event processing "File downloaded" ::
                     body ++
                     [event processing
                        "Processing complete, uploading to DO Spaces"])
                  = true).
  { simpl. rewrite forallb_app, Hb. reflexivity. }
  destruct r as [processedBuffer | e].
  { run_with step4_trail. destruct H as (ev & -> & Hs).
    destruct r as [[|] | e].
    - run_step. cbn [app]. rewrite ?app_nil_r.
      exact (Hcompleted _ ev Hbody Hs).
    - run_with step5_trail. destruct H as [-> ->]. cbn [app].
      rewrite ?app_nil_r. exact (Hcompleted _ ev Hbody Hs).
    - cbn [app]. exact (Hfailed e _ ev Hbody Hs). }
  cbn [app]. rewrite ?app_nil_r. exact (Hopen e _ Hbody).
Qed.

(** ** A processed file that cannot be read back *)

Lemma always_Forall {V A : Type} (view : Action -> list V) (P : V -> Prop)
  (m : M A) :
  emits (fun a => Forall P (view a)) m ->
  always view m (fun _ t => Forall P t).
Proof.
  intros Hm s. specialize (Hm s). unfold seen.
  induction Hm as [| a t Ha _ IH]; simpl; [constructor |].
  apply Forall_app. split; assumption.
Qed.

Lemma emits_bind_ret {A B : Type} (P : Action -> Prop) (a : A)
  (f : A -> M B) :
  emits P (f a) -> emits P (bind (ret a) f).
Proof.
  intros H s. specialize (H s). unfold acts, bind, ret in *.
  destruct (f a s) as [[r s2] t2]. exact H.
Qed.

Ltac quiet_step :=
  cbn beta iota delta [kind_eqb];
  first [ apply emits_bind_ret | emits_call | emits_step ];
  try first [ apply List.Forall_nil
            | apply List.Forall_cons;
              [eexists; split; reflexivity | apply List.Forall_nil] ].

(** The image and the video executor read no file through [fs.readFile],
    and log no closing event. *)
Lemma processAsset_reads_nothing w h kind inputPath cfg :
  kind <> pdf ->
  always view_read_back
    (processAsset w kind inputPath cfg (Some (logEventCurried w h)))
    (fun _ t => Forall quiet_progress t).
Proof.
  intros Hk. apply always_Forall.
  unfold processAsset, kind_and_own.
  destruct kind; try congruence; simpl;
    autounfold with model; repeat quiet_step.
Qed.

Lemma quiet_progress_reads (t : list Action) (p : string) :
  Forall quiet_progress t -> ~ In (AReadFile p) t.
Proof.
  intros H Hin. rewrite List.Forall_forall in H.
  destruct (H _ Hin) as (ev & Hev & _). discriminate.
Qed.

Lemma step1_read_back w h originalUrl inputPath requestId :
  always view_read_back
    (step1_download w (logEventCurried w h) originalUrl inputPath requestId)
    (fun r t =>
       match r with
       | Ok _ => t = [ALogEvent (event processing "File downloaded")]
       | Throw e => exists ev, t = [ALogEvent ev]
       end).
Proof.
  unfold step1_download, downloadFile.
  run_auto; simpl; eauto.
Qed.

Lemma step2_read_back w h kind inputPath cfg requestId :
  kind <> pdf ->
  always view_read_back
    (step2_process w (logEventCurried w h) kind inputPath cfg requestId)
    (fun r t =>
       exists body ev,
         Forall quiet_progress body /\ t = body ++ [ALogEvent ev] /\
         match r with
         | Ok _ =>
             ev = event processing
                    "Processing complete, uploading to DO Spaces"
         | Throw _ => True
         end).
Proof.
  intros Hk. unfold step2_process. run_step.
  run_with processAsset_reads_nothing; [exact Hk |].
  destruct r as [p | e]; run_auto; simpl; rewrite ?app_nil_r;
    eexists t, _; split; auto.
Qed.

Lemma step3_read_back w p :
  always view_read_back (step3_read w p)
    (fun r t => t = [AReadFile p] /\ r = fs_readFile w p).
Proof.
  unfold step3_read. run_auto; simpl; use_cases; split; reflexivity.
Qed.

Lemma step4_read_back w h kind originalUrl overwriteUrl buffer requestId :
  always view_read_back
    (step4_upload w (logEventCurried w h) kind originalUrl overwriteUrl
       buffer requestId)
    (fun _ t => exists ev, t = [ALogEvent ev]).
Proof.
  unfold step4_upload, publicAssetExists, uploadFile.
  run_auto; simpl; eauto.
Qed.

Lemma step5_read_back w inputPath processedPath requestId :
  always view_read_back (step5_cleanup w inputPath processedPath requestId)
    (fun _ t => t = []).
Proof.
  unfold step5_cleanup, cleanup_file. run_auto; simpl; auto.
Qed.

(** What the read of step 3 decides. *)
Lemma run_job_read_back w msg kind :
  kind <> pdf ->
  always view_read_back (run_job w msg kind)
    (fun r t =>
       forall p e,
         In (AReadFile p) t -> fs_readFile w p = Throw e ->
         r = Throw e /\
         exists before,
           Forall quiet_progress before /\
           t = before ++
               [ALogEvent
                  (event processing
                     "Processing complete, uploading to DO Spaces");
                AReadFile p]).
Proof.
  intros Hk.
  assert (Hnone : forall (r : result unit) (t : list Action),
    (forall p, ~ In (AReadFile p) t) ->
    forall p e,
      In (AReadFile p) t -> fs_readFile w p = Throw e ->
      r = Throw e /\
      exists before,
        Forall quiet_progress before /\
        t = before ++
            [ALogEvent
               (event processing
                  "Processing complete, uploading to DO Spaces");
             AReadFile p]).
  { intros r t Hno p e Hin. exfalso. exact (Hno p Hin). }
  unfold run_job.
  run_silent. destruct r as [handle | e0];
    [| apply Hnone; intros p []].
  run_det.
  run_case; [apply Hnone; intros p Hin; in_cases Hin; discriminate |].
  run_with step1_read_back.
  destruct r as [[] | e0].
  2: { destruct H as [ev ->]. apply Hnone.
       intros p Hin. in_cases Hin; discriminate. }
  subst.
  run_with (step2_read_back w); [exact Hk |].
  destruct H as (body & ev & Hbody & -> & Hev).
  destruct r as [processedPath | e0].
  2: { apply Hnone. intros p Hin. simpl in Hin.
       destruct Hin as [Hin | [Hin | Hin]]; try discriminate.
       apply in_app_or in Hin as [Hin | Hin].
       - exact (quiet_progress_reads _ _ Hbody Hin).
       - in_cases Hin; discriminate. }
  subst ev.
  run_with step3_read_back. destruct H as [-> Hread].
  assert (Hhere : forall p rest,
    (forall q, ~ In (AReadFile q) rest) ->
    In (AReadFile p)
      ([ALogEvent (event pending "Processing started")] ++
       [] ++
       [ALogEvent (event processing "File downloaded")] ++
       (body ++
        [ALogEvent
           (event processing
              "Processing complete, uploading to DO Spaces")]) ++
       [AReadFile processedPath] ++ rest) ->
    p = processedPath).
  { intros p rest Hrest Hin. simpl in Hin.
    destruct Hin as [Hin | [Hin | Hin]]; try discriminate.
    apply in_app_or in Hin as [Hin | Hin].
    - apply in_app_or in Hin as [Hin | Hin].
      + exfalso. exact (quiet_progress_reads _ _ Hbody Hin).
      + in_cases Hin; discriminate.
    - destruct Hin as [Hin | Hin]; [congruence |].
      exfalso. exact (Hrest p Hin). }
  destruct r as [processedBuffer | e0].
  - run_with step4_read_back. destruct H as [ev ->].
    destruct r as [[|] | e1].
    + run_step. intros p e Hin Hthrow. exfalso.
      apply Hhere in Hin; [congruence |].
      intros q Hq. in_cases Hq; discriminate.
    + run_with step5_read_back. subst.
      intros p e Hin Hthrow. exfalso.
      apply Hhere in Hin; [congruence |].
      intros q Hq. in_cases Hq; discriminate.
    + intros p e Hin Hthrow. exfalso.
      apply Hhere in Hin; [congruence |].
      intros q Hq. in_cases Hq; discriminate.
  - intros p e Hin Hthrow.
    assert (p = processedPath) as ->.
    { apply (Hhere p []); [intros q [] | exact Hin]. }
    split; [congruence |].
    exists (ALogEvent (event pending "Processing started")
            :: ALogEvent (event processing "File downloaded") :: body).
    split.
    + constructor; [eexists; split; reflexivity |].
      constructor; [eexists; split; reflexivity | exact Hbody].
    + simpl. rewrite <- !app_assoc. reflexivity.
Qed.

Lemma in_seen_read_back (p : string) (t : list Action) :
  In (AReadFile p) (seen view_read_back t) <-> In (AReadFile p) t.
Proof.
  unfold seen. rewrite in_flat_map. split.
  - intros (a & Hin & Hv).
    destruct a; simpl in Hv; try contradiction;
      destruct Hv as [<- | []]; exact Hin.
  - intros Hin. exists (AReadFile p). split; [exact Hin | left; reflexivity].
Qed.

Lemma read_back_keeps_events (t : list Action) :
  seen view_events (seen view_read_back t) = seen view_events t.
Proof. apply seen_through. intros a. destruct a; simpl; auto. Qed.

Lemma quiet_progress_events (t : list Action) (ev : LogEvent) :
  Forall quiet_progress t -> In ev (seen view_events t) ->
  is_closing ev = false.
Proof.
  intros H. unfold seen. rewrite in_flat_map. intros (a & Hin & Hv).
  rewrite List.Forall_forall in H.
  destruct (H _ Hin) as (ev' & -> & Hq). destruct Hv as [<- | []]. exact Hq.
Qed.

(** X10.  An image or a video job whose processed file cannot be read back
    fails without saying so in the log: the job throws the error of the
    read, so that the message is rejected, but no [failed] event is logged.
    The trail stays open, its last event being [Processing complete,
    uploading to DO Spaces], and nothing is uploaded. *)
Theorem read_back_failure_leaves_the_trail_open
  (w : World) (msg : Msg) (kind : AssetKind) (s : LogStore) (p : string)
  (e : Error) :
  kind <> pdf ->
  let o := run_job w msg kind s in
  In (AReadFile p) (acts o) ->
  fs_readFile w p = Throw e ->
  res o = Throw e /\
  (forall ev, In ev (log_events (acts o)) -> is_closing ev = false) /\
  last (log_events (acts o)) =
    Some (event processing "Processing complete, uploading to DO Spaces") /\
  uploads (acts o) = [].
Proof.
  intros Hk o Hin Hthrow. subst o.
  apply in_seen_read_back in Hin.
  destruct (run_job_read_back w msg kind Hk s p e Hin Hthrow)
    as (Hr & before & Hq & Ht).
  assert (Hev : log_events (acts (run_job w msg kind s)) =
                seen view_events before ++
                [event processing
                   "Processing complete, uploading to DO Spaces"]).
  { unfold log_events. rewrite <- read_back_keeps_events, Ht, seen_app.
    reflexivity. }
  assert (Hopen : forall ev,
    In ev (log_events (acts (run_job w msg kind s))) ->
    is_closing ev = false).
  { intros ev Hev'. rewrite Hev in Hev'.
    apply in_app_or in Hev' as [Hev' | [<- | []]]; [| reflexivity].
    exact (quiet_progress_events _ _ Hq Hev'). }
  split; [exact Hr |]. split; [exact Hopen |].
  split; [rewrite Hev; apply last_snoc |].
  pose proof (run_job_settles w msg kind s) as H.
  unfold uploads. rewrite <- settle_keeps_puts.
  settle_cases H; try reflexivity; try discriminate.
  exfalso.
  assert (Hc : is_closing
                 (event failed ("Upload failed: " +:+ err_message e0))
               = false).
  { apply Hopen. unfold log_events.
    apply closing_in_settlement; [reflexivity |].
    match goal with
    | Hx : _ = seen view_settle ?t |- context [seen view_settle ?t] =>
        rewrite <- Hx
    end.
    in_list. }
  discriminate.
Qed.

(** X10, at an image job on a disk that lost the processed file. *)
Lemma read_back_failure_witness :
  let props := {| img_compress := None; img_cropParams := None |} in
  let queued := Scenario.queued
                  (Scenario.with_config (Scenario.image_config props)) in
  let e := new_Error "ENOENT: no such file or directory" in
  let w := Faults.with_fs_readFile (fun _ => Throw e)
             (Scenario.image_world queued true 1000) in
  let o := run_job w queued image ∅ in
  res o = Throw e /\
  log_events (acts o) =
    [event pending "Processing started";
     event processing "File downloaded";
     event processing "Processing complete, uploading to DO Spaces"] /\
  acknowledgements (acts (consume w (Some Scenario.bytes) ∅))
    = [ANack false false].
Proof.
  intros props queued e w o.
  assert (Hin : In (AReadFile
                      "/app/processed/processed-input-1700000000000.webp")
                  (acts o))
    by (vm_compute; in_list).
  destruct (read_back_failure_leaves_the_trail_open w queued image ∅
              "/app/processed/processed-input-1700000000000.webp" e
              ltac:(discriminate) Hin eq_refl) as (Hr & _).
  split; [exact Hr |]. split; vm_compute; reflexivity.
Defined.

(** ** The consumer *)

Lemma consume_verdict w content :
  always view_acks (consume w (Some content))
    (fun _ t => t = [AAck] \/ t = [ANack false false]).
Proof.
  intros s. pose proof (consume_acks w content s) as H.
  unfold acknowledgements in H. rewrite H.
  destruct (res (processMessage w content s)); auto.
Qed.

Lemma deliver_verdicts w deliveries :
  always view_acks (deliver w deliveries)
    (fun r t =>
       r = Ok tt /\
       length t = length (messages deliveries) /\
       Forall (fun a => a = AAck \/ a = ANack false false) t).
Proof.
  induction deliveries as [| msg rest IH]; simpl.
  - run_step. repeat split. constructor.
  - run_step. run_step.
    destruct msg as [content |].
    + run_with consume_verdict.
      assert (Hone : length t = 1%nat /\
                     Forall (fun a => a = AAck \/ a = ANack false false) t).
      { destruct H as [-> | ->]; split; try reflexivity;
          (constructor; [auto | constructor]). }
      destruct Hone as [Hlen Hall].
      destruct r as [[] | e].
      * eapply always_conseq; [apply IH |].
        intros r t' (-> & Hlen' & Hall').
        split; [reflexivity |].
        split; [rewrite length_app, Hlen, Hlen'; reflexivity |].
        apply Forall_app. split; assumption.
      * run_step.
        eapply always_conseq; [apply IH |].
        intros r t' (-> & Hlen' & Hall').
        split; [reflexivity |].
        split; [simpl; rewrite app_nil_r, length_app, Hlen, Hlen';
                reflexivity |].
        simpl. rewrite app_nil_r. apply Forall_app. split; assumption.
    + unfold consume. run_step.
      eapply always_conseq; [apply IH |].
      intros r t' H. exact H.
Qed.

(** X11.  The worker gives every delivered message exactly one verdict: as
    many acknowledgements and rejections are sent as messages were
    delivered, a rejection never asks for a requeue, and nothing a message
    does stops the consumer.  When the broker cannot be reached the worker
    throws the error of the connection and consumes nothing. *)
Theorem every_delivery_gets_one_verdict
  (w : World) (deliveries : list (option Buffer)) (s : LogStore) :
  let o := startWorker w deliveries s in
  match connectRabbitMQ w with
  | Some e => res o = Throw e /\ acts o = []
  | None =>
      res o = Ok tt /\
      length (acknowledgements (acts o)) = length (messages deliveries) /\
      Forall (fun a => a = AAck \/ a = ANack false false)
        (acknowledgements (acts o))
  end.
Proof.
  cbv zeta.
  destruct (connectRabbitMQ w) as [e |] eqn:Hc.
  - unfold startWorker, bind, lift_err, res, acts. rewrite Hc.
    split; reflexivity.
  - pose proof (deliver_verdicts w deliveries s) as H.
    unfold startWorker, acknowledgements, bind, lift_err, logger, emit, ret,
      res, acts in *.
    rewrite Hc. simpl.
    destruct (deliver w deliveries s) as [[r s1] t1]. simpl in *.
    exact H.
Qed.

(** X12.  The callback of the consumer throws iff [JSON.parse] throws on
    the content of the message or makes [null] of it: iff the content does
    not parse to a value whose properties can be read.  Such a message is
    acknowledged first; the error then escapes while the log line is built,
    is raised again in the handler, and no rejection is sent.  The callback
    does nothing else: no request, no file, no event, and the store is as it
    was.  The process logs the unhandled rejection and goes on.  Content
    that parses to a number, a string or a boolean is not such a message:
    its fields read as undefined, and the callback does not throw. *)
Theorem unparsable_message_escapes_the_callback
  (w : World) (content : Buffer) (s : LogStore) :
  let o := consume w (Some content) s in
  ((exists e, res o = Throw e) <->
   (forall m, json_parse w content <> PValue m)) /\
  ((forall m, json_parse w content <> PValue m) ->
   outward (acts o) = [AAck] /\
   store_of o = s /\
   res (deliver w [Some content] s) = Ok tt /\
   In (ALogger lv_error "Unhandled Rejection:")
      (acts (deliver w [Some content] s))).
Proof.
  cbv zeta.
  destruct (json_parse w content) as [e | | m] eqn:Hp.
  - assert (Hrun : consume w (Some content) s =
                   (Throw e, s,
                    [ALogger lv_error "Message parsing failed"; AAck])).
    { unfold consume, processMessage, parse_message, parsed_requestId,
        try_catch, bind, emit, logger, throw, ret. rewrite Hp. reflexivity. }
    split; [split; [intros _ m; discriminate | intros _] |].
    + rewrite Hrun. eexists. reflexivity.
    + intros _.
      assert (Hd : deliver w [Some content] s =
                   (Ok tt, s,
                    [ALogger lv_error "Message parsing failed"; AAck;
                     ALogger lv_error "Unhandled Rejection:"])).
      { cbn [deliver]. unfold bind at 1. unfold try_catch.
        rewrite Hrun. reflexivity. }
      rewrite Hrun, Hd. repeat split. in_list.
  - assert (Hrun : consume w (Some content) s =
                   (Throw (TypeError
                      "Cannot read properties of null (reading 'requestId')"),
                    s, [ALogger lv_error "Message parsing failed"; AAck])).
    { unfold consume, processMessage, parse_message, parsed_requestId,
        try_catch, bind, emit, logger, throw, ret. rewrite Hp. reflexivity. }
    split; [split; [intros _ m; discriminate | intros _] |].
    + rewrite Hrun. eexists. reflexivity.
    + intros _.
      assert (Hd : deliver w [Some content] s =
                   (Ok tt, s,
                    [ALogger lv_error "Message parsing failed"; AAck;
                     ALogger lv_error "Unhandled Rejection:"])).
      { cbn [deliver]. unfold bind at 1. unfold try_catch.
        rewrite Hrun. reflexivity. }
      rewrite Hrun, Hd. repeat split. in_list.
  - split; [| intros H; exfalso; exact (H m eq_refl)].
    split; [| intros H; exfalso; exact (H m eq_refl)].
    intros [e He]. exfalso. revert He.
    unfold consume, parsed_requestId, try_catch, bind, emit, logger, ret,
      res.
    rewrite Hp.
    destruct (processMessage w content s) as [[[[] | e0] s1] t1]; simpl;
      discriminate.
Qed.

(** X12, at a message that is not JSON. *)
Lemma unparsable_message_witness :
  let e := new_Error "Unexpected token h in JSON at position 0" in
  let w := Scenario.world (PSyntaxError e) (Some "image/jpeg") true
             Scenario.metadata_800x600 Scenario.probe_30s Scenario.bytes
             1000 (Ok "") None None in
  res (consume w (Some Scenario.bytes) ∅) = Throw e /\
  outward (acts (consume w (Some Scenario.bytes) ∅)) = [AAck].
Proof.
  intros e w.
  destruct (unparsable_message_escapes_the_callback w Scenario.bytes ∅)
    as [_ H].
  split; [reflexivity |].
  exact (proj1 (H (fun m Hm => ltac:(discriminate Hm)))).
Defined.

(** ** From the intake to the log *)

(** The classifier does not look at the store and leaves it as it is. *)
Lemma getAssetType_at w url s :
  exists t, getAssetType w url s = (classification w url, s, t).
Proof.
  unfold classification, getAssetType, try_catch, bind, emit, lift, logger,
    ret, throw, res.
  destruct (fetch_head_type w url) as [r | e]; simpl; [| eauto].
  destruct (String.prefix "image/" _); [eauto |].
  destruct (String.prefix "video/" _); [eauto |].
  destruct (String.eqb _ _); eauto.
Qed.

(** A message that parses, has its fields and a known kind is a job. *)
Lemma processMessage_runs_job w content s m kind :
  json_parse w content = PValue m ->
  truthy_string (msg_source m) = true ->
  truthy_string (msg_originalUrl m) = true ->
  truthy_string (msg_requestId m) = true ->
  classification w (js_string (msg_originalUrl m)) = Ok kind ->
  kind <> unknown ->
  exists t,
    outward t = [AHead (js_string (msg_originalUrl m))] /\
    processMessage w content s =
    (res (run_job w m kind s), store_of (run_job w m kind s),
     t ++ acts (run_job w m kind s)).
Proof.
  intros Hp H1 H2 H3 Hk Hne.
  destruct (getAssetType_at w (js_string (msg_originalUrl m)) s) as [t Ht].
  pose proof (getAssetType_run w (js_string (msg_originalUrl m)) s)
    as [Hhead _].
  rewrite Ht in Hhead.
  exists t. split; [exact Hhead |].
  unfold processMessage, parse_message, bind, try_catch, res, store_of, acts.
  rewrite Hp, H1, H2, H3. simpl. rewrite Ht, Hk.
  destruct kind; try congruence; simpl;
    destruct (run_job w m _ s) as [[r s1] t1]; reflexivity.
Qed.

(** The callback of the consumer leaves the store as [processMessage]
    left it. *)
Lemma consume_store w content s :
  store_of (consume w (Some content) s) =
  store_of (processMessage w content s).
Proof.
  unfold consume, try_catch, bind, parsed_requestId, store_of.
  destruct (processMessage w content s) as [[[[] | e] s1] t1]; simpl;
    destruct (json_parse w content); reflexivity.
Qed.

Lemma store_of_bind {A B : Type} (m : M A) (f : A -> M B) s a s1 t1 :
  m s = (Ok a, s1, t1) -> store_of (bind m f s) = store_of (f a s1).
Proof.
  intros Hm. unfold store_of, bind. rewrite Hm.
  destruct (f a s1) as [[r s2] t2]. reflexivity.
Qed.

Lemma Forall2_entry_extends_ids d d' :
  Forall2 entry_extends d d' -> map rl_requestId d' = map rl_requestId d.
Proof.
  induction 1 as [| r r' d d' (Hid & _) _ IH]; simpl; [reflexivity |].
  rewrite Hid, IH. reflexivity.
Qed.

Lemma entries_of_recorded st originalUrl requestId :
  entries_of st originalUrl requestId <> [] <->
  requestId ∈ map rl_requestId (default [] (st !! originalUrl)).
Proof.
  unfold entries_of. generalize (default [] (st !! originalUrl)) as d.
  induction d as [| req rest IH]; simpl.
  - split; [congruence | intros H; apply elem_of_nil in H; contradiction].
  - destruct (is_request requestId req) eqn:Hr.
    + apply is_request_iff in Hr. split; [| discriminate].
      intros _. apply elem_of_cons. left. congruence.
    + rewrite IH, elem_of_cons. split; [auto |].
      intros [Heq | Hin]; [| exact Hin].
      symmetry in Heq. apply is_request_iff in Heq. congruence.
Qed.

(** An entry that is recorded stays recorded while the store grows. *)
Lemma store_extends_recorded s s' originalUrl requestId :
  store_extends s s' ->
  entries_of s originalUrl requestId <> [] ->
  entries_of s' originalUrl requestId <> [].
Proof.
  intros He. rewrite !entries_of_recorded.
  destruct (s !! originalUrl) as [d |] eqn:Hd; simpl;
    [| intros H; apply elem_of_nil in H; contradiction].
  destruct (He _ _ Hd) as (d' & -> & kept & added & -> & Hk). simpl.
  intros Hin. rewrite map_app, elem_of_app. left.
  rewrite (Forall2_entry_extends_ids _ _ Hk). exact Hin.
Qed.

(** With the store answering, a job records its request. *)
Lemma run_job_records_request w msg kind s :
  (forall u, db_findOne w u = None) ->
  (forall u, db_create w u = None) ->
  (forall u, db_save w u = None) ->
  entries_of (store_of (run_job w msg kind s))
    (js_string (msg_originalUrl msg)) (js_string (msg_requestId msg)) <> [].
Proof.
  intros Hf Hc Hs.
  pose proof (createLogger_run w (js_string (msg_requestId msg))
                (js_string (msg_source msg))
                (js_string (msg_originalUrl msg)) (msg_assetConfig msg)
                Hf Hc Hs s) as [_ Hr].
  destruct (createLogger w (js_string (msg_requestId msg))
              (js_string (msg_source msg)) (js_string (msg_originalUrl msg))
              (msg_assetConfig msg) s) as [[r s1] t1] eqn:Hrun.
  unfold res in Hr. simpl in Hr. subst r.
  destruct (createLogger_store _ _ _ _ _ _ _ _ _ Hrun) as [Hdoc _].
  assert (Hrec : entries_of s1 (js_string (msg_originalUrl msg))
                   (js_string (msg_requestId msg)) <> []).
  { apply entries_of_recorded. rewrite Hdoc. simpl.
    destruct (List.find _ _) eqn:Hfind.
    - exact (find_is_request_Some _ _ _ Hfind).
    - rewrite map_app, elem_of_app. right. simpl.
      apply elem_of_cons. left. reflexivity. }
  unfold run_job. rewrite (store_of_bind _ _ _ _ _ _ Hrun).
  eapply store_extends_recorded; [| exact Hrec].
  pose proof (logEventCurried_extends w) as Hlog.
  match goal with
  | |- store_extends s1 (store_of (?m s1)) =>
      assert (Hch : changes store_extends m) by changes_all
  end.
  exact (Hch s1).
Qed.

Lemma entries_of_others st originalUrl requestId other :
  other <> requestId ->
  entries_of st originalUrl other =
  List.filter (is_request other)
    (others requestId (default [] (st !! originalUrl))).
Proof.
  intros Hne. unfold entries_of, others.
  generalize (default [] (st !! originalUrl)) as d.
  induction d as [| req rest IH]; simpl; [reflexivity |].
  destruct (is_request requestId req) eqn:Hr; simpl.
  - destruct (is_request other req) eqn:Ho; [| exact IH].
    apply is_request_iff in Hr, Ho. congruence.
  - rewrite IH. reflexivity.
Qed.

(** X13.  The intake never throws and answers by the book: 400 when
    [source], [originalUrl] or [overwriteUrl] is missing or empty, 500 when
    the broker cannot be reached, and otherwise 200 with a fresh
    identifier.  It publishes one message when it answers 200 and none
    otherwise, and it does not touch the log store. *)
Theorem createAssetJob_answers
  (w : World) (body : Msg) (s : LogStore) :
  let o := createAssetJob w body s in
  let valid := truthy_string (msg_source body)
               && truthy_string (msg_originalUrl body)
               && truthy_string (msg_overwriteUrl body) in
  res o = Ok (if valid
              then match connectRabbitMQ w with
                   | None => Res200 (uuidv4 w)
                   | Some _ => Res500
                   end
              else Res400) /\
  (published (acts o) <> [] <-> valid = true /\ connectRabbitMQ w = None) /\
  (length (published (acts o)) <= 1)%nat /\
  store_of o = s.
Proof.
  cbv zeta.
  unfold createAssetJob, try_catch, bind, lift_err, emit, logger, ret, throw,
    published, res, acts, store_of.
  destruct (truthy_string (msg_source body));
    destruct (truthy_string (msg_originalUrl body));
    destruct (truthy_string (msg_overwriteUrl body));
    destruct (connectRabbitMQ w); simpl;
    (split; [reflexivity |]);
    (split; [split; [try congruence; auto | intros [? ?]; congruence] |]);
    (split; [lia | reflexivity]).
Qed.

(** X14.  A [requestId] in the intake body takes the place of the
    generated one on the queue, while the response still names the
    generated one.  The worker files the job under the identifier of the
    body: with the store answering, the request is recorded under it, and
    under the identifier the client was given the log has nothing. *)
Theorem client_requestId_takes_over
  (w : World) (src url out r : string) (cfg : option AssetConfig)
  (kind : AssetKind) (s s' : LogStore) :
  let body := {| msg_requestId := Some r;
                 msg_source := Some src;
                 msg_originalUrl := Some url;
                 msg_overwriteUrl := Some out;
                 msg_assetConfig := cfg |} in
  src <> "" -> url <> "" -> out <> "" -> r <> "" -> r <> uuidv4 w ->
  connectRabbitMQ w = None ->
  json_parse w (json_stringify w body) = PValue body ->
  classification w url = Ok kind -> kind <> unknown ->
  (forall u, db_findOne w u = None) ->
  (forall u, db_create w u = None) ->
  (forall u, db_save w u = None) ->
  entries_of s' url (uuidv4 w) = [] ->
  let intake := createAssetJob w body s in
  let o := consume w (Some (json_stringify w body)) s' in
  res intake = Ok (Res200 (uuidv4 w)) /\
  published (acts intake) = [json_stringify w body] /\
  entries_of (store_of o) url r <> [] /\
  entries_of (store_of o) url (uuidv4 w) = [].
Proof.
  intros body Hsrc Hurl Hout Hr Hne Hconn Hparse Hkind Hknown Hf Hc Hs Hnone.
  cbv zeta.
  pose proof (truthy_string_Some _ Hsrc) as Ts.
  pose proof (truthy_string_Some _ Hurl) as Tu.
  pose proof (truthy_string_Some _ Hout) as To.
  pose proof (truthy_string_Some _ Hr) as Tr.
  split; [| split; [| split]].
  - unfold createAssetJob, try_catch, bind, lift_err, emit, logger, ret, res.
    cbn [msg_source msg_originalUrl msg_overwriteUrl body].
    rewrite Ts, Tu, To, Hconn. reflexivity.
  - unfold createAssetJob, try_catch, bind, lift_err, emit, logger, ret,
      published, acts.
    cbn [msg_source msg_originalUrl msg_overwriteUrl body].
    rewrite Ts, Tu, To, Hconn. reflexivity.
  - rewrite consume_store.
    destruct (processMessage_runs_job w (json_stringify w body) s' body kind
                Hparse Ts Tu Tr Hkind Hknown) as (t & _ & ->).
    exact (run_job_records_request w body kind s' Hf Hc Hs).
  - rewrite consume_store.
    pose proof (processMessage_only_touches w (json_stringify w body) s' body
                  Hparse) as [_ Hothers].
    simpl in Hothers.
    rewrite (entries_of_others _ url r (uuidv4 w)) by congruence.
    rewrite Hothers.
    rewrite <- (entries_of_others _ url r (uuidv4 w)) by congruence.
    exact Hnone.
Qed.

(** X14, at scenario 1 with a [requestId] in the body. *)
Lemma client_requestId_witness :
  let props := {| img_compress := None; img_cropParams := None |} in
  let body := {| msg_requestId := Some "my-id";
                 msg_source := Some "cms";
                 msg_originalUrl := Some "https://x/a.jpg";
                 msg_overwriteUrl := Some "https://x/a-out.jpg";
                 msg_assetConfig := Some (Scenario.image_config props) |} in
  let w := Scenario.image_world body true 1000 in
  let o := consume w (Some (json_stringify w body)) ∅ in
  res (createAssetJob w body ∅)
    = Ok (Res200 "1b9d6bcd-bbfd-4b2d-9b5d-ab8dfbbd4bed") /\
  entries_of (store_of o) "https://x/a.jpg" "my-id" <> [] /\
  entries_of (store_of o) "https://x/a.jpg"
    "1b9d6bcd-bbfd-4b2d-9b5d-ab8dfbbd4bed" = [].
Proof.
  intros props body w o.
  destruct (client_requestId_takes_over w "cms" "https://x/a.jpg"
              "https://x/a-out.jpg" "my-id"
              (Some (Scenario.image_config props)) image ∅ ∅
              ltac:(discriminate) ltac:(discriminate) ltac:(discriminate)
              ltac:(discriminate) ltac:(discriminate) eq_refl eq_refl
              eq_refl ltac:(discriminate) (fun _ => eq_refl)
              (fun _ => eq_refl) (fun _ => eq_refl) eq_refl)
    as (Hres & _ & Hmine & Htheirs).
  split; [exact Hres |]. split; [exact Hmine | exact Htheirs].
Defined.

(** ** The classifier *)

Lemma classification_by_header w url :
  classification w url =
  match fetch_head_type w url with
  | Ok r =>
      let contentType := default "" (head_content_type r) in
      Ok (if String.prefix "image/" contentType then image
          else if String.prefix "video/" contentType then video
          else if String.eqb contentType "application/pdf" then pdf
          else unknown)
  | Throw _ => Ok unknown
  end.
Proof.
  unfold classification, getAssetType, try_catch, bind, emit, lift, res.
  destruct (fetch_head_type w url) as [a |]; simpl; [| reflexivity].
  destruct (String.prefix "image/" _); [reflexivity |].
  destruct (String.prefix "video/" _); [reflexivity |].
  destruct (String.eqb _ _); reflexivity.
Qed.

(** A string starts with [p] when it is [p] followed by something. *)
Lemma prefix_app (p s : string) :
  String.prefix p s = true <-> exists rest, s = p +:+ rest.
Proof.
  revert s. induction p as [| a p IH]; intros s.
  - split; [intros _; exists s; reflexivity |].
    intros _. destruct s; reflexivity.
  - destruct s as [| b s].
    + split; [discriminate | intros [rest Hrest]; discriminate].
    + change (String.prefix (String a p) (String b s))
        with (if ascii_dec a b then String.prefix p s else false).
      destruct (ascii_dec a b) as [<- | Hab].
      * rewrite IH. split; intros [rest Hrest]; exists rest.
        -- rewrite Hrest. reflexivity.
        -- change (String a s = String a (p +:+ rest)) in Hrest.
           congruence.
      * split; [discriminate |]. intros [rest Hrest].
        change (String b s = String a (p +:+ rest)) in Hrest.
        congruence.
Qed.

(** X22.  The classifier never throws, asks the network once and leaves
    the store alone.  It goes by the [content-type] header alone, whatever
    the status of the response: the kind is [image] exactly when the header
    starts with [image/], [video] exactly when it starts with [video/],
    [pdf] exactly when it is [application/pdf], and [unknown] in every other
    case: a missing header, a failed request, any other type, and also
    [application/pdf] followed by parameters. *)
Theorem getAssetType_goes_by_the_header_alone
  (w : World) (url : string) (s : LogStore) :
  let o := getAssetType w url s in
  let header := match fetch_head_type w url with
                | Ok r => head_content_type r
                | Throw _ => None
                end in
  (exists kind, res o = Ok kind) /\
  store_of o = s /\
  network (acts o) = [AHead url] /\
  (res o = Ok image <-> exists rest, header = Some ("image/" +:+ rest)) /\
  (res o = Ok video <-> exists rest, header = Some ("video/" +:+ rest)) /\
  (res o = Ok pdf <-> header = Some "application/pdf") /\
  (res o = Ok unknown <->
   (forall rest, header <> Some ("image/" +:+ rest)) /\
   (forall rest, header <> Some ("video/" +:+ rest)) /\
   header <> Some "application/pdf") /\
  (forall params, params <> "" ->
     header = Some ("application/pdf" +:+ params) -> res o = Ok unknown).
Proof.
  cbv zeta.
  destruct (getAssetType_at w url s) as [t Hrun].
  pose proof (getAssetType_run w url s) as [Hout Hres].
  assert (Hr : res (getAssetType w url s) = classification w url)
    by (rewrite Hrun; reflexivity).
  rewrite Hr, classification_by_header.
  assert (Hnet : network (acts (getAssetType w url s)) = [AHead url]).
  { unfold network. rewrite <- seen_outward by (intros; reflexivity).
    rewrite Hout. reflexivity. }
  assert (Hst : store_of (getAssetType w url s) = s)
    by (rewrite Hrun; reflexivity).
  assert (Hnone :
    (exists kind : AssetKind, Ok unknown = Ok kind) /\
    store_of (getAssetType w url s) = s /\
    network (acts (getAssetType w url s)) = [AHead url] /\
    (Ok unknown = Ok image <->
     exists rest, @None string = Some ("image/" +:+ rest)) /\
    (Ok unknown = Ok video <->
     exists rest, @None string = Some ("video/" +:+ rest)) /\
    (Ok unknown = Ok pdf <-> @None string = Some "application/pdf") /\
    (@Ok AssetKind unknown = Ok unknown <->
     (forall rest, @None string <> Some ("image/" +:+ rest)) /\
     (forall rest, @None string <> Some ("video/" +:+ rest)) /\
     @None string <> Some "application/pdf") /\
    (forall params, params <> "" ->
       @None string = Some ("application/pdf" +:+ params) ->
       @Ok AssetKind unknown = Ok unknown)).
  { split; [eauto |]. split; [exact Hst |]. split; [exact Hnet |].
    split; [split; [discriminate | intros [rest H]; discriminate] |].
    split; [split; [discriminate | intros [rest H]; discriminate] |].
    split; [split; discriminate |].
    split; [| reflexivity].
    split; [| reflexivity].
    intros _. repeat split; intros; discriminate. }
  destruct (fetch_head_type w url) as [r | e]; [| exact Hnone].
  cbv zeta. destruct (head_content_type r) as [ct |]; [| exact Hnone].
  clear Hnone. change (default "" (Some ct)) with ct.
  assert (Himage : String.prefix "image/" ct = true <->
                   exists rest, Some ct = Some ("image/" +:+ rest)).
  { rewrite prefix_app. split; intros [rest H]; exists rest; congruence. }
  assert (Hvideo : String.prefix "video/" ct = true <->
                   exists rest, Some ct = Some ("video/" +:+ rest)).
  { rewrite prefix_app. split; intros [rest H]; exists rest; congruence. }
  assert (Hpdf : String.eqb ct "application/pdf" = true <->
                 Some ct = Some "application/pdf").
  { rewrite String.eqb_eq. split; congruence. }
  assert (Hapart : forall rest rest',
            "image/" +:+ rest <> "video/" +:+ rest') by (intros; discriminate).
  assert (Hpdf_image : forall rest, "application/pdf" <> "image/" +:+ rest)
    by (intros; discriminate).
  assert (Hpdf_video : forall rest, "application/pdf" <> "video/" +:+ rest)
    by (intros; discriminate).
  assert (Hparams : forall params, params <> "" ->
            "application/pdf" +:+ params <> "application/pdf").
  { intros params Hne H. destruct params; [congruence | discriminate]. }
  split; [eauto |]. split; [exact Hst |]. split; [exact Hnet |].
  destruct (String.prefix "image/" ct) eqn:HI.
  { destruct (proj1 Himage eq_refl) as [rest Hct].
    split; [split; [intros _; eauto | reflexivity] |].
    split.
    { split; [discriminate |]. intros [rest' H]. exfalso.
      apply (Hapart rest rest'). congruence. }
    split.
    { split; [discriminate |]. intros H. exfalso.
      apply (Hpdf_image rest). congruence. }
    split.
    { split; [discriminate |]. intros (H & _ & _). exfalso.
      exact (H rest Hct). }
    intros params Hne H. exfalso.
    injection Hct as Hct. injection H as H. rewrite Hct in H.
    revert H. clear. destruct params; discriminate. }
  assert (NI : forall rest, Some ct <> Some ("image/" +:+ rest)).
  { intros rest H. assert (Hx : false = true); [| discriminate].
    apply Himage. eauto. }
  destruct (String.prefix "video/" ct) eqn:HV.
  { destruct (proj1 Hvideo eq_refl) as [rest Hct].
    split.
    { split; [discriminate |]. intros [rest' H]. exfalso.
      exact (NI rest' H). }
    split; [split; [intros _; eauto | reflexivity] |].
    split.
    { split; [discriminate |]. intros H. exfalso.
      apply (Hpdf_video rest). congruence. }
    split.
    { split; [discriminate |]. intros (_ & H & _). exfalso.
      exact (H rest Hct). }
    intros params Hne H. exfalso.
    injection Hct as Hct. injection H as H. rewrite Hct in H.
    revert H. clear. destruct params; discriminate. }
  assert (NV : forall rest, Some ct <> Some ("video/" +:+ rest)).
  { intros rest H. assert (Hx : false = true); [| discriminate].
    apply Hvideo. eauto. }
  destruct (String.eqb ct "application/pdf") eqn:HP.
  { pose proof (proj1 Hpdf eq_refl) as Hct.
    split.
    { split; [discriminate |]. intros [rest' H]. exfalso.
      exact (NI rest' H). }
    split.
    { split; [discriminate |]. intros [rest' H]. exfalso.
      exact (NV rest' H). }
    split; [split; [intros _; exact Hct | reflexivity] |].
    split.
    { split; [discriminate |]. intros (_ & _ & H). exfalso. exact (H Hct). }
    intros params Hne H. exfalso.
    apply (Hparams params Hne). congruence. }
  assert (NP : Some ct <> Some "application/pdf").
  { intros H. assert (Hx : false = true); [| discriminate].
    apply Hpdf. exact H. }
  split.
  { split; [discriminate |]. intros [rest' H]. exfalso. exact (NI rest' H). }
  split.
  { split; [discriminate |]. intros [rest' H]. exfalso. exact (NV rest' H). }
  split; [split; [discriminate | intros H; exfalso; exact (NP H)] |].
  split; [| reflexivity].
  split; [| reflexivity].
  intros _. split; [exact NI |]. split; [exact NV | exact NP].
Qed.

(** ** From the logger to the store and back *)

Lemma filter_push_event requestId ev d :
  List.filter (is_request requestId) (push_event requestId ev d) =
  match List.filter (is_request requestId) d with
  | [] => []
  | req :: rest => with_event req ev :: rest
  end.
Proof.
  induction d as [| req rest IH]; simpl; [reflexivity |].
  destruct (is_request requestId req) eqn:Hr; simpl.
  - unfold is_request in *. simpl. rewrite Hr. reflexivity.
  - rewrite Hr. exact IH.
Qed.

Lemma existsb_is_request requestId d :
  List.filter (is_request requestId) d <> [] ->
  existsb (is_request requestId) d = true.
Proof.
  induction d as [| req rest IH]; simpl; [congruence |].
  destruct (is_request requestId req); [reflexivity | exact IH].
Qed.

(** X15.  What is handed to the appender lands where [createLogger] opened
    the log.  On a store without duplicates, after [createLogger] has
    returned, the document of the asset holds exactly one entry for the
    request; the appender never throws; when the update goes through, the
    event is the last event of that entry, its [error] stored as null when
    it was empty; when the update fails, the entry is as it was. *)
Theorem logged_event_lands_in_its_entry
  (w : World) (requestId source originalUrl : string)
  (cfg : option AssetConfig) (ev : LogEvent) (s : LogStore) (h : LogHandle) :
  unique_requests s ->
  let opened := createLogger w requestId source originalUrl cfg s in
  res opened = Ok h ->
  let logged := logEventCurried w h ev (store_of opened) in
  res logged = Ok tt /\
  exists req,
    entries_of (store_of opened) originalUrl requestId = [req] /\
    entries_of (store_of logged) originalUrl requestId =
      [match db_updateOne w originalUrl requestId (stored_event ev) with
       | None => with_event req (stored_event ev)
       | Some _ => req
       end].
Proof.
  intros Hu opened Hres logged. subst opened logged.
  split; [apply logEventCurried_returns |].
  pose proof (createLogger_handle _ _ _ _ _ _ _ Hres) as ->.
  pose proof (createLogger_keeps_unique w requestId source originalUrl cfg s
                Hu) as Hu1.
  destruct (createLogger w requestId source originalUrl cfg s)
    as [[r s1] t1] eqn:Hrun.
  unfold res, store_of in *. simpl in *. subst r.
  destruct (createLogger_store _ _ _ _ _ _ _ _ _ Hrun) as [Hdoc _].
  set (d := match List.find (is_request requestId)
                    (default [] (s !! originalUrl)) with
            | Some _ => default [] (s !! originalUrl)
            | None =>
                default [] (s !! originalUrl) ++
                [ {| rl_requestId := requestId; rl_source := source;
                     rl_processingConfig := cfg; rl_events := [] |} ]
            end) in *.
  assert (Hin : requestId ∈ map rl_requestId d).
  { subst d. destruct (List.find _ _) eqn:Hfind.
    - exact (find_is_request_Some _ _ _ Hfind).
    - rewrite map_app, elem_of_app. right. simpl.
      apply elem_of_cons. left. reflexivity. }
  pose proof (filter_is_request_once requestId d (Hu1 _ _ Hdoc) Hin) as Hone.
  destruct (List.filter (is_request requestId) d) as [| req [| ? ?]] eqn:Hfil;
    try discriminate.
  exists req.
  assert (Hfirst : entries_of s1 originalUrl requestId = [req]).
  { unfold entries_of. rewrite Hdoc. exact Hfil. }
  split; [exact Hfirst |].
  pose proof (logEventCurried_writes w
                {| h_originalUrl := originalUrl; h_requestId := requestId;
                   h_source := source |} ev s1) as Hw.
  unfold store_of in Hw. rewrite Hw. simpl.
  destruct (db_updateOne w originalUrl requestId (stored_event ev));
    [exact Hfirst |].
  unfold updateOne. rewrite Hdoc.
  rewrite existsb_is_request by (rewrite Hfil; discriminate).
  unfold entries_of. rewrite lookup_insert_eq. simpl.
  rewrite filter_push_event, Hfil. reflexivity.
Qed.

(** X15, at a fresh store and an event with an empty error. *)
Lemma logged_event_witness :
  let w := Scenario.image_world Scenario.body1 true 1000 in
  let ev := {| ev_status := warning; ev_message := "careful";
               ev_error := Some "" |} in
  let h := {| h_originalUrl := "https://x/a.jpg"; h_requestId := "r1";
              h_source := "cms" |} in
  let opened := createLogger w "r1" "cms" "https://x/a.jpg" None ∅ in
  entries_of (store_of (logEventCurried w h ev (store_of opened)))
    "https://x/a.jpg" "r1" =
  [ {| rl_requestId := "r1"; rl_source := "cms";
       rl_processingConfig := None;
       rl_events := [event warning "careful"] |} ].
Proof.
  intros w ev h opened.
  destruct (logged_event_lands_in_its_entry w "r1" "cms" "https://x/a.jpg"
              None ev ∅ h
              ltac:(intros u d Hd; rewrite lookup_empty in Hd; discriminate)
              eq_refl)
    as (_ & req & Hopened & Hlogged).
  assert (Hreq : req = {| rl_requestId := "r1"; rl_source := "cms";
                          rl_processingConfig := None; rl_events := [] |}).
  { subst opened.
    assert (Hc : entries_of
                   (store_of (createLogger w "r1" "cms" "https://x/a.jpg"
                                None ∅))
                   "https://x/a.jpg" "r1" =
                 [ {| rl_requestId := "r1"; rl_source := "cms";
                      rl_processingConfig := None; rl_events := [] |} ])
      by (vm_compute; reflexivity).
    congruence. }
  subst req. exact Hlogged.
Defined.

(** ** The executors *)

Section Probes.
Variables (w : World) (h : LogHandle) (inputPath : string).

Let fn : option (LogEvent -> M unit) := Some (logEventCurried w h).

Lemma video_validCrop_probes cropParams :
  always view_probes (video_validCrop w inputPath cropParams fn)
    (fun r t =>
       (exists valid, r = Ok valid) /\
       t = match cropParams with
           | Some _ => [AFfprobe inputPath]
           | None => []
           end).
Proof.
  unfold video_validCrop, getVideoDimensions, fn.
  run_auto; simpl; split; eauto.
Qed.

Lemma video_validTrim_probes trimParams :
  always view_probes (video_validTrim w inputPath trimParams fn)
    (fun r t =>
       (exists valid, r = Ok valid) /\
       t = match trimParams with
           | Some _ => [AFfprobe inputPath]
           | None => []
           end).
Proof.
  unfold video_validTrim, getVideoDuration, fn.
  run_auto; simpl; split; eauto.
Qed.

Lemma processVideo_probes cropParams trimParams compression :
  fs_mkdir w (path_join (cwd w) "processed") = None ->
  always view_probes
    (processVideo w inputPath cropParams trimParams compression fn)
    (fun _ t =>
       t = match cropParams with
           | Some _ => [AFfprobe inputPath]
           | None => []
           end ++
           match trimParams with
           | Some _ => [AFfprobe inputPath]
           | None => []
           end).
Proof.
  intros Hm. unfold processVideo. run_det.
  run_with video_validCrop_probes. destruct H as [[validCrop ->] ->].
  run_with video_validTrim_probes. destruct H as [[validTrim ->] ->].
  unfold fn.
  run_silent. destruct r; [| simpl; rewrite ?app_nil_r; reflexivity].
  run_silent. destruct r; [| simpl; rewrite ?app_nil_r; reflexivity].
  run_silent. destruct r; [| simpl; rewrite ?app_nil_r; reflexivity].
  run_auto; simpl; rewrite ?app_nil_r; reflexivity.
Qed.

Lemma processImage_probes compress cropParams :
  fs_mkdir w (path_join (cwd w) "processed") = None ->
  always view_probes (processImage w inputPath compress cropParams fn)
    (fun _ t =>
       t = match cropParams with
           | Some _ => [ASharpMetadata inputPath]
           | None => []
           end).
Proof.
  intros Hm. unfold processImage, image_crop, fn.
  run_auto; reflexivity.
Qed.
End Probes.

(** X16.  The executors probe the asset only when asked to: the image
    executor reads the metadata once when a crop is requested and not at
    all otherwise; the video executor runs ffprobe once for a requested
    crop and once more for a requested trim, and not at all when neither
    is requested. *)
Theorem executors_probe_only_when_asked
  (w : World) (h : LogHandle) (inputPath : string) (compress : option bool)
  (cropParams : option CropParams) (trimParams : option TrimParams)
  (s : LogStore) :
  fs_mkdir w (path_join (cwd w) "processed") = None ->
  let fn := Some (logEventCurried w h) in
  let img := processImage w inputPath compress cropParams fn s in
  let vid := processVideo w inputPath cropParams trimParams compress fn s in
  probes (acts img) = match cropParams with
                      | Some _ => [ASharpMetadata inputPath]
                      | None => []
                      end /\
  probes (acts vid) = match cropParams with
                      | Some _ => [AFfprobe inputPath]
                      | None => []
                      end ++
                      match trimParams with
                      | Some _ => [AFfprobe inputPath]
                      | None => []
                      end.
Proof.
  intros Hm. cbv zeta. split.
  - exact (processImage_probes w h inputPath compress cropParams Hm s).
  - exact (processVideo_probes w h inputPath cropParams trimParams compress
             Hm s).
Qed.

(** X16, at a video job that asks for a crop and a trim, and at one that
    asks for neither. *)
Lemma executors_probe_witness :
  let w := Scenario.video_world Scenario.body1 Scenario.probe_30s 1000 in
  let h := {| h_originalUrl := "https://x/a.mp4"; h_requestId := "r";
              h_source := "cms" |} in
  let c := {| crop_x := 0; crop_y := 0; crop_width := 10; crop_height := 10 |} in
  let t := {| trim_start := 1; trim_end := 2 |} in
  let fn := Some (logEventCurried w h) in
  probes (acts (processVideo w "/tmp/in" (Some c) (Some t) None fn ∅))
    = [AFfprobe "/tmp/in"; AFfprobe "/tmp/in"] /\
  probes (acts (processVideo w "/tmp/in" None None None fn ∅)) = [].
Proof.
  intros w h c t fn. split.
  - exact (proj2 (executors_probe_only_when_asked w h "/tmp/in" None
                    (Some c) (Some t) ∅ eq_refl)).
  - exact (proj2 (executors_probe_only_when_asked w h "/tmp/in" None
                    None None ∅ eq_refl)).
Defined.

Section Size_probe.
Variables (w : World) (h : LogHandle) (inputPath : string).

Let fn : option (LogEvent -> M unit) := Some (logEventCurried w h).

Lemma video_validCrop_returns cropParams :
  always view_events (video_validCrop w inputPath cropParams fn)
    (fun r _ => exists valid, r = Ok valid).
Proof.
  unfold video_validCrop, getVideoDimensions, fn. run_auto; simpl; eauto.
Qed.

Lemma video_validTrim_returns trimParams :
  always view_events (video_validTrim w inputPath trimParams fn)
    (fun r _ => exists valid, r = Ok valid).
Proof.
  unfold video_validTrim, getVideoDuration, fn. run_auto; simpl; eauto.
Qed.

Lemma video_applyTrim_returns trimParams validTrim :
  always view_events (video_applyTrim trimParams validTrim fn)
    (fun r _ => exists trim, r = Ok trim).
Proof. unfold video_applyTrim, fn. run_auto; simpl; eauto. Qed.

Lemma video_applyCrop_returns cropParams validCrop :
  always view_events (video_applyCrop cropParams validCrop fn)
    (fun r _ => exists filters, r = Ok filters).
Proof. unfold video_applyCrop, fn. run_auto; simpl; eauto. Qed.

Lemma video_compression_without_size compression e :
  fs_stat w inputPath = Throw e ->
  always view_events (video_compression w inputPath compression fn)
    (fun r t =>
       r = Ok [] /\
       t = [event_err warning
              "Error retrieving file size, proceeding without compression"
              e]).
Proof.
  intros Hs. unfold video_compression, fn. run_auto; simpl; auto.
Qed.

Lemma processVideo_without_size cropParams trimParams compression e :
  fs_mkdir w (path_join (cwd w) "processed") = None ->
  fs_stat w inputPath = Throw e ->
  always view_events
    (processVideo w inputPath cropParams trimParams compression fn)
    (fun _ t =>
       In (event_err warning
             "Error retrieving file size, proceeding without compression" e)
          t).
Proof.
  intros Hm Hs. unfold processVideo. run_det.
  run_with video_validCrop_returns. destruct H as [validCrop ->].
  run_with video_validTrim_returns. destruct H as [validTrim ->].
  run_with video_applyTrim_returns. destruct H as [trim ->].
  run_with video_applyCrop_returns. destruct H as [filters ->].
  run_with video_compression_without_size; [exact Hs |].
  destruct H as [-> ->].
  run_auto; simpl; rewrite ?app_nil_r;
    repeat (apply in_or_app; right); left; reflexivity.
Qed.
End Size_probe.

(** X17.  A size probe that fails is fatal for an image and harmless for a
    video.  The video executor catches the error of [fs.stat], logs a
    warning event with it, sets no compression option and goes on to the
    encoder.  The image executor catches nothing, so that nothing is
    encoded: it throws the error of [fs.stat], unless the crop block threw
    before it, with the error of the metadata probe or with the error of
    sharp refusing the rectangle. *)
Theorem size_probe_failure_degrades_video_but_fails_image
  (w : World) (h : LogHandle) (inputPath : string) (compress : option bool)
  (cropParams : option CropParams) (trimParams : option TrimParams)
  (e : Error) (s : LogStore) :
  fs_mkdir w (path_join (cwd w) "processed") = None ->
  fs_stat w inputPath = Throw e ->
  let fn := Some (logEventCurried w h) in
  let vid := processVideo w inputPath cropParams trimParams compress fn s in
  let img := processImage w inputPath compress cropParams fn s in
  (exists cmd,
     ffmpeg_commands (acts vid) = [cmd] /\
     ff_outputOptions cmd = [] /\
     res vid = encoded_video w inputPath cmd /\
     In (event_err warning
           "Error retrieving file size, proceeding without compression" e)
        (log_events (acts vid))) /\
  (sharp_jobs (acts img) = [] /\
   res img =
     Throw match cropParams with
           | None => e
           | Some c =>
               match sharp_metadata w inputPath with
               | Throw e1 => e1
               | Ok md =>
                   match sharp_extract_region w (image_region c md) with
                   | Some e2 => e2
                   | None => e
                   end
               end
           end).
Proof.
  intros Hm Hs. cbv zeta. split.
  - pose proof (processVideo_run w h inputPath cropParams trimParams compress
                  Hm s) as H.
    of_run H. destruct H as (cmd & Hcmd & Hr & _).
    exists cmd. unfold ffmpeg_commands.
    split; [exact Hcmd |].
    pose proof (processVideo_options w h inputPath cropParams trimParams
                  compress s) as [_ Hopt].
    rewrite Hs in Hopt.
    split; [apply Hopt; rewrite Hcmd; left; reflexivity |].
    split; [exact Hr |].
    exact (processVideo_without_size w h inputPath cropParams trimParams
             compress e Hm Hs s).
  - pose proof (processImage_run w h inputPath compress cropParams Hm s)
      as H.
    of_run H.
    unfold sharp_jobs, image_extracts, image_reaches_encoder, image_region
      in *.
    rewrite Hs in H.
    destruct cropParams as [c |].
    + destruct (sharp_metadata w inputPath) as [md | e1].
      * destruct (crop_exceeds c _ _); destruct H as [H _];
          destruct (sharp_extract_region w _);
          destruct H as [Hr Hj]; (split; [exact Hj | exact Hr]).
      * destruct H as (Hr & Hj & _). split; [exact Hj | exact Hr].
    + destruct H as [[Hr Hj] _]. split; [exact Hj | exact Hr].
Qed.

(** X17, at a video and an image whose size cannot be read: without a crop,
    with a crop that sharp takes, and with one that it refuses. *)
Lemma size_probe_failure_witness :
  let e := new_Error "EACCES: permission denied" in
  let w := Faults.with_fs_stat (fun _ => Throw e)
             (Scenario.video_world Scenario.body1 Scenario.probe_30s 1000) in
  let h := {| h_originalUrl := "https://x/a.mp4"; h_requestId := "r";
              h_source := "cms" |} in
  let fn := Some (logEventCurried w h) in
  let taken := {| crop_x := 0; crop_y := 0;
                  crop_width := 10; crop_height := 10 |} in
  let refused := {| crop_x := 10; crop_y := 10;
                    crop_width := -5; crop_height := 5 |} in
  res (processVideo w "/tmp/in" None None (Some true) fn ∅)
    = Ok "/app/processed/compressed-in.mp4" /\
  res (processImage w "/tmp/in" (Some true) None fn ∅) = Throw e /\
  res (processImage w "/tmp/in" (Some true) (Some taken) fn ∅) = Throw e /\
  res (processImage w "/tmp/in" (Some true) (Some refused) fn ∅)
    = Throw (new_Error
               "Expected integer for width but received -5 of type number").
Proof.
  intros e w h fn taken refused.
  split; [reflexivity |].
  split; [| split].
  - exact (proj2 (proj2 (size_probe_failure_degrades_video_but_fails_image
                           w h "/tmp/in" (Some true) None None e ∅
                           eq_refl eq_refl))).
  - exact (proj2 (proj2 (size_probe_failure_degrades_video_but_fails_image
                           w h "/tmp/in" (Some true) (Some taken) None e ∅
                           eq_refl eq_refl))).
  - exact (proj2 (proj2 (size_probe_failure_degrades_video_but_fails_image
                           w h "/tmp/in" (Some true) (Some refused) None e ∅
                           eq_refl eq_refl))).
Defined.

(** ** The paths of the temporary files *)

Lemma has_char_app c a b :
  has_char c (a +:+ b) = has_char c a || has_char c b.
Proof.
  induction a as [| x a IH]; [reflexivity |].
  change (has_char c (String x (a +:+ b)) =
          has_char c (String x a) || has_char c b).
  simpl. rewrite IH, orb_assoc. reflexivity.
Qed.

Lemma string_of_uint_plain (d : Decimal.uint) :
  has_char "/" (NilEmpty.string_of_uint d) = false /\
  has_char "." (NilEmpty.string_of_uint d) = false.
Proof. induction d; simpl; auto. Qed.

(** A number in decimal has neither a slash nor a dot. *)
Lemma show_Z_plain (z : Z) :
  has_char "/" (show_Z z) = false /\ has_char "." (show_Z z) = false.
Proof.
  unfold show_Z, NilZero.string_of_int, NilZero.string_of_uint.
  destruct (Z.to_int z) as [d | d];
    destruct (string_of_uint_plain d) as [H1 H2];
    destruct d; simpl in *; auto.
Qed.

Lemma last_segment_plain cur s :
  has_char "/" s = false -> last_segment cur s = cur +:+ s.
Proof.
  revert cur. induction s as [| c r IH]; intros cur; simpl.
  - intros _. induction cur as [| x cur IHc]; [reflexivity |].
    change (String x cur = String x (cur +:+ "")). f_equal. exact IHc.
  - rewrite orb_false_iff. intros [Hc Hr]. rewrite Hc, (IH _ Hr).
    apply append_assoc.
Qed.

Lemma last_segment_join cur a b :
  last_segment cur (path_join a b) = last_segment "" b.
Proof.
  unfold path_join. revert cur.
  induction a as [| c r IH]; intros cur.
  - reflexivity.
  - change (last_segment cur (String c (r +:+ "/" +:+ b)) =
            last_segment "" b).
    simpl. destruct (Ascii.eqb c "/"); apply IH.
Qed.

Lemma last_dot_plain s :
  has_char "." s = false -> last_dot None s = None.
Proof.
  induction s as [| c r IH]; simpl; [reflexivity |].
  rewrite orb_false_iff. intros [Hc Hr]. rewrite Hc. exact (IH Hr).
Qed.

(** The name of a file that has no extension is its own base name. *)
Lemma basename_plain dir c name :
  has_char "/" (String c name) = false ->
  has_char "." name = false ->
  let p := path_join dir (String c name) in
  extname p = "" /\ basename p (extname p) = String c name /\
  basename p "" = String c name.
Proof.
  intros Hs Hd p.
  assert (Hseg : last_segment "" p = String c name).
  { unfold p. rewrite last_segment_join.
    exact (last_segment_plain "" _ Hs). }
  assert (Hext : extname p = "").
  { unfold extname. rewrite Hseg, (last_dot_plain _ Hd). reflexivity. }
  split; [exact Hext |].
  rewrite Hext. unfold basename. rewrite Hseg. split; reflexivity.
Qed.

(** X18.  The temporary files of a job are named after the clock alone:
    the input is [<tmp>/asset-worker/input-<now>], without an extension,
    so that the image executor writes
    [<cwd>/processed/processed-input-<now>.webp], the video executor
    [<cwd>/processed/compressed-input-<now>.mp4], and Ghostscript
    [<tmp>/compressed-input-<now>]. *)
Theorem temporary_files_are_named_after_the_clock (w : World) :
  let now := show_Z (date_now_input w) in
  let processed := path_join (cwd w) "processed" in
  extname (worker_inputPath w) = "" /\
  image_outputPath w (worker_inputPath w)
    = path_join processed ("processed-input-" +:+ now +:+ ".webp") /\
  video_outputPath w (worker_inputPath w)
    = path_join processed ("compressed-input-" +:+ now +:+ ".mp4") /\
  gs_outputPath w (worker_inputPath w)
    = path_join (tmpdir w) ("compressed-input-" +:+ now).
Proof.
  cbv zeta.
  destruct (show_Z_plain (date_now_input w)) as [Hs Hd].
  destruct (basename_plain (worker_tempDir w) "i"
              ("nput-" +:+ show_Z (date_now_input w)))
    as (Hext & Hbase & Hbase').
  - change (has_char "/" ("input-" +:+ show_Z (date_now_input w)) = false).
    rewrite has_char_app, Hs. reflexivity.
  - rewrite has_char_app, Hd. reflexivity.
  - change (path_join (worker_tempDir w)
              (String "i" ("nput-" +:+ show_Z (date_now_input w))))
      with (worker_inputPath w) in *.
    unfold image_outputPath, video_outputPath, gs_outputPath.
    cbv zeta. rewrite Hbase, Hbase'.
    repeat split; try exact Hext; reflexivity.
Qed.

(** ** Where an upload comes from *)

Lemma step1_origin w h originalUrl inputPath requestId :
  always view_origin
    (step1_download w (logEventCurried w h) originalUrl inputPath requestId)
    (fun _ t => t = [] \/ exists data, t = [AWriteFile inputPath data]).
Proof.
  unfold step1_download, downloadFile. run_auto; simpl; eauto.
Qed.

Lemma step2_video_origin w h inputPath cfg requestId :
  always view_origin
    (step2_process w (logEventCurried w h) video inputPath cfg requestId)
    (fun r t =>
       match r with
       | Ok p =>
           p = video_outputPath w inputPath /\
           exists c,
             t = [AFfmpegSave c p] /\ ff_input c = inputPath /\
             ff_videoCodec c = "libx264" /\ ff_size c = Some "640x?"
       | Throw _ => forall u b ct, ~ In (APut u b ct) t
       end).
Proof.
  unfold step2_process, processAsset, kind_and_own. run_simpl. run_step.
  run_det. destruct cfg as [c |]; run_simpl;
    [| run_auto; intros u b ct []].
  run_det. destruct (videoProps c) as [props |]; run_simpl;
    [| run_auto; intros u b ct []].
  unfold processVideo. run_det.
  run_case; [run_auto; intros u b ct [] |].
  run_silent. destruct r as [validCrop | e];
    [| run_auto; intros u b ct []].
  run_silent. destruct r as [validTrim | e];
    [| run_auto; intros u b ct []].
  run_silent. destruct r as [trim | e];
    [| run_auto; intros u b ct []].
  run_silent. destruct r as [filters | e];
    [| run_auto; intros u b ct []].
  run_silent. destruct r as [outputOptions | e];
    [| run_auto; intros u b ct []].
  run_auto; simpl.
  - intros u b ct Hin. in_cases Hin; discriminate.
  - split; [reflexivity |]. eexists. repeat split.
Qed.

Lemma step2_pdf_origin w h inputPath cfg requestId :
  always view_origin
    (step2_process w (logEventCurried w h) pdf inputPath cfg requestId)
    (fun r t =>
       match r with
       | Ok p => p = pdf_outputPath w /\ exists doc, t = [AWriteFile p doc]
       | Throw _ => forall u b ct, ~ In (APut u b ct) t
       end).
Proof.
  unfold step2_process, processAsset, kind_and_own. run_simpl. run_step.
  run_det. destruct cfg as [c |]; run_simpl;
    [| run_auto; intros u b ct []].
  run_det. destruct (pdfProps c) as [props |]; run_simpl;
    [| run_auto; intros u b ct []].
  run_silent. destruct r as [buffer | e];
    [| run_auto; intros u b ct []].
  run_auto; simpl.
  - intros u b ct Hin. in_cases Hin; discriminate.
  - split; [reflexivity |]. eexists. reflexivity.
Qed.

Lemma step3_origin w p :
  always view_origin (step3_read w p)
    (fun r t => t = [] /\ forall b, r = Ok b -> fs_readFile w p = Ok b).
Proof.
  unfold step3_read. run_auto; simpl; split; try reflexivity;
    intros b Hb; congruence.
Qed.

Lemma step4_origin w h kind originalUrl overwriteUrl buffer requestId :
  always view_origin
    (step4_upload w (logEventCurried w h) kind originalUrl overwriteUrl
       buffer requestId)
    (fun _ t =>
       t = [] \/ t = [APut overwriteUrl buffer (getContentType kind)]).
Proof.
  unfold step4_upload, publicAssetExists, uploadFile.
  run_auto; simpl; auto.
Qed.

Lemma step5_origin w inputPath processedPath requestId :
  always view_origin (step5_cleanup w inputPath processedPath requestId)
    (fun _ t => t = []).
Proof.
  unfold step5_cleanup, cleanup_file. run_auto; simpl; auto.
Qed.

Lemma in_seen_origin (a : Action) (t : list Action) :
  view_origin a = [a] ->
  In a (seen view_origin t) <-> In a t.
Proof.
  intros Hv. unfold seen. rewrite in_flat_map. split.
  - intros (a' & Hin & Hx).
    destruct a'; simpl in Hx; try contradiction;
      destruct Hx as [<- | []]; exact Hin.
  - intros Hin. exists a. split; [exact Hin |]. rewrite Hv. left.
    reflexivity.
Qed.

(** What an upload implies, given what the processing step of the kind
    leaves behind. *)
Section Origin.
Variables (w : World) (msg : Msg) (kind : AssetKind).
Variable outputPath : string -> string.
Variable made : string -> Action -> Prop.
Hypothesis step2_origin :
  forall h inputPath cfg requestId,
    always view_origin
      (step2_process w (logEventCurried w h) kind inputPath cfg requestId)
      (fun r t =>
         match r with
         | Ok p =>
             p = outputPath inputPath /\
             exists a, t = [a] /\ made inputPath a
         | Throw _ => forall u b ct, ~ In (APut u b ct) t
         end).
Hypothesis made_no_put : forall p u b ct, ~ made p (APut u b ct).

Lemma run_job_origin :
  always view_origin (run_job w msg kind)
    (fun _ t =>
       forall u b ct,
         In (APut u b ct) t ->
         ct = getContentType kind /\
         fs_readFile w (outputPath (worker_inputPath w)) = Ok b /\
         exists a, In a t /\ made (worker_inputPath w) a).
Proof.
  unfold run_job.
  run_silent. destruct r as [handle | e]; [| intros u b ct []].
  run_silent. destruct r; [| intros u b ct []].
  run_silent. destruct r; [| intros u b ct []].
  run_silent. destruct r; [| intros u b ct []].
  run_with step1_origin.
  assert (Hwritten : forall u b ct, ~ In (APut u b ct) t).
  { intros u b ct Hin. destruct H as [-> | [data ->]];
      in_cases Hin; discriminate. }
  destruct r as [[] | e];
    [| intros u b ct Hin; simpl in Hin; rewrite ?app_nil_r in Hin;
       exfalso; exact (Hwritten u b ct Hin)].
  run_with step2_origin.
  destruct r as [processedPath | e].
  2: { intros u b ct Hin. simpl in Hin. exfalso.
       apply in_app_or in Hin as [Hin | Hin];
         [exact (Hwritten u b ct Hin) | exact (H0 u b ct Hin)]. }
  destruct H0 as (-> & made_a & -> & Hmade).
  run_with step3_origin. destruct H0 as [-> Hread].
  assert (Hdone : forall rest,
    rest = [] \/
    (exists buffer,
       fs_readFile w (outputPath (worker_inputPath w)) = Ok buffer /\
       rest = [APut (js_string (msg_overwriteUrl msg)) buffer
                 (getContentType kind)]) ->
    forall u b ct,
      In (APut u b ct) (t ++ made_a :: rest) ->
      ct = getContentType kind /\
      fs_readFile w (outputPath (worker_inputPath w)) = Ok b /\
      exists a0, In a0 (t ++ made_a :: rest) /\
                 made (worker_inputPath w) a0).
  { intros rest Hrest u b ct Hin.
    apply in_app_or in Hin as [Hin | [Hin | Hin]].
    - exfalso. exact (Hwritten u b ct Hin).
    - exfalso. subst made_a. exact (made_no_put _ _ _ _ Hmade).
    - destruct Hrest as [-> | (buffer & Hb & ->)]; [contradiction |].
      destruct Hin as [Hin | []]. injection Hin as <- <- <-.
      split; [reflexivity |]. split; [exact Hb |].
      exists made_a. split; [| exact Hmade].
      apply in_or_app. right. left. reflexivity. }
  destruct r as [processedBuffer | e];
    [| cbn [app]; apply (Hdone []); left; reflexivity].
  specialize (Hread processedBuffer eq_refl).
  run_with step4_origin.
  assert (Hrest : t0 = [] \/
    (exists buffer,
       fs_readFile w (outputPath (worker_inputPath w)) = Ok buffer /\
       t0 = [APut (js_string (msg_overwriteUrl msg)) buffer
               (getContentType kind)])).
  { destruct H0 as [-> | ->]; [left; reflexivity |].
    right. exists processedBuffer. split; [exact Hread | reflexivity]. }
  destruct r as [[|] | e].
  - run_step. cbn [app]. rewrite ?app_nil_r. exact (Hdone t0 Hrest).
  - run_with step5_origin. subst. cbn [app]. rewrite ?app_nil_r.
    exact (Hdone t0 Hrest).
  - cbn [app]. exact (Hdone t0 Hrest).
Qed.
End Origin.

(** X19.  What a video job or a PDF job uploads is what its executor
    produced.  An upload of a video job carries the bytes read from
    [<cwd>/processed/compressed-input-<now>.mp4], which ffmpeg was told to
    write from the downloaded input, with the codec libx264 and scaled to
    640 pixels wide, and it is labelled [video/mp4].  An upload of a PDF job
    carries the bytes read from the processed PDF the worker wrote, and it
    is labelled [application/pdf]. *)
Theorem video_and_pdf_uploads_come_from_the_executor
  (w : World) (msg : Msg) (s : LogStore) (u : string) (b : Buffer)
  (ct : string) :
  let vid := run_job w msg video s in
  let doc := run_job w msg pdf s in
  (In (APut u b ct) (acts vid) ->
   ct = "video/mp4" /\
   fs_readFile w (video_outputPath w (worker_inputPath w)) = Ok b /\
   exists c,
     In (AFfmpegSave c (video_outputPath w (worker_inputPath w)))
        (acts vid) /\
     ff_input c = worker_inputPath w /\
     ff_videoCodec c = "libx264" /\ ff_size c = Some "640x?") /\
  (In (APut u b ct) (acts doc) ->
   ct = "application/pdf" /\
   fs_readFile w (pdf_outputPath w) = Ok b /\
   exists file, In (AWriteFile (pdf_outputPath w) file) (acts doc)).
Proof.
  cbv zeta. split; intros Hin.
  - apply (in_seen_origin (APut u b ct) _ eq_refl) in Hin.
    destruct (run_job_origin w msg video (video_outputPath w)
                (fun inputPath a =>
                   exists c,
                     a = AFfmpegSave c (video_outputPath w inputPath) /\
                     ff_input c = inputPath /\
                     ff_videoCodec c = "libx264" /\
                     ff_size c = Some "640x?")) with (s := s) (u := u)
      (b := b) (ct := ct) as (Hct & Hread & a & Ha & c & -> & Hc).
    + intros h inputPath cfg requestId.
      eapply always_conseq; [apply step2_video_origin |].
      intros [p | e] t H; [| exact H].
      destruct H as (-> & c & -> & Hc).
      split; [reflexivity |]. eexists. split; [reflexivity |].
      exists c. split; [reflexivity | exact Hc].
    + intros p u0 b0 ct0 (c & Hc & _). discriminate.
    + exact Hin.
    + split; [exact Hct |]. split; [exact Hread |].
      exists c. split; [| exact Hc].
      apply (in_seen_origin (AFfmpegSave c _) _ eq_refl). exact Ha.
  - apply (in_seen_origin (APut u b ct) _ eq_refl) in Hin.
    destruct (run_job_origin w msg pdf (fun _ => pdf_outputPath w)
                (fun _ a => exists file,
                              a = AWriteFile (pdf_outputPath w) file))
      with (s := s) (u := u) (b := b) (ct := ct)
      as (Hct & Hread & a & Ha & file & ->).
    + intros h inputPath cfg requestId.
      eapply always_conseq; [apply step2_pdf_origin |].
      intros [p | e] t H; [| exact H].
      destruct H as (-> & file & ->).
      split; [reflexivity |]. eexists. split; [reflexivity |].
      exists file. reflexivity.
    + intros p u0 b0 ct0 (file & Hf). discriminate.
    + exact Hin.
    + split; [exact Hct |]. split; [exact Hread |].
      exists file. apply (in_seen_origin (AWriteFile _ file) _ eq_refl).
      exact Ha.
Qed.

(** ** The PDF executor *)

(** X20.  Unless compression is requested and the file is larger than
    50 KiB, [processPDF] hands back the very bytes it read: Ghostscript is
    not run, nothing is deleted, and the only event is the warning
    [Skipping PDF compression.].  When the input cannot be read, the error
    of the read is thrown and no event is logged. *)
Theorem processPDF_passes_through_unless_asked
  (w : World) (h : LogHandle) (inputPath : string) (compress : option bool)
  (s : LogStore) :
  let doc := processPDF w inputPath compress (Some (logEventCurried w h)) s in
  match fs_readFile w inputPath with
  | Throw e =>
      res doc = Throw e /\ log_events (acts doc) = [] /\
      gs_runs (acts doc) = []
  | Ok file =>
      truthy_bool compress = false \/ buffer_length file <= 50 * 1024 ->
      res doc = Ok file /\
      log_events (acts doc) = [event warning "Skipping PDF compression."] /\
      gs_runs (acts doc) = [] /\
      unlinks (acts doc) = []
  end.
Proof.
  cbv zeta. unfold log_events, gs_runs, unlinks.
  assert (Hrun : always view_outward
    (processPDF w inputPath compress (Some (logEventCurried w h)))
    (fun r t =>
       match fs_readFile w inputPath with
       | Throw e =>
           r = Throw e /\ seen view_events t = [] /\
           seen view_execs t = []
       | Ok file =>
           truthy_bool compress = false \/
           buffer_length file <= 50 * 1024 ->
           r = Ok file /\
           seen view_events t =
             [event warning "Skipping PDF compression."] /\
           seen view_execs t = [] /\ seen view_unlinks t = []
       end)).
  { unfold processPDF. run_det.
    destruct (fs_readFile w inputPath) as [file | e]; run_simpl;
      [| repeat split].
    destruct (truthy_bool compress && (buffer_length file >? PDF_MIN_SIZE))
      eqn:Hc.
    - apply above_floor_iff in Hc. destruct Hc as [Hc Hsize].
      change PDF_MIN_SIZE with (50 * 1024) in Hsize.
      intros s0 [Hno | Hsmall]; [congruence | lia].
    - run_auto. simpl. intros _. repeat split. }
  pose proof (Hrun s) as H. of_run H. exact H.
Qed.

(** X21.  When Ghostscript runs and exits normally, [processPDF] returns
    the compressed bytes only if it can read them and delete the temporary
    output.  When the output cannot be read, and also when it was read but
    cannot be deleted, the executor logs a warning event and returns the
    bytes of the input instead.  What Ghostscript wrote on its error
    stream is logged as a warning and changes nothing. *)
Theorem processPDF_result_after_ghostscript
  (w : World) (h : LogHandle) (inputPath : string) (compress : option bool)
  (file : Buffer) (stderr : string) (s : LogStore) :
  fs_readFile w inputPath = Ok file ->
  truthy_bool compress = true ->
  50 * 1024 < buffer_length file ->
  let out := gs_outputPath w inputPath in
  exec_gs w (gs_command out inputPath) = Ok stderr ->
  let doc := processPDF w inputPath compress (Some (logEventCurried w h)) s in
  res doc = Ok match fs_readFile w out, fs_unlink w out with
               | Ok compressed, None => compressed
               | _, _ => file
               end /\
  unlinks (acts doc) = match fs_readFile w out with
                       | Ok _ => [out]
                       | Throw _ => []
                       end /\
  (stderr <> "" ->
   In (event warning ("Ghostscript reported: " +:+ stderr))
      (log_events (acts doc))) /\
  (forall e,
     fs_readFile w out = Throw e \/
     ((exists compressed, fs_readFile w out = Ok compressed) /\
      fs_unlink w out = Some e) ->
     In (event_err warning
           ("Error during PDF compression: " +:+ err_message e) e)
        (log_events (acts doc))).
Proof.
  intros Hfile Hc Hsize out Hgs. cbv zeta. subst out.
  unfold log_events, unlinks.
  assert (Hfloor : truthy_bool compress
                   && (buffer_length file >? PDF_MIN_SIZE) = true).
  { apply above_floor_iff. split; [exact Hc | exact Hsize]. }
  assert (Hrun : always view_outward
    (processPDF w inputPath compress (Some (logEventCurried w h)))
    (fun r t =>
       r = Ok match fs_readFile w (gs_outputPath w inputPath),
                    fs_unlink w (gs_outputPath w inputPath) with
              | Ok compressed, None => compressed
              | _, _ => file
              end /\
       seen view_unlinks t =
         match fs_readFile w (gs_outputPath w inputPath) with
         | Ok _ => [gs_outputPath w inputPath]
         | Throw _ => []
         end /\
       (stderr <> "" ->
        In (event warning ("Ghostscript reported: " +:+ stderr))
           (seen view_events t)) /\
       (forall e,
          fs_readFile w (gs_outputPath w inputPath) = Throw e \/
          ((exists compressed,
              fs_readFile w (gs_outputPath w inputPath) = Ok compressed) /\
           fs_unlink w (gs_outputPath w inputPath) = Some e) ->
          In (event_err warning
                ("Error during PDF compression: " +:+ err_message e) e)
             (seen view_events t)))).
  { unfold processPDF, pdf_compress_pass.
    fold (gs_outputPath w inputPath).
    run_det.
    destruct stderr as [| c rest]; run_det;
      (destruct (fs_readFile w (gs_outputPath w inputPath))
         as [compressed | e1] eqn:Hread; run_simpl; run_det;
       [destruct (fs_unlink w (gs_outputPath w inputPath))
          as [e2 |] eqn:Hunlink; run_simpl; run_det |]);
      simpl; (split; [reflexivity |]); (split; [reflexivity |]);
      (split; [intros Hne; try congruence; in_list |]);
      intros e [He | [[cb Hcb] He]]; try congruence;
      try (injection He as <-); in_list. }
  pose proof (Hrun s) as H. of_run H. exact H.
Qed.

(** X21, at a Ghostscript run whose output cannot be deleted. *)
Lemma processPDF_result_witness :
  let file := repeat x25 (Z.to_nat 51201) in
  let e := new_Error "EPERM: operation not permitted, unlink" in
  let w := Scenario.world (PValue Scenario.body1) (Some "application/pdf")
             true Scenario.metadata_800x600 Scenario.probe_30s file 51201
             (Ok "") None (Some e) in
  let h := {| h_originalUrl := "https://x/a.pdf"; h_requestId := "r";
              h_source := "cms" |} in
  let doc := processPDF w "/tmp/asset-worker/input-1" (Some true)
               (Some (logEventCurried w h)) ∅ in
  res doc = Ok file /\
  unlinks (acts doc) = ["/tmp/compressed-input-1"].
Proof.
  intros file e w h doc.
  assert (Hsize : 50 * 1024 < buffer_length file) by (vm_compute; reflexivity).
  destruct (processPDF_result_after_ghostscript w h
              "/tmp/asset-worker/input-1" (Some true) file "" ∅
              eq_refl eq_refl Hsize eq_refl) as (Hr & Hu & _).
  split; [exact Hr | exact Hu].
Defined.

(** ** The existence check *)

Lemma step4_unchecked w h kind originalUrl overwriteUrl buffer requestId :
  match fetch_head_exists w originalUrl with
  | Ok r => head_ok r = false
  | Throw _ => True
  end ->
  always view_checked
    (step4_upload w (logEventCurried w h) kind originalUrl overwriteUrl
       buffer requestId)
    (fun r t =>
       r = Ok true /\
       t = [AHead originalUrl;
            ALogEvent
              (event completed
                 "Original asset deleted by user. Skipping final upload.")]).
Proof.
  intros Hgone. unfold step4_upload, publicAssetExists.
  destruct (fetch_head_exists w originalUrl) as [r | e] eqn:Hhead;
    run_det; rewrite ?Hgone; run_simpl; run_det; simpl; auto.
Qed.

Lemma run_job_unchecked w msg kind :
  match fetch_head_exists w (js_string (msg_originalUrl msg)) with
  | Ok r => head_ok r = false
  | Throw _ => True
  end ->
  always view_checked (run_job w msg kind)
    (fun r t =>
       ((exists e, r = Throw e) /\
        (t = [] \/
         exists ev, t = [ALogEvent ev] /\ ev_status ev = failed)) \/
       (r = Ok tt /\
        t = [AHead (js_string (msg_originalUrl msg));
             ALogEvent
               (event completed
                  "Original asset deleted by user. Skipping final upload.")])).
Proof.
  intros Hgone. unfold run_job.
  run_silent. destruct r as [handle | e]; [| left; eauto].
  run_silent. destruct r; [| left; eauto].
  run_silent. destruct r; [| left; eauto].
  run_silent. destruct r; [| left; eauto].
  eapply always_bind, always_conseq.
  { apply (always_conseq view_checked _
             (fun r t =>
                match r with
                | Ok _ => t = []
                | Throw e => exists ev, t = [ALogEvent ev] /\
                                        ev_status ev = failed
                end)).
    - unfold step1_download, downloadFile. run_auto; simpl; eauto.
    - intros r t H. exact H. }
  cbv beta. intros r t H.
  destruct r as [[] | e]; [subst | left; simpl; eauto].
  eapply always_bind, always_conseq.
  { apply (always_conseq view_checked _
             (fun r t =>
                match r with
                | Ok _ => t = []
                | Throw e => exists ev, t = [ALogEvent ev] /\
                                        ev_status ev = failed
                end)).
    - unfold step2_process. run_step.
      run_silent. destruct r as [p | e]; run_auto; simpl; eauto.
    - intros r t H. exact H. }
  cbv beta. intros r t H.
  destruct r as [processedPath | e]; [subst | left; simpl; eauto].
  run_silent. destruct r as [processedBuffer | e]; [| left; simpl; eauto].
  run_with step4_unchecked; [exact Hgone |].
  destruct H as [-> ->]. run_step. simpl. right. auto.
Qed.

Lemma in_seen_kept (keep : Action -> list Action) (a : Action)
  (t : list Action) :
  (forall x y, In y (keep x) -> y = x) ->
  keep a = [a] ->
  In a (seen keep t) <-> In a t.
Proof.
  intros Hself Hkeep. unfold seen. rewrite in_flat_map. split.
  - intros (x & Hin & Hx). rewrite (Hself _ _ Hx). exact Hin.
  - intros Hin. exists a. split; [exact Hin |]. rewrite Hkeep. left.
    reflexivity.
Qed.

Lemma view_checked_self (x y : Action) : In y (view_checked x) -> y = x.
Proof.
  destruct x; simpl; try contradiction;
    try (destruct (is_closing ev); simpl; try contradiction);
    intros [<- | []]; reflexivity.
Qed.

Lemma in_log_events (ev : LogEvent) (t : list Action) :
  In ev (log_events t) <-> In (ALogEvent ev) t.
Proof.
  unfold log_events, seen. rewrite in_flat_map. split.
  - intros (a & Hin & Hv). destruct a; simpl in Hv; try contradiction.
    destruct Hv as [<- | []]. exact Hin.
  - intros Hin. exists (ALogEvent ev). split; [exact Hin | left; reflexivity].
Qed.

Lemma checked_keeps_puts (t : list Action) :
  seen view_puts (seen view_checked t) = seen view_puts t.
Proof.
  apply seen_through. intros a.
  destruct a; simpl; auto. destruct (is_closing ev); auto.
Qed.

Lemma checked_keeps_cleanup (t : list Action) :
  seen view_cleanup (seen view_checked t) = seen view_cleanup t.
Proof.
  apply seen_through. intros a.
  destruct a; simpl; auto. destruct (is_closing ev); auto.
Qed.

(** X23.  An existence check that fails counts as a deletion.  When the
    HEAD request for the original asset fails or is answered with a status
    that is not ok, the job that reaches step 4 uploads nothing, logs
    [Original asset deleted by user. Skipping final upload.] as its only
    [completed] event and returns, so that the message is acknowledged; the
    cleanup is not entered. *)
Theorem failed_existence_check_counts_as_deleted
  (w : World) (msg : Msg) (kind : AssetKind) (s : LogStore) :
  match fetch_head_exists w (js_string (msg_originalUrl msg)) with
  | Ok r => head_ok r = false
  | Throw _ => True
  end ->
  let o := run_job w msg kind s in
  let skipped :=
    event completed
      "Original asset deleted by user. Skipping final upload." in
  uploads (acts o) = [] /\
  cleanup_probes (acts o) = [] /\
  (In (AHead (js_string (msg_originalUrl msg))) (acts o) ->
   res o = Ok tt /\ In skipped (log_events (acts o))) /\
  (forall ev, In ev (log_events (acts o)) -> ev_status ev = completed ->
     ev = skipped).
Proof.
  intros Hgone. cbv zeta.
  pose proof (run_job_unchecked w msg kind Hgone s) as H.
  unfold uploads, cleanup_probes.
  rewrite <- checked_keeps_puts, <- checked_keeps_cleanup.
  assert (Hhead : forall u,
    In (AHead u) (acts (run_job w msg kind s)) ->
    In (AHead u) (seen view_checked (acts (run_job w msg kind s)))).
  { intros u. apply in_seen_kept; [apply view_checked_self | reflexivity]. }
  assert (Hev : forall ev,
    In ev (log_events (acts (run_job w msg kind s))) ->
    ev_status ev = completed ->
    In (ALogEvent ev) (seen view_checked (acts (run_job w msg kind s)))).
  { intros ev Hin Hs. apply in_log_events in Hin.
    apply in_seen_kept; [apply view_checked_self | | exact Hin].
    simpl. unfold is_closing. rewrite Hs. reflexivity. }
  assert (Hback : forall ev,
    In (ALogEvent ev) (seen view_checked (acts (run_job w msg kind s))) ->
    In ev (log_events (acts (run_job w msg kind s)))).
  { intros ev Hin. apply in_log_events.
    unfold seen in Hin. apply in_flat_map in Hin as (x & Hx & Hy).
    rewrite (view_checked_self _ _ Hy). exact Hx. }
  destruct H as [[[e He] [Ht | (ev & Ht & Hs)]] | [Hr Ht]];
    rewrite Ht in *; simpl.
  - split; [reflexivity |]. split; [reflexivity |].
    split; [intros Hin; apply Hhead in Hin; contradiction |].
    intros ev Hin Hs. apply (Hev ev Hin) in Hs. contradiction.
  - split; [reflexivity |]. split; [reflexivity |].
    split; [intros Hin; apply Hhead in Hin; in_cases Hin; discriminate |].
    intros ev' Hin Hs'. pose proof (Hev ev' Hin Hs') as Hk. in_cases Hk.
    injection Hk as <-. congruence.
  - split; [reflexivity |]. split; [reflexivity |].
    split.
    + intros _. split; [exact Hr |]. apply Hback. in_list.
    + intros ev Hin Hs. pose proof (Hev ev Hin Hs) as Hk. in_cases Hk;
        try discriminate. injection Hk as <-. reflexivity.
Qed.

(** X23, at an image job whose original answers 404 when the upload is
    due. *)
Lemma failed_existence_check_witness :
  let props := {| img_compress := None; img_cropParams := None |} in
  let queued := Scenario.queued
                  (Scenario.with_config (Scenario.image_config props)) in
  let w := Scenario.image_world queued false 1000 in
  let o := run_job w queued image ∅ in
  res o = Ok tt /\ uploads (acts o) = [] /\ cleanup_probes (acts o) = [].
Proof.
  intros props queued w o.
  destruct (failed_existence_check_counts_as_deleted w queued image ∅
              eq_refl) as (Hup & Hcl & Hhead & _).
  assert (Hin : In (AHead "https://x/a.jpg") (acts o))
    by (vm_compute; in_list).
  split; [exact (proj1 (Hhead Hin)) |]. split; [exact Hup | exact Hcl].
Defined.

(** ** The broker connection *)

Lemma connect_each_cached bs st ch :
  Queue.channel st = Some ch ->
  Queue.connect_each bs st = (map (fun _ => Ok ch) bs, st, []).
Proof.
  intros Hch. induction bs as [| b rest IH]; simpl; [reflexivity |].
  unfold Queue.connectRabbitMQ. rewrite Hch, IH. reflexivity.
Qed.

(** X24.  The connection to the broker is made once.  After a call of
    [connectRabbitMQ] has returned a channel, every later call returns that
    channel and asks nothing of the broker, whatever the broker would
    answer: it neither connects, nor creates a channel, nor asserts the
    queue again. *)
Theorem connectRabbitMQ_connects_once
  (b : Queue.Broker) (st st' : Queue.State) (ch : Queue.Channel)
  (calls : list Queue.Call) (later : list Queue.Broker) :
  Queue.connectRabbitMQ b st = (Ok ch, st', calls) ->
  Queue.channel st' = Some ch /\
  Queue.connect_each later st' = (map (fun _ => Ok ch) later, st', []) /\
  (Queue.channel st = None ->
   calls = [Queue.Connect "amqp://localhost";
            Queue.CreateChannel (default 0%nat (Queue.connection st'));
            Queue.AssertQueue ch "asset_processing_queue" true;
            Queue.ConsoleLog
              "Asset Server: connected to RabbitMQ at amqp://localhost"]).
Proof.
  intros Hrun.
  assert (Hch : Queue.channel st' = Some ch /\
    (Queue.channel st = None ->
     calls = [Queue.Connect "amqp://localhost";
              Queue.CreateChannel (default 0%nat (Queue.connection st'));
              Queue.AssertQueue ch "asset_processing_queue" true;
              Queue.ConsoleLog
                "Asset Server: connected to RabbitMQ at amqp://localhost"])).
  { revert Hrun. unfold Queue.connectRabbitMQ.
    destruct (Queue.channel st) as [ch0 |] eqn:Hst.
    - intros H. injection H as <- <- <-. split; [exact Hst | discriminate].
    - destruct (Queue.amqp_connect b Queue.RABBIT_URL) as [conn | e];
        [| discriminate].
      destruct (Queue.createChannel b conn) as [ch1 | e]; [| discriminate].
      destruct (Queue.assertQueue b ch1 Queue.PROCESSING_QUEUE true);
        [discriminate |].
      intros H. injection H as <- <- <-. split; reflexivity. }
  destruct Hch as [Hch Hcalls].
  split; [exact Hch |].
  split; [exact (connect_each_cached later st' ch Hch) | exact Hcalls].
Qed.

(** X24, at a first call and three more. *)
Lemma connectRabbitMQ_connects_once_witness :
  let up := {| Queue.amqp_connect := fun _ => Ok 1%nat;
               Queue.createChannel := fun _ => Ok 7%nat;
               Queue.assertQueue := fun _ _ _ => None |} in
  let down := {| Queue.amqp_connect :=
                   fun _ => Throw (new_Error "ECONNREFUSED");
                 Queue.createChannel := fun _ => Ok 8%nat;
                 Queue.assertQueue := fun _ _ _ => None |} in
  let st' := {| Queue.connection := Some 1%nat;
                Queue.channel := Some 7%nat |} in
  Queue.connect_each [down; up; down] st'
    = ([Ok 7%nat; Ok 7%nat; Ok 7%nat], st', []).
Proof.
  intros up down st'.
  exact (proj1 (proj2 (connectRabbitMQ_connects_once up Queue.initial st'
                         7%nat _ [down; up; down] eq_refl))).
Defined.

(** X25.  A connection that fails half way leaves its half behind.  When
    [createChannel] throws, the connection that was opened stays in the
    module and is never used again: the next call opens another one.  When
    [assertQueue] throws, the call throws, but the channel is already
    cached: every later call returns it without asserting the queue. *)
Theorem connectRabbitMQ_keeps_what_a_failed_call_made
  (b : Queue.Broker) (st : Queue.State) (conn : Queue.Connection)
  (e : Error) :
  Queue.channel st = None ->
  Queue.amqp_connect b "amqp://localhost" = Ok conn ->
  (Queue.createChannel b conn = Throw e ->
   let st1 := {| Queue.connection := Some conn; Queue.channel := None |} in
   Queue.connectRabbitMQ b st =
     (Throw e, st1,
      [Queue.Connect "amqp://localhost"; Queue.CreateChannel conn]) /\
   forall b',
     hd_error (snd (Queue.connectRabbitMQ b' st1))
       = Some (Queue.Connect "amqp://localhost")) /\
  (forall ch,
     Queue.createChannel b conn = Ok ch ->
     Queue.assertQueue b ch "asset_processing_queue" true = Some e ->
     let st2 := {| Queue.connection := Some conn;
                   Queue.channel := Some ch |} in
     Queue.connectRabbitMQ b st =
       (Throw e, st2,
        [Queue.Connect "amqp://localhost"; Queue.CreateChannel conn;
         Queue.AssertQueue ch "asset_processing_queue" true]) /\
     forall b', Queue.connectRabbitMQ b' st2 = (Ok ch, st2, [])).
Proof.
  intros Hst Hconn. split.
  - intros Hch. cbv zeta. split.
    + unfold Queue.connectRabbitMQ.
      change Queue.RABBIT_URL with "amqp://localhost".
      rewrite Hst, Hconn, Hch. reflexivity.
    + intros b'. unfold Queue.connectRabbitMQ. simpl.
      destruct (Queue.amqp_connect b' Queue.RABBIT_URL) as [c' | e'];
        [| reflexivity].
      destruct (Queue.createChannel b' c') as [ch' | e']; [| reflexivity].
      destruct (Queue.assertQueue b' ch' Queue.PROCESSING_QUEUE true);
        reflexivity.
  - intros ch Hch Hassert. cbv zeta. split.
    + unfold Queue.connectRabbitMQ.
      change Queue.RABBIT_URL with "amqp://localhost".
      change Queue.PROCESSING_QUEUE with "asset_processing_queue".
      rewrite Hst, Hconn, Hch, Hassert. reflexivity.
    + intros b'. reflexivity.
Qed.

(** X25, at a broker that refuses the queue. *)
Lemma connectRabbitMQ_failed_call_witness :
  let e := new_Error "PRECONDITION_FAILED - inequivalent arg 'durable'" in
  let b := {| Queue.amqp_connect := fun _ => Ok 1%nat;
              Queue.createChannel := fun _ => Ok 7%nat;
              Queue.assertQueue := fun _ _ _ => Some e |} in
  let st2 := {| Queue.connection := Some 1%nat;
                Queue.channel := Some 7%nat |} in
  Queue.connectRabbitMQ b Queue.initial =
    (Throw e, st2,
     [Queue.Connect "amqp://localhost"; Queue.CreateChannel 1%nat;
      Queue.AssertQueue 7%nat "asset_processing_queue" true]) /\
  Queue.connectRabbitMQ b st2 = (Ok 7%nat, st2, []).
Proof.
  intros e b st2.
  destruct (connectRabbitMQ_keeps_what_a_failed_call_made b Queue.initial
              1%nat e eq_refl eq_refl) as [_ H].
  destruct (H 7%nat eq_refl eq_refl) as [Hfirst Hnext].
  split; [exact Hfirst | exact (Hnext b)].
Defined.

(** ** Failures of the log *)

Section Same_outside.
Context {A B : Type}.

Lemma same_ret (a : A) : same_outside (ret a) (ret a).
Proof. intros s1 s2. split; reflexivity. Qed.

Lemma same_throw (e : Error) : same_outside (@throw A e) (throw e).
Proof. intros s1 s2. split; reflexivity. Qed.

Lemma same_emit (a : Action) : same_outside (emit a) (emit a).
Proof. intros s1 s2. split; reflexivity. Qed.

Lemma same_logger lv1 text1 lv2 text2 :
  same_outside (logger lv1 text1) (logger lv2 text2).
Proof. intros s1 s2. split; reflexivity. Qed.

Lemma same_lift (r : result A) : same_outside (lift r) (lift r).
Proof. intros s1 s2. destruct r; split; reflexivity. Qed.

Lemma same_lift_err (o : option Error) :
  same_outside (lift_err o) (lift_err o).
Proof. intros s1 s2. destruct o; split; reflexivity. Qed.

Lemma same_bind (m1 m2 : M A) (f1 f2 : A -> M B) :
  same_outside m1 m2 -> (forall a, same_outside (f1 a) (f2 a)) ->
  same_outside (bind m1 f1) (bind m2 f2).
Proof.
  intros Hm Hf s1 s2. destruct (Hm s1 s2) as [Hr Ht].
  unfold bind, res, acts, outward in *.
  destruct (m1 s1) as [[r1 s1'] t1]; destruct (m2 s2) as [[r2 s2'] t2].
  simpl in *. subst r2.
  destruct r1 as [a | e]; [| split; [reflexivity | exact Ht]].
  destruct (Hf a s1' s2') as [Hr' Ht']. unfold res, acts, outward in *.
  destruct (f1 a s1') as [[r1' s1''] t1'];
    destruct (f2 a s2') as [[r2' s2''] t2'].
  simpl in *. split; [exact Hr' |].
  rewrite !seen_app, Ht, Ht'. reflexivity.
Qed.

Lemma same_try_catch (m1 m2 : M A) (h1 h2 : Error -> M A) :
  same_outside m1 m2 -> (forall e, same_outside (h1 e) (h2 e)) ->
  same_outside (try_catch m1 h1) (try_catch m2 h2).
Proof.
  intros Hm Hh s1 s2. destruct (Hm s1 s2) as [Hr Ht].
  unfold try_catch, res, acts, outward in *.
  destruct (m1 s1) as [[r1 s1'] t1]; destruct (m2 s2) as [[r2 s2'] t2].
  simpl in *. subst r2.
  destruct r1 as [a | e]; [split; [reflexivity | exact Ht] |].
  destruct (Hh e s1' s2') as [Hr' Ht']. unfold res, acts, outward in *.
  destruct (h1 e s1') as [[r1' s1''] t1'];
    destruct (h2 e s2') as [[r2' s2''] t2'].
  simpl in *. split; [exact Hr' |].
  rewrite !seen_app, Ht, Ht'. reflexivity.
Qed.
End Same_outside.

(** Whether the update goes through or not, the appender returns and shows
    the event it was handed. *)
Lemma same_logEvent w1 w2 h ev :
  same_outside (logEventCurried w1 h ev) (logEventCurried w2 h ev).
Proof.
  intros s1 s2.
  unfold logEventCurried, bind, try_catch, lift_err, emit, get_store,
    put_store, logger, res, acts, outward.
  destruct (db_updateOne w1 _ _ _), (db_updateOne w2 _ _ _);
    split; reflexivity.
Qed.

Ltac same_step :=
  lazymatch goal with
  | |- same_outside (logEventCurried _ _ _) (logEventCurried _ _ _) =>
      apply same_logEvent
  | |- same_outside (bind _ _) (bind _ _) => apply same_bind; [| intros ?]
  | |- same_outside (try_catch _ _) (try_catch _ _) =>
      apply same_try_catch; [| intros ?]
  | |- same_outside (ret _) (ret _) => apply same_ret
  | |- same_outside (throw _) (throw _) => apply same_throw
  | |- same_outside (lift _) (lift _) => apply same_lift
  | |- same_outside (lift_err _) (lift_err _) => apply same_lift_err
  | |- same_outside (logger _ _) (logger _ _) => apply same_logger
  | |- same_outside (emit _) (emit _) => apply same_emit
  | |- same_outside (match ?x with _ => _ end) (match ?y with _ => _ end) =>
      change x with y; destruct y
  end.

Lemma same_after {A B : Type} (m : M A) (f1 f2 : A -> M B) s :
  (forall a, same_outside (f1 a) (f2 a)) ->
  res (bind m f1 s) = res (bind m f2 s) /\
  outward (acts (bind m f1 s)) = outward (acts (bind m f2 s)).
Proof.
  intros Hf. unfold bind, res, acts, outward.
  destruct (m s) as [[[a | e] s1] t1]; simpl; [| split; reflexivity].
  destruct (Hf a s1 s1) as [Hr Ht]. unfold res, acts, outward in *.
  destruct (f1 a s1) as [[r1 s1'] t1']; destruct (f2 a s1) as [[r2 s2'] t2'].
  simpl in *. split; [exact Hr |]. rewrite !seen_app, Ht. reflexivity.
Qed.

(** X26.  A log store that refuses events changes nothing but the log.
    Whatever [updateOne] answers, whenever it answers it, a job started on
    the same store returns or throws the same, and does the same to the
    outside world: the same requests, the same files, the same encoder
    runs and the same events handed to the logger. *)
Theorem log_failures_never_change_the_job
  (w : World) (answer : string -> string -> LogEvent -> option Error)
  (msg : Msg) (kind : AssetKind) (s : LogStore) :
  let w' := Faults.with_db_updateOne answer w in
  res (run_job w' msg kind s) = res (run_job w msg kind s) /\
  outward (acts (run_job w' msg kind s))
    = outward (acts (run_job w msg kind s)).
Proof.
  cbv zeta. unfold run_job.
  change (createLogger (Faults.with_db_updateOne answer w))
    with (createLogger w).
  apply same_after. intros handle.
  autounfold with worker. repeat same_step.
Qed.

(** X27.  The log cannot be opened: the job is over before it starts.
    When [createLogger] throws, because looking up, creating or saving the
    document fails, the job throws the same error and does nothing else: no
    event, no folder, no request.  The consumer rejects the message
    without requeue. *)
Theorem job_needs_its_log
  (w : World) (content : Buffer) (msg : Msg) (kind : AssetKind)
  (s : LogStore) (e : Error) :
  res (createLogger w (js_string (msg_requestId msg))
         (js_string (msg_source msg)) (js_string (msg_originalUrl msg))
         (msg_assetConfig msg) s) = Throw e ->
  res (run_job w msg kind s) = Throw e /\
  acts (run_job w msg kind s) = [] /\
  (json_parse w content = PValue msg ->
   truthy_string (msg_source msg) = true ->
   truthy_string (msg_originalUrl msg) = true ->
   truthy_string (msg_requestId msg) = true ->
   classification w (js_string (msg_originalUrl msg)) = Ok kind ->
   kind <> unknown ->
   outward (acts (consume w (Some content) s))
     = [AHead (js_string (msg_originalUrl msg)); ANack false false]).
Proof.
  intros Hlog.
  assert (Hsilent : acts (createLogger w (js_string (msg_requestId msg))
                            (js_string (msg_source msg))
                            (js_string (msg_originalUrl msg))
                            (msg_assetConfig msg) s) = []).
  { assert (H : emits (fun _ => False)
                  (createLogger w (js_string (msg_requestId msg))
                     (js_string (msg_source msg))
                     (js_string (msg_originalUrl msg))
                     (msg_assetConfig msg)))
      by (unfold createLogger; emits_auto).
    specialize (H s). destruct H as [| a t Ha _]; [reflexivity | contradiction]. }
  assert (Hjob : res (run_job w msg kind s) = Throw e /\
                 acts (run_job w msg kind s) = []).
  { unfold run_job, bind, res, acts in *.
    destruct (createLogger w _ _ _ _ s) as [[r s1] t1]. simpl in *.
    subst r t1. split; reflexivity. }
  destruct Hjob as [Hr Ha].
  split; [exact Hr |]. split; [exact Ha |].
  intros Hp H1 H2 H3 Hk Hne.
  destruct (processMessage_runs_job w content s msg kind Hp H1 H2 H3 Hk Hne)
    as (t & Ht & Hrun).
  unfold consume, try_catch, bind, parsed_requestId, outward, acts.
  rewrite Hrun, Hr, Ha, Hp. simpl. rewrite !app_nil_r, !seen_app.
  unfold outward in Ht. rewrite Ht. reflexivity.
Qed.

(** X27, at a log store that cannot be reached. *)
Lemma job_needs_its_log_witness :
  let e := new_Error "MongoNetworkError: connection timed out" in
  let props := {| img_compress := None; img_cropParams := None |} in
  let queued := Scenario.queued
                  (Scenario.with_config (Scenario.image_config props)) in
  let w := Faults.with_db_findOne (fun _ => Some e)
             (Scenario.image_world queued true 1000) in
  outward (acts (consume w (Some Scenario.bytes) ∅))
    = [AHead "https://x/a.jpg"; ANack false false].
Proof.
  intros e props queued w.
  destruct (job_needs_its_log w Scenario.bytes queued image ∅ e eq_refl)
    as (_ & _ & H).
  exact (H eq_refl eq_refl eq_refl eq_refl eq_refl ltac:(discriminate)).
Defined.

(** X28.  [processAsset] runs the executor of the kind only when the
    options bag has an entry for that kind; the entries of other kinds do
    not count.  Without the entry it throws [Unsupported asset type: <kind>]
    before anything is done.  An entry whose value is null counts as an
    entry: the executor then runs without any option. *)
Theorem processAsset_needs_the_options_of_its_kind
  (w : World) (h : LogHandle) (kind : AssetKind) (inputPath : string)
  (c : AssetConfig) (s : LogStore) :
  let fn := Some (logEventCurried w h) in
  let o := processAsset w kind inputPath (Some c) fn s in
  let own := match kind with
             | image => hasOwnProperty (imageProps c)
             | video => hasOwnProperty (videoProps c)
             | pdf => hasOwnProperty (pdfProps c)
             | unknown => false
             end in
  (own = false ->
   o = (Throw (new_Error ("Unsupported asset type: " +:+ kind_name kind)),
        s, [])) /\
  (imageProps c = Some None ->
   processAsset w image inputPath (Some c) fn s
     = processImage w inputPath None None fn s) /\
  (videoProps c = Some None ->
   processAsset w video inputPath (Some c) fn s
     = processVideo w inputPath None None None fn s) /\
  (pdfProps c = Some None ->
   res (processAsset w pdf inputPath (Some c) fn s)
     = match res (processPDF w inputPath None fn s) with
       | Ok file =>
           match fs_writeFile w (pdf_outputPath w) file with
           | None => Ok (pdf_outputPath w)
           | Some e => Throw e
           end
       | Throw e => Throw e
       end).
Proof.
  cbv zeta.
  assert (Hret : forall (A B : Type) (a : A) (f : A -> M B) s0,
            bind (ret a) f s0 = f a s0).
  { intros A B a f s0. unfold bind, ret.
    destruct (f a s0) as [[r s1] t1]. reflexivity. }
  split; [| split; [| split]].
  - unfold processAsset, kind_and_own.
    destruct kind; simpl;
      destruct (imageProps c), (videoProps c), (pdfProps c); simpl;
      intros H; try discriminate; reflexivity.
  - intros Hi. unfold processAsset, kind_and_own. simpl.
    rewrite Hi. simpl. rewrite Hret. reflexivity.
  - intros Hv. unfold processAsset, kind_and_own. simpl.
    rewrite Hv. simpl. rewrite Hret. simpl. rewrite Hret. reflexivity.
  - intros Hp. unfold processAsset, kind_and_own. simpl.
    rewrite Hp. simpl. rewrite Hret. simpl. rewrite Hret. simpl.
    rewrite Hret. simpl.
    unfold bind, emit, lift_err, ret, throw, res, pdf_outputPath,
      worker_tempDir.
    destruct (processPDF w inputPath None (Some (logEventCurried w h)) s)
      as [[[file | e] s1] t1]; simpl; [| reflexivity].
    destruct (fs_writeFile w _ file); reflexivity.
Qed.

(** ** What a job asks of the network *)

Lemma step1_network w h originalUrl inputPath requestId :
  always view_network
    (step1_download w (logEventCurried w h) originalUrl inputPath requestId)
    (fun _ t => t = [AGet originalUrl]).
Proof. unfold step1_download, downloadFile. run_auto; reflexivity. Qed.

Lemma step4_network w h kind originalUrl overwriteUrl buffer requestId :
  always view_network
    (step4_upload w (logEventCurried w h) kind originalUrl overwriteUrl
       buffer requestId)
    (fun r t =>
       (t = [AHead originalUrl] /\ r = Ok true) \/
       (t = [AHead originalUrl;
             APut overwriteUrl buffer (getContentType kind)] /\
        r <> Ok true /\
        exists answer,
          fetch_head_exists w originalUrl = Ok answer /\
          head_ok answer = true)).
Proof.
  unfold step4_upload, publicAssetExists, uploadFile.
  run_auto; simpl; auto;
    right; (split; [reflexivity |]); (split; [discriminate |]);
    eexists; (split; [reflexivity |]);
    match goal with
    | Hb : negb (head_ok ?a) = false |- head_ok ?a = true =>
        apply negb_false_iff in Hb; exact Hb
    end.
Qed.

(** X29.  A job asks the network for at most three things, in this order:
    it downloads the original, it asks whether the original is still
    there, and it uploads the result.  It never uploads without having
    been told, by the request just before, that the original is there,
    and no executor touches the network. *)
Theorem job_network_footprint
  (w : World) (msg : Msg) (kind : AssetKind) (s : LogStore) :
  let o := run_job w msg kind s in
  let url := js_string (msg_originalUrl msg) in
  let out := js_string (msg_overwriteUrl msg) in
  network (acts o) = [] \/
  network (acts o) = [AGet url] \/
  network (acts o) = [AGet url; AHead url] \/
  exists b answer,
    network (acts o) = [AGet url; AHead url; APut out b (getContentType kind)]
    /\ fetch_head_exists w url = Ok answer /\ head_ok answer = true.
Proof.
  cbv zeta. unfold network. revert s.
  change (always view_network (run_job w msg kind)
    (fun _ t =>
       t = [] \/
       t = [AGet (js_string (msg_originalUrl msg))] \/
       t = [AGet (js_string (msg_originalUrl msg));
            AHead (js_string (msg_originalUrl msg))] \/
       exists b answer,
         t = [AGet (js_string (msg_originalUrl msg));
              AHead (js_string (msg_originalUrl msg));
              APut (js_string (msg_overwriteUrl msg)) b
                (getContentType kind)] /\
         fetch_head_exists w (js_string (msg_originalUrl msg)) = Ok answer /\
         head_ok answer = true)).
  unfold run_job.
  run_silent. destruct r as [handle | e]; [| auto].
  run_silent. destruct r; [| auto].
  run_silent. destruct r; [| auto].
  run_silent. destruct r; [| auto].
  run_with step1_network. subst.
  destruct r as [[] | e]; [| simpl; auto].
  run_silent. destruct r as [processedPath | e]; [| simpl; auto].
  run_silent. destruct r as [processedBuffer | e]; [| simpl; auto].
  run_with step4_network.
  assert (Hshape :
    [] ++ [] ++ [] ++ [] ++
    [AGet (js_string (msg_originalUrl msg))] ++ [] ++ [] ++ t =
    [AGet (js_string (msg_originalUrl msg));
     AHead (js_string (msg_originalUrl msg))] \/
    exists b answer,
      [] ++ [] ++ [] ++ [] ++
      [AGet (js_string (msg_originalUrl msg))] ++ [] ++ [] ++ t =
      [AGet (js_string (msg_originalUrl msg));
       AHead (js_string (msg_originalUrl msg));
       APut (js_string (msg_overwriteUrl msg)) b (getContentType kind)] /\
      fetch_head_exists w (js_string (msg_originalUrl msg)) = Ok answer /\
      head_ok answer = true).
  { destruct H as [[-> _] | (-> & _ & answer & Ha & Hok)];
      [left; reflexivity |].
    right. exists processedBuffer, answer. auto. }
  destruct r as [[|] | e].
  - run_step. rewrite app_nil_r.
    destruct Hshape as [Hs | Hs]; [right; right; left; exact Hs |].
    right. right. right. exact Hs.
  - run_silent. rewrite app_nil_r.
    destruct Hshape as [Hs | Hs]; [right; right; left; exact Hs |].
    right. right. right. exact Hs.
  - destruct Hshape as [Hs | Hs]; [right; right; left; exact Hs |].
    right. right. right. exact Hs.
Qed.

(** ** A cleanup that fails *)

Lemma step5_stops_at_input w inputPath processedPath requestId e :
  fs_existsSync w inputPath = true ->
  fs_unlink w inputPath = Some e ->
  always view_cleanup (step5_cleanup w inputPath processedPath requestId)
    (fun r t => r = Ok tt /\ t = [inputPath]).
Proof.
  intros Hthere Hunlink. unfold step5_cleanup, cleanup_file.
  run_det. simpl. auto.
Qed.

Lemma run_job_stops_cleanup w msg kind e :
  fs_existsSync w (worker_inputPath w) = true ->
  fs_unlink w (worker_inputPath w) = Some e ->
  always view_cleanup (run_job w msg kind)
    (fun r t => t = [] \/ (t = [worker_inputPath w] /\ r = Ok tt)).
Proof.
  intros Hthere Hunlink. unfold run_job.
  run_silent. destruct r as [handle |]; [| auto].
  run_silent. destruct r; [| auto].
  run_silent. destruct r; [| auto].
  run_silent. destruct r; [| auto].
  run_silent. destruct r; [| auto].
  run_silent. destruct r as [processedPath |]; [| auto].
  run_silent. destruct r as [processedBuffer |]; [| auto].
  run_silent. destruct r as [[|] |]; [run_step; auto | | auto].
  eapply always_conseq.
  { apply (step5_stops_at_input w (worker_inputPath w) processedPath
             (js_string (msg_requestId msg)) e Hthere Hunlink). }
  cbv beta. intros r t [-> ->]. right. split; reflexivity.
Qed.

(** X30.  A cleanup that fails at the first file leaves the second one
    behind.  When the input file is there but cannot be deleted, step 5
    logs the error and stops: the processed file is not even looked for.
    The job returns all the same. *)
Theorem failed_cleanup_leaves_the_processed_file
  (w : World) (msg : Msg) (kind : AssetKind) (s : LogStore) (e : Error) :
  fs_existsSync w (worker_inputPath w) = true ->
  fs_unlink w (worker_inputPath w) = Some e ->
  let o := run_job w msg kind s in
  (cleanup_probes (acts o) = [] \/
   cleanup_probes (acts o) = [worker_inputPath w] /\ res o = Ok tt) /\
  (In (event completed "Upload successful") (log_events (acts o)) ->
   cleanup_probes (acts o) = [worker_inputPath w] /\ res o = Ok tt).
Proof.
  intros Hthere Hunlink. cbv zeta.
  pose proof (run_job_stops_cleanup w msg kind e Hthere Hunlink s) as H.
  split; [exact H |].
  intros Hin. destruct H as [Hnone | H]; [| exact H].
  exfalso.
  pose proof (run_job_settles w msg kind s) as Hs.
  unfold log_events in Hin.
  apply (closing_in_settlement (event completed "Upload successful") _
           eq_refl) in Hin.
  unfold cleanup_probes in Hnone. rewrite <- settle_keeps_cleanup in Hnone.
  settle_cases Hs; in_cases Hin; try discriminate.
Qed.

(** X30, at an image job on a disk that refuses to delete. *)
Lemma failed_cleanup_witness :
  let props := {| img_compress := None; img_cropParams := None |} in
  let queued := Scenario.queued
                  (Scenario.with_config (Scenario.image_config props)) in
  let e := new_Error "EPERM: operation not permitted, unlink" in
  let w := Scenario.world (PValue queued) (Some "image/jpeg") true
             Scenario.metadata_800x600 Scenario.probe_30s Scenario.bytes
             1000 (Ok "") None (Some e) in
  let o := run_job w queued image ∅ in
  cleanup_probes (acts o) = ["/tmp/asset-worker/input-1700000000000"] /\
  res o = Ok tt.
Proof.
  intros props queued e w o.
  destruct (failed_cleanup_leaves_the_processed_file w queued image ∅ e
              eq_refl eq_refl) as [_ H].
  apply H. vm_compute. in_list.
Defined.
